(** * Idle transaction: activity tracking, heartbeat and finish

    A shallow embedding of [idletransaction.ts] (package [tracing]): the class
    [IdleTransactionSpanRecorder] and the class [IdleTransaction], with the
    host facilities they call ([setTimeout], [clearTimeout],
    [timestampWithMs], [logger.log]) made explicit in a world state.

    JavaScript numbers that carry time (seconds from [timestampWithMs],
    milliseconds for timer delays) are exact rationals [Q]; counters and
    timer handles are [nat]. *)

From Stdlib Require Import QArith.
From stdpp Require Import base option list strings gmap.

Local Open Scope string_scope.

(** ** Data *)

(** Modelled from the spec: [SpanStatus] ([./spanstatus] is not part of the
    sources); section 3: an enum including [Ok], [Cancelled] and
    [DeadlineExceeded]. *)
Inductive SpanStatus := Ok | Cancelled | DeadlineExceeded.

(** The two prototype methods of [IdleTransaction] that [initSpanRecorder]
    hands to the recorder as plain function values (line 175 passes
    [this._popActivity] and [this._pushActivity] without binding them). *)
Inductive callback :=
  | IdleTransaction_pushActivity
  | IdleTransaction_popActivity.

(** What the property [finish] of a span object holds: the method inherited
    from the prototype, or the arrow function that
    [IdleTransactionSpanRecorder.add] assigns (lines 28-33). The arrow
    function closes over the span itself and over the recorder, whose
    read-only field [_popActivity] is kept in the closure. *)
Inductive finish_impl :=
  | PrototypeFinish
  | PatchedFinish (popActivity : option callback).

(** Modelled from the spec: the fields of a span ([./span] is not part of
    the sources); section 3: identity, start time, optional end time (a span
    without one is open), status, attributes. The names are those under
    which the module reads and writes them; [finish] is the property through
    which the method of that name is called. *)
Module Span.
Record t := mk {
  spanId : string;
  startTimestamp : Q;
  endTimestamp : option Q;
  status : option SpanStatus;
  tags : gmap string string;
  finish : finish_impl
}.

Definition with_endTimestamp (x : option Q) (sp : t) : t :=
  mk (spanId sp) (startTimestamp sp) x (status sp) (tags sp) (finish sp).
Definition with_status (x : option SpanStatus) (sp : t) : t :=
  mk (spanId sp) (startTimestamp sp) (endTimestamp sp) x (tags sp) (finish sp).
Definition with_tags (x : gmap string string) (sp : t) : t :=
  mk (spanId sp) (startTimestamp sp) (endTimestamp sp) (status sp) x (finish sp).
Definition with_finish (x : finish_impl) (sp : t) : t :=
  mk (spanId sp) (startTimestamp sp) (endTimestamp sp) (status sp) (tags sp) x.
End Span.

(** Object identity. The transaction is itself a span ([IdleTransaction]
    extends [Transaction] extends [Span]); every other span lives in the
    heap of the world. *)
Inductive ref := RThis | RChild (n : nat).

(** The recorder object (lines 14-22): capacity and span list of the base
    class, and the two callbacks given to the constructor, each possibly
    [undefined]. *)
Module IdleTransactionSpanRecorder.
Record t := mk {
  _maxlen : option nat;
  spans : list ref;
  _pushActivity : option callback;
  _popActivity : option callback
}.
End IdleTransactionSpanRecorder.
Abbreviation Recorder := IdleTransactionSpanRecorder.t.

(** The receiver of a method call. *)
Inductive this_value := ThisTransaction | ThisRecorder.

(** Callbacks handed to [setTimeout]: the arrow functions of
    [_pingHeartbeat] (line 99) and of [_popActivity] (line 163). Both close
    over the transaction. *)
Inductive timer_callback :=
  | CbBeat
  | CbFinishIdle (endTimestamp : Q).

Record Timer := mkTimer {
  timer_id : nat;
  timer_delay : Q;
  timer_callback_of : timer_callback
}.

(** One entry per [logger.log] call site of the module. *)
Inductive log_entry :=
  | LogHeartbeatSafeguard     (* line 81 *)
  | LogCancellingSpan (r : ref) (* line 119 *)
  | LogDiscardingSpan (r : ref) (* line 124 *)
  | LogFlushing               (* line 132 *)
  | LogNoActive.              (* line 135 *)

(** What the delivery pipeline receives when the underlying finish runs. *)
Record Emitted := mkEmitted {
  emitted_end : option Q;
  emitted_spans : list ref
}.

Inductive js_error := TypeError | RangeError.

(** The transaction object, the spans reachable from it, and the host. *)
Record World := mkWorld {
  self : Span.t;
  spanRecorder : option Recorder;
  _idleTimeout : Q;
  _activities : list string;
  _heartbeatTimer : nat;
  _prevHeartbeatString : option string;
  _heartbeatCounter : nat;
  heap : list Span.t;
  clock : Q;
  timers : list Timer;
  next_timer : nat;
  logged : list log_entry;
  sink : list Emitted
}.

Definition set_self (x : Span.t) (w : World) : World :=
  mkWorld x (spanRecorder w) (_idleTimeout w) (_activities w) (_heartbeatTimer w)
    (_prevHeartbeatString w) (_heartbeatCounter w) (heap w) (clock w) (timers w)
    (next_timer w) (logged w) (sink w).
Definition set_spanRecorder (x : option Recorder) (w : World) : World :=
  mkWorld (self w) x (_idleTimeout w) (_activities w) (_heartbeatTimer w)
    (_prevHeartbeatString w) (_heartbeatCounter w) (heap w) (clock w) (timers w)
    (next_timer w) (logged w) (sink w).
Definition set_activities (x : list string) (w : World) : World :=
  mkWorld (self w) (spanRecorder w) (_idleTimeout w) x (_heartbeatTimer w)
    (_prevHeartbeatString w) (_heartbeatCounter w) (heap w) (clock w) (timers w)
    (next_timer w) (logged w) (sink w).
Definition set_heartbeatTimer (x : nat) (w : World) : World :=
  mkWorld (self w) (spanRecorder w) (_idleTimeout w) (_activities w) x
    (_prevHeartbeatString w) (_heartbeatCounter w) (heap w) (clock w) (timers w)
    (next_timer w) (logged w) (sink w).
Definition set_prevHeartbeatString (x : option string) (w : World) : World :=
  mkWorld (self w) (spanRecorder w) (_idleTimeout w) (_activities w) (_heartbeatTimer w)
    x (_heartbeatCounter w) (heap w) (clock w) (timers w)
    (next_timer w) (logged w) (sink w).
Definition set_heartbeatCounter (x : nat) (w : World) : World :=
  mkWorld (self w) (spanRecorder w) (_idleTimeout w) (_activities w) (_heartbeatTimer w)
    (_prevHeartbeatString w) x (heap w) (clock w) (timers w)
    (next_timer w) (logged w) (sink w).
Definition set_heap (x : list Span.t) (w : World) : World :=
  mkWorld (self w) (spanRecorder w) (_idleTimeout w) (_activities w) (_heartbeatTimer w)
    (_prevHeartbeatString w) (_heartbeatCounter w) x (clock w) (timers w)
    (next_timer w) (logged w) (sink w).
Definition set_clock (x : Q) (w : World) : World :=
  mkWorld (self w) (spanRecorder w) (_idleTimeout w) (_activities w) (_heartbeatTimer w)
    (_prevHeartbeatString w) (_heartbeatCounter w) (heap w) x (timers w)
    (next_timer w) (logged w) (sink w).
Definition set_timers (x : list Timer) (w : World) : World :=
  mkWorld (self w) (spanRecorder w) (_idleTimeout w) (_activities w) (_heartbeatTimer w)
    (_prevHeartbeatString w) (_heartbeatCounter w) (heap w) (clock w) x
    (next_timer w) (logged w) (sink w).
Definition set_next_timer (x : nat) (w : World) : World :=
  mkWorld (self w) (spanRecorder w) (_idleTimeout w) (_activities w) (_heartbeatTimer w)
    (_prevHeartbeatString w) (_heartbeatCounter w) (heap w) (clock w) (timers w)
    x (logged w) (sink w).
Definition set_logged (x : list log_entry) (w : World) : World :=
  mkWorld (self w) (spanRecorder w) (_idleTimeout w) (_activities w) (_heartbeatTimer w)
    (_prevHeartbeatString w) (_heartbeatCounter w) (heap w) (clock w) (timers w)
    (next_timer w) x (sink w).
Definition set_sink (x : list Emitted) (w : World) : World :=
  mkWorld (self w) (spanRecorder w) (_idleTimeout w) (_activities w) (_heartbeatTimer w)
    (_prevHeartbeatString w) (_heartbeatCounter w) (heap w) (clock w) (timers w)
    (next_timer w) (logged w) x.

(** ** The monad of method bodies

    A method either returns, or throws; the mutations made before a throw
    stay. *)
Inductive outcome (A : Type) :=
  | Done (a : A) (w : World)
  | Thrown (e : js_error) (w : World).
Arguments Done {A} a w.
Arguments Thrown {A} e w.

Definition world_of {A} (o : outcome A) : World :=
  match o with
  | Done _ w => w
  | Thrown _ w => w
  end.

Definition M (A : Type) : Type := World → outcome A.

Definition ret {A} (a : A) : M A := λ w, Done a w.
Definition bind {A B} (m : M A) (k : A → M B) : M B :=
  λ w, match m w with
       | Done a w' => k a w'
       | Thrown e w' => Thrown e w'
       end.
Definition throw {A} (e : js_error) : M A := λ w, Thrown e w.
Definition gets {A} (f : World → A) : M A := λ w, Done (f w) w.
Definition modify (f : World → World) : M unit := λ w, Done tt (f w).

Declare Scope js_scope.
Delimit Scope js_scope with js.
Notation "'let*' x := m 'in' k" := (bind m (λ x, k))
  (at level 10, x name, m at level 100, k at level 200) : js_scope.
Notation "m ;;; k" := (bind m (λ _, k))
  (at level 100, k at level 200, right associativity) : js_scope.
Local Open Scope js_scope.

Definition when (b : bool) (m : M unit) : M unit := if b then m else ret tt.

(** ** Host facilities *)

(** [timestampWithMs()]: seconds, read from the host clock. *)
Definition timestampWithMs : M Q := gets clock.

(** [setTimeout(cb, delay)]: registers a pending one-shot timer and returns
    its handle; handles are positive and never reused. *)
Definition setTimeout (cb : timer_callback) (delay : Q) : M nat :=
  λ w, let id := next_timer w in
       Done id (set_next_timer (S id) (set_timers (timers w ++ [mkTimer id delay cb])%list w)).

(** [clearTimeout(id)]: drops the pending timer with that handle, if any. *)
Definition clearTimeout (id : nat) : M unit :=
  modify (λ w, set_timers (filter (λ t, timer_id t ≠ id) (timers w)) w).

Definition logger_log (e : log_entry) : M unit :=
  modify (λ w, set_logged (logged w ++ [e])%list w).

(** ** Span objects *)

(** Reading through a reference. A reference into the heap that names no
    object cannot arise in the program; the model reports it the way the
    engine reports a property read on [undefined]. *)
Definition read (w : World) (r : ref) : option Span.t :=
  match r with
  | RThis => Some (self w)
  | RChild n => heap w !! n
  end.

Definition deref (r : ref) : M Span.t :=
  λ w, match read w r with
       | Some sp => Done sp w
       | None => Thrown TypeError w
       end.

Definition store (r : ref) (sp : Span.t) : World → World :=
  match r with
  | RThis => set_self sp
  | RChild n => λ w, set_heap (<[n:=sp]> (heap w)) w
  end.

(** [span.f = v] for one field: read the object, write it back changed. *)
Definition update (r : ref) (f : Span.t → Span.t) : M unit :=
  let* sp := deref r in modify (store r (f sp)).

(** Modelled from the spec: [Span.setStatus] ([./span] is not part of the
    sources); section 3 gives a span a [status], sections 4.3 and 4.4 have
    the engine set it. *)
Definition setStatus (r : ref) (st : SpanStatus) : M unit :=
  update r (Span.with_status (Some st)).

(** Modelled from the spec: [Span.setTag] ([./span] is not part of the
    sources); section 3 gives a span [attributes: map(string -> value)],
    section 4.3 has the heartbeat set the attribute [heartbeat = failed]. *)
Definition setTag (r : ref) (key value : string) : M unit :=
  update r (λ sp, Span.with_tags (<[key:=value]> (Span.tags sp)) sp).

(** Modelled from the spec: [Span.prototype.finish] ([./span] is not part of
    the sources); section 3: a span is open until its [endTime] is set, and
    [endTime] is write-once. [finish(optionalTimestamp)] closes an open span,
    at the timestamp given, or at the current time of the timestamp source
    when none is given; on a span whose end is set it writes nothing. *)
Definition Span_prototype_finish (r : ref) (optionalTimestamp : option Q) : M unit :=
  let* sp := deref r in
  match Span.endTimestamp sp with
  | Some _ => ret tt
  | None =>
      let* now := timestampWithMs in
      update r (Span.with_endTimestamp (Some (default now optionalTimestamp)))
  end.

(** Modelled from the spec: [Transaction.prototype.finish], the underlying
    finish/emit path ([./transaction] is not part of the sources); section
    3: [endTime] is write-once; sections 4.4 and 6: it fixes the
    transaction's own [endTime] and hands the transaction, with the spans of
    its recorder, to the sink, once per transaction instance. Called on a
    transaction whose end is set it returns at once: no end is written and
    nothing is handed over again. *)
Definition Transaction_prototype_finish (optionalTimestamp : option Q) : M unit :=
  let* finished := gets (λ w, Span.endTimestamp (self w)) in
  match finished with
  | Some _ => ret tt
  | None =>
      Span_prototype_finish RThis optionalTimestamp ;;;
      modify (λ w, set_sink (sink w ++
        [mkEmitted (Span.endTimestamp (self w))
                   (from_option IdleTransactionSpanRecorder.spans [] (spanRecorder w))])%list w)
  end.

(** Modelled from the spec: [SpanRecorder.add], the append that
    [IdleTransactionSpanRecorder.add] delegates to ([./transaction] is not
    part of the sources); section 3: an ordered, capacity-bounded sequence,
    the oldest entries beyond the capacity dropped on insert. A recorder
    built without [maxlen] is modelled without a bound. *)
Definition SpanRecorder_add (span : ref) (rec : Recorder) : Recorder :=
  let all := (IdleTransactionSpanRecorder.spans rec ++ [span])%list in
  let kept :=
    match IdleTransactionSpanRecorder._maxlen rec with
    | Some n => drop (length all - n) all
    | None => all
    end in
  IdleTransactionSpanRecorder.mk
    (IdleTransactionSpanRecorder._maxlen rec) kept
    (IdleTransactionSpanRecorder._pushActivity rec)
    (IdleTransactionSpanRecorder._popActivity rec).

(** ** [IdleTransaction]: the activity tracker (lines 143-167)

    [_activities] is an object used as a set: its own keys, in the order
    [Object.keys] lists them, which for span ids (not array indices) is the
    order of insertion. The value stored under every key is [true]. *)

(** [this._activities[spanId]] as a condition. *)
Definition is_active (spanId : string) (activities : list string) : bool :=
  bool_decide (spanId ∈ activities).

(** [this._activities[spanId] = true]. *)
Definition activities_set (spanId : string) (activities : list string) : list string :=
  if is_active spanId activities then activities else (activities ++ [spanId])%list.

(** [delete this._activities[spanId]]. *)
Definition activities_delete (spanId : string) (activities : list string) : list string :=
  filter (λ k, k ≠ spanId) activities.

(** Both methods are written against [this._activities]. Called on the
    transaction they work on its activity set; called on the recorder, which
    has no such field, the read [this._activities[spanId]] is a property
    access on [undefined]. *)
Definition _pushActivity (this : this_value) (spanId : string) : M unit :=
  match this with
  | ThisRecorder => throw TypeError
  | ThisTransaction =>
      modify (λ w, set_activities (activities_set spanId (_activities w)) w)
  end.

Definition _popActivity (this : this_value) (spanId : string) : M unit :=
  match this with
  | ThisRecorder => throw TypeError
  | ThisTransaction =>
      (let* activities := gets _activities in
       when (is_active spanId activities)
         (modify (set_activities (activities_delete spanId activities)))) ;;;
      let* count := gets (λ w, length (_activities w)) in
      if Nat.eqb count 0 then
        let* timeout := gets _idleTimeout in
        let* now := timestampWithMs in
        let end_ := (now + timeout / 1000)%Q in
        let* _ := setTimeout (CbFinishIdle end_) timeout in
        ret tt
      else ret tt
  end.

Definition invoke (cb : callback) (this : this_value) (id : string) : M unit :=
  match cb with
  | IdleTransaction_pushActivity => _pushActivity this id
  | IdleTransaction_popActivity => _popActivity this id
  end.

(** ** Calling [span.finish(endTimestamp)]

    The call goes through whatever the property [finish] of the object
    holds at that moment. For the arrow function of
    [IdleTransactionSpanRecorder.add] the body is, line by line:
    [span.finish(endTimestamp)], a call through the same property of the
    same object; then [this._popActivity(span.spanId)] on the recorder when
    that field is set. The call stack of the engine is finite: [fuel] is the
    number of nested calls of [finish] it still admits, and a call beyond it
    ends in [RangeError] with the state as it stands. *)
Fixpoint Span_finish (fuel : nat) (span : ref) (endTimestamp : option Q) : M unit :=
  match fuel with
  | O => throw RangeError
  | S fuel' =>
      let* sp := deref span in
      match Span.finish sp with
      | PrototypeFinish =>
          match span with
          | RThis => Transaction_prototype_finish endTimestamp
          | RChild _ => Span_prototype_finish span endTimestamp
          end
      | PatchedFinish popActivity =>
          Span_finish fuel' span endTimestamp ;;;
          match popActivity with
          | Some cb => let* sp' := deref span in invoke cb ThisRecorder (Span.spanId sp')
          | None => ret tt
          end
      end
  end.

(** ** [IdleTransactionSpanRecorder.add] (lines 27-39)

    A method of the recorder: [this] is the recorder object, here the one
    the transaction holds in [spanRecorder]. *)
Definition add (span : ref) : M unit :=
  let* rec := gets spanRecorder in
  match rec with
  | None => throw TypeError
  | Some rec =>
      update span
        (Span.with_finish (PatchedFinish (IdleTransactionSpanRecorder._popActivity rec))) ;;;
      modify (set_spanRecorder (Some (SpanRecorder_add span rec))) ;;;
      match IdleTransactionSpanRecorder._pushActivity rec with
      | Some cb => let* sp := deref span in invoke cb ThisRecorder (Span.spanId sp)
      | None => ret tt
      end
  end.

(** The constructor of the recorder (lines 18-22), parameters in order. *)
Definition new_IdleTransactionSpanRecorder
    (maxlen : option nat) (pushActivity popActivity : option callback) : Recorder :=
  IdleTransactionSpanRecorder.mk maxlen [] pushActivity popActivity.

(** [initSpanRecorder] (lines 172-178). *)
Definition initSpanRecorder (maxlen : option nat) : M unit :=
  (let* rec := gets spanRecorder in
   when (negb (bool_decide (is_Some rec)))
     (modify (set_spanRecorder (Some
        (new_IdleTransactionSpanRecorder maxlen
           (Some IdleTransaction_popActivity) (Some IdleTransaction_pushActivity)))))) ;;;
  add RThis.

(** ** [_finishIdleTransaction] (lines 107-137) *)

(** [Array.prototype.filter] with a callback that has effects: the elements
    are visited in order, each once. *)
Fixpoint filterM {A} (f : A → M bool) (l : list A) : M (list A) :=
  match l with
  | [] => ret []
  | x :: l' =>
      let* keep := f x in
      let* rest := filterM f l' in
      ret (if keep then x :: rest else rest)
  end.

(** [!span.endTimestamp]: true for [undefined] and for the number [0]. *)
Definition not_endTimestamp (x : option Q) : bool :=
  match x with
  | None => true
  | Some q => Qeq_bool q 0
  end.

Definition Qlt_bool (x y : Q) : bool := negb (Qle_bool y x).

(** The callback of the filter (lines 109-130). *)
Definition keep_span (endTimestamp : Q) (span : ref) : M bool :=
  let* sp := deref span in
  let* this_spanId := gets (λ w, Span.spanId (self w)) in
  if String.eqb (Span.spanId sp) this_spanId then ret true
  else
    when (not_endTimestamp (Span.endTimestamp sp))
      (update span (Span.with_endTimestamp (Some endTimestamp)) ;;;
       setStatus span Cancelled ;;;
       logger_log (LogCancellingSpan span)) ;;;
    let* sp' := deref span in
    let keepSpan := Qlt_bool (Span.startTimestamp sp') endTimestamp in
    when (negb keepSpan) (logger_log (LogDiscardingSpan span)) ;;;
    ret keepSpan.

Definition with_spans (x : list ref) (rec : Recorder) : Recorder :=
  IdleTransactionSpanRecorder.mk
    (IdleTransactionSpanRecorder._maxlen rec) x
    (IdleTransactionSpanRecorder._pushActivity rec)
    (IdleTransactionSpanRecorder._popActivity rec).

Definition _finishIdleTransaction (fuel : nat) (endTimestamp : Q) : M unit :=
  let* rec := gets spanRecorder in
  match rec with
  | Some rec =>
      let* kept := filterM (keep_span endTimestamp) (IdleTransactionSpanRecorder.spans rec) in
      modify (λ w, set_spanRecorder (with_spans kept <$> spanRecorder w) w) ;;;
      logger_log LogFlushing ;;;
      Span_finish fuel RThis None
  | None => logger_log LogNoActive
  end.

(** ** The heartbeat (lines 70-102) *)

Definition _pingHeartbeat : M unit :=
  let* id := setTimeout CbBeat 5000 in
  modify (set_heartbeatTimer id).

(** [keys.reduce((prev, current) => prev + current)] on a non-empty array:
    the first key is the initial value. *)
Definition reduce_concat (first : string) (rest : list string) : string :=
  fold_left String.append rest first.

(** [heartbeatString === this._prevHeartbeatString]. *)
Definition same_string (s : string) (prev : option string) : bool :=
  match prev with
  | Some p => String.eqb s p
  | None => false
  end.

Definition _beat (fuel : nat) : M unit :=
  (let* t := gets _heartbeatTimer in clearTimeout t) ;;;
  (let* keys := gets _activities in
   match keys with
   | [] => ret tt
   | first :: rest =>
       let heartbeatString := reduce_concat first rest in
       (let* prev := gets _prevHeartbeatString in
        if same_string heartbeatString prev
        then modify (λ w, set_heartbeatCounter (S (_heartbeatCounter w)) w)
        else modify (set_heartbeatCounter 0)) ;;;
       (let* counter := gets _heartbeatCounter in
        when (3 <=? counter)%nat
          (logger_log LogHeartbeatSafeguard ;;;
           setStatus RThis DeadlineExceeded ;;;
           setTag RThis "heartbeat" "failed" ;;;
           let* now := timestampWithMs in
           _finishIdleTransaction fuel now)) ;;;
       modify (set_prevHeartbeatString (Some heartbeatString))
   end) ;;;
  _pingHeartbeat.

(** ** Construction and the host's event loop *)

(** [new IdleTransaction(transactionContext, hub, idleTimeout = 500)]
    (lines 46-64): the field initialisers, then the first heartbeat ping.
    The span id and the start time come from the base constructor. *)
Definition new_IdleTransaction
    (spanId : string) (now : Q) (idleTimeout : option Q) : outcome unit :=
  _pingHeartbeat
    (mkWorld (Span.mk spanId now None None ∅ PrototypeFinish) None
       (default 500%Q idleTimeout) [] 0 None 0 [] now [] 1 [] []).

(** The host runs the callback of a pending timer: the timer leaves the
    pending set, then the arrow function runs on the transaction. *)
Definition run_callback (fuel : nat) (cb : timer_callback) : M unit :=
  match cb with
  | CbBeat => _beat fuel
  | CbFinishIdle end_ => _finishIdleTransaction fuel end_
  end.

Definition fire (fuel : nat) (id : nat) : M unit :=
  let* pending := gets timers in
  match list_find (λ t, timer_id t = id) pending with
  | Some (_, t) => clearTimeout id ;;; run_callback fuel (timer_callback_of t)
  | None => ret tt
  end.

(** The host clock moves. *)
Definition advance (now : Q) : M unit := modify (set_clock now).

(** * Vocabulary of the statements *)

(** ** Sequences of calls *)

(** A pop repeated [n] times. *)
Fixpoint repeat_pop (n : nat) (spanId : string) : M unit :=
  match n with
  | O => ret tt
  | S n' => _popActivity ThisTransaction spanId ;;; repeat_pop n' spanId
  end.

(** What the rest of the program may do to the activity set between two
    ticks. *)
Inductive activity_op :=
  | Push (spanId : string)
  | Pop (spanId : string).

Definition apply_op (op : activity_op) : M unit :=
  match op with
  | Push spanId => _pushActivity ThisTransaction spanId
  | Pop spanId => _popActivity ThisTransaction spanId
  end.

Fixpoint apply_ops (ops : list activity_op) : M unit :=
  match ops with
  | [] => ret tt
  | op :: ops' => apply_op op ;;; apply_ops ops'
  end.

(** A run of the heartbeat: before each tick, some pushes and pops. *)
Fixpoint ticks (fuel : nat) (rounds : list (list activity_op)) : M unit :=
  match rounds with
  | [] => ret tt
  | ops :: rounds' => apply_ops ops ;;; _beat fuel ;;; ticks fuel rounds'
  end.

(** At every tick of the run the activity set is empty or its signature
    differs from the one the previous tick stored. *)
Fixpoint changes_every_tick (fuel : nat) (rounds : list (list activity_op)) (w : World)
    : Prop :=
  match rounds with
  | [] => True
  | ops :: rounds' =>
      let w1 := world_of (apply_ops ops w) in
      match _activities w1 with
      | [] => True
      | first :: rest =>
          same_string (reduce_concat first rest) (_prevHeartbeatString w1) = false
      end
      ∧ changes_every_tick fuel rounds' (world_of (_beat fuel w1))
  end.

(** ** Worlds along a tick and a finish *)

(** The world after [clearTimeout(this._heartbeatTimer)]. *)
Definition cleared (w : World) : World :=
  set_timers (filter (λ t, timer_id t ≠ _heartbeatTimer w) (timers w)) w.

(** The world after [_pingHeartbeat()]. *)
Definition pinged (w : World) : World :=
  set_heartbeatTimer (next_timer w)
    (set_next_timer (S (next_timer w))
       (set_timers (timers w ++ [mkTimer (next_timer w) 5000 CbBeat])%list w)).

(** The world in which the safeguard calls [_finishIdleTransaction]: counter
    raised, the safeguard logged, status and tag set on the transaction. *)
Definition alarmed (w : World) : World :=
  let w1 := set_logged (logged w ++ [LogHeartbeatSafeguard])%list
              (set_heartbeatCounter (S (_heartbeatCounter w)) (cleared w)) in
  set_self
    (Span.with_tags (<["heartbeat":="failed"]> (Span.tags (self w1)))
       (Span.with_status (Some DeadlineExceeded) (self w1)))
    w1.

(** The world in which [_finishIdleTransaction] calls [this.finish()]. *)
Definition flushing (kept_spans : list ref) (w : World) : World :=
  set_logged (logged w ++ [LogFlushing])%list
    (set_spanRecorder (with_spans kept_spans <$> spanRecorder w) w).

(** ** Reconciliation *)

(** [span.spanId === this.spanId]. *)
Definition is_own (w : World) (sp : Span.t) : bool :=
  String.eqb (Span.spanId sp) (Span.spanId (self w)).

(** What lines 116-120 make of a span that is not the transaction. *)
Definition cancel (endTimestamp : Q) (sp : Span.t) : Span.t :=
  if not_endTimestamp (Span.endTimestamp sp)
  then Span.with_status (Some Cancelled) (Span.with_endTimestamp (Some endTimestamp) sp)
  else sp.

(** The verdict of the filter on a reference, read off the world before. *)
Definition kept (w : World) (endTimestamp : Q) (r : ref) : bool :=
  match read w r with
  | Some sp => is_own w sp || Qlt_bool (Span.startTimestamp sp) endTimestamp
  | None => false
  end.

(** The fields the filter never writes. *)
Definition frame (w : World) :=
  (self w, spanRecorder w, _idleTimeout w, _activities w, _heartbeatTimer w,
   _prevHeartbeatString w, _heartbeatCounter w, clock w, timers w, next_timer w, sink w).

Global Instance ref_eq_dec : EqDecision ref.
Proof. solve_decision. Defined.

(** What a run of the filter may have done to the world: nothing outside
    heap and log, and to a span nothing, or [cancel] when it is not the
    transaction's. *)
Definition reconciled (e : Q) (w w' : World) : Prop :=
  frame w' = frame w
  ∧ ∀ r sp, read w r = Some sp →
      read w' r = Some sp ∨ (is_own w sp = false ∧ read w' r = Some (cancel e sp)).

(** The references of the recorder name objects. *)
Definition recorded (w : World) : list ref :=
  from_option IdleTransactionSpanRecorder.spans [] (spanRecorder w).

Definition well_formed (w : World) : Prop :=
  Forall (λ r, is_Some (read w r)) (recorded w).

Global Instance well_formed_dec (w : World) : Decision (well_formed w).
Proof. unfold well_formed. apply _. Defined.

(** The world the underlying finish leaves: the transaction closed and
    delivered; or, when its end was set before, the world as it was. *)
Definition flushed (optionalTimestamp : option Q) (w : World) : World :=
  match Span.endTimestamp (self w) with
  | Some _ => w
  | None =>
      let end_ := default (clock w) optionalTimestamp in
      set_sink (sink w ++ [mkEmitted (Some end_) (recorded w)])%list
        (set_self (Span.with_endTimestamp (Some end_) (self w)) w)
  end.

(** Nothing of a finish has happened between [w] and [w']. *)
Definition unfinished (w w' : World) : Prop :=
  self w' = self w ∧ spanRecorder w' = spanRecorder w ∧ heap w' = heap w
  ∧ logged w' = logged w ∧ sink w' = sink w.

Definition is_idle_finish (timeout : Q) (t : Timer) : Prop :=
  timer_delay t = timeout ∧ ∃ e, timer_callback_of t = CbFinishIdle e.

(** ** Worlds used in the examples *)

Definition open_span (id : string) (start : Q) : Span.t :=
  Span.mk id start None None ∅ PrototypeFinish.

Definition closed_span (id : string) (start stop : Q) : Span.t :=
  Span.mk id start (Some stop) None ∅ PrototypeFinish.

(** A transaction ["t"] started at second 10, right after its constructor. *)
Definition new_transaction : World :=
  world_of (new_IdleTransaction "t" 10 None).

(** The same after [initSpanRecorder()], with one child span ["c"] created
    at second 11 and not yet handed to the recorder. *)
Definition recording_transaction : World :=
  set_heap [open_span "c" 11] (world_of (initSpanRecorder None new_transaction)).

(** A transaction whose recorder holds the transaction itself and three
    children: ["a"] started at 11 and still open, ["b"] started at 11 and
    closed at 11.5, ["c"] started at 13 and still open. The clock reads 12.
    The property [finish] of the transaction is the prototype's. *)
Definition three_children : World :=
  mkWorld (Span.mk "t" 10 None None ∅ PrototypeFinish)
    (Some (IdleTransactionSpanRecorder.mk None [RThis; RChild 0; RChild 1; RChild 2]
             (Some IdleTransaction_popActivity) (Some IdleTransaction_pushActivity)))
    500 [] 1 None 0
    [open_span "a" 11; closed_span "b" 11 11.5; open_span "c" 13]
    12 [mkTimer 1 5000 CbBeat] 2 [] [].

(** A transaction on which the heartbeat has seen the activity set ["a"]
    unchanged for a while (stored signature ["a"], counter 2), with the
    heartbeat timer 4 and a deferred finish, timer 2, both pending. The idle
    timeout is 20 s; the clock reads 30. *)
Definition stalled : World :=
  mkWorld (Span.mk "t" 10 None None ∅ PrototypeFinish)
    (Some (IdleTransactionSpanRecorder.mk None [RThis; RChild 0]
             (Some IdleTransaction_popActivity) (Some IdleTransaction_pushActivity)))
    20000 ["a"] 4 (Some "a") 2
    [open_span "a" 11]
    30 [mkTimer 2 20000 (CbFinishIdle 30.5); mkTimer 4 5000 CbBeat] 5 [] [].

(** The transaction of [stalled] before the heartbeat has seen anything:
    activity set ["a"], nothing stored, counter 0, heartbeat timer 1. *)
Definition watching : World :=
  mkWorld (Span.mk "t" 10 None None ∅ PrototypeFinish)
    (Some (IdleTransactionSpanRecorder.mk None [RThis; RChild 0]
             (Some IdleTransaction_popActivity) (Some IdleTransaction_pushActivity)))
    20000 ["a"] 1 None 0
    [open_span "a" 11]
    15 [mkTimer 1 5000 CbBeat] 2 [] [].

(** A transaction at second 12 whose only activity is the span ["a"], which
    ran from 11 to 11.5; idle timeout 500 ms; [finish] is the prototype's. *)
Definition draining : World :=
  mkWorld (Span.mk "t" 10 None None ∅ PrototypeFinish)
    (Some (IdleTransactionSpanRecorder.mk None [RThis; RChild 0]
             (Some IdleTransaction_popActivity) (Some IdleTransaction_pushActivity)))
    500 ["a"] 1 None 0
    [closed_span "a" 11 11.5]
    12 [mkTimer 1 5000 CbBeat] 2 [] [].

(** * Further vocabulary *)

(** What a finish has no business with: the activity set, the heartbeat's
    bookkeeping, the idle timeout, the clock and the timers. *)
Definition bookkeeping (w : World) :=
  (_idleTimeout w, _activities w, _heartbeatTimer w, _prevHeartbeatString w,
   _heartbeatCounter w, clock w, timers w, next_timer w).

(** A span with an end that JavaScript takes for set: a number other than 0. *)
Definition ended (sp : Span.t) : Prop :=
  ∃ q, Span.endTimestamp sp = Some q ∧ ¬ (q == 0)%Q.

(** The transaction of [three_children] with two more spans in its recorder:
    ["z"], whose end was recorded as second 0, and a span that carries the
    transaction's own id ["t"], open and started at 14. *)
Definition odd_children : World :=
  mkWorld (Span.mk "t" 10 None None ∅ PrototypeFinish)
    (Some (IdleTransactionSpanRecorder.mk None
             [RThis; RChild 0; RChild 1; RChild 2; RChild 3; RChild 4]
             (Some IdleTransaction_popActivity) (Some IdleTransaction_pushActivity)))
    500 [] 1 None 0
    [open_span "a" 11; closed_span "b" 11 11.5; open_span "c" 13;
     closed_span "z" 11 0; open_span "t" 14]
    12 [mkTimer 1 5000 CbBeat] 2 [] [].

(** [n] heartbeat ticks in a row, nothing else happening in between. *)
Fixpoint beats (fuel : nat) (n : nat) : M unit :=
  match n with
  | O => ret tt
  | S n' => _beat fuel ;;; beats fuel n'
  end.

(** ** Histories

    What can happen to a transaction between its construction and any later
    moment: the host fires a pending timer or moves the clock; the program
    creates a span, hands a span to the recorder, calls [finish] on a span or
    on the transaction, calls [initSpanRecorder]; the activity tracker is
    called. An exception ends the call in which it is thrown, and the world
    stays as that call left it. *)
Inductive event :=
  | Fire (id : nat)
  | Advance (now : Q)
  | Create (sp : Span.t)
  | Add (span : ref)
  | Finish (span : ref) (endTimestamp : option Q)
  | Init (maxlen : option nat)
  | PushActivity (spanId : string)
  | PopActivity (spanId : string).

Definition happen (fuel : nat) (ev : event) : M unit :=
  match ev with
  | Fire id => fire fuel id
  | Advance now => advance now
  | Create sp => modify (λ w, set_heap (heap w ++ [sp])%list w)
  | Add span => add span
  | Finish span endTimestamp => Span_finish fuel span endTimestamp
  | Init maxlen => initSpanRecorder maxlen
  | PushActivity spanId => _pushActivity ThisTransaction spanId
  | PopActivity spanId => _popActivity ThisTransaction spanId
  end.

Fixpoint play (fuel : nat) (history : list event) (w : World) : World :=
  match history with
  | [] => w
  | ev :: history' => play fuel history' (world_of (happen fuel ev w))
  end.

Definition is_beat (t : Timer) : bool :=
  match timer_callback_of t with
  | CbBeat => true
  | CbFinishIdle _ => false
  end.

(** The timer handles are distinct and below the next handle, and a pending
    heartbeat timer is the one whose handle the transaction holds. *)
Definition one_heartbeat (w : World) : Prop :=
  NoDup (timer_id <$> timers w)
  ∧ Forall (λ t, (timer_id t < next_timer w)%nat) (timers w)
  ∧ Forall (λ t, is_beat t = true → timer_id t = _heartbeatTimer w) (timers w).

(** The property [finish] of the transaction holds the arrow function of
    [IdleTransactionSpanRecorder.add]. *)
Definition patched (w : World) : Prop :=
  ∃ pop, Span.finish (self w) = PatchedFinish pop.

(** Between [w] and [w'] the transaction was not delivered and got no end,
    and its [finish] is still patched. *)
Definition undelivered (w w' : World) : Prop :=
  patched w'
  ∧ sink w' = sink w
  ∧ Span.endTimestamp (self w') = Span.endTimestamp (self w).

(** ** Deliveries *)

(** Between [w] and [w'] nothing was handed to the sink and the end of the
    transaction is as it was. *)
Definition quiet (w w' : World) : Prop :=
  sink w' = sink w
  ∧ Span.endTimestamp (self w') = Span.endTimestamp (self w).

(** The sink has received the transaction at most once, and not at all
    while the transaction has no end. *)
Definition delivered_once (w : World) : Prop :=
  (length (sink w) ≤ 1)%nat
  ∧ (Span.endTimestamp (self w) = None → sink w = []).

(** The tick that calls [_finishIdleTransaction] (lines 80-89): it finds a
    non-empty activity set with the stored signature and the counter at 2
    or more. *)
Definition stall_tick (w : World) : bool :=
  match _activities w with
  | [] => false
  | first :: rest =>
      same_string (reduce_concat first rest) (_prevHeartbeatString w)
      && (2 <=? _heartbeatCounter w)%nat
  end.

(** The next tick is pending, 5000 ms ahead, under the handle the
    transaction holds. *)
Definition armed (w : World) : Prop :=
  mkTimer (_heartbeatTimer w) 5000 CbBeat ∈ timers w.

(** ** Transactions with a history

    Worlds reached from [new_transaction], the transaction ["t"] created at
    second 10 with the default idle timeout, by the events listed. The stack
    admits 1000 nested calls of [finish]. *)

(** After [initSpanRecorder()], [_popActivity] finds the activity set empty
    at second 10 and again at 10.3: timers 2 and 3, deferred finishes with
    the ends 10.5 and 10.8. A span ["a"] starts at 10.2 and is handed to the
    recorder. Timer 2 fires at 10.5. A span ["b"] starts at 10.6 and is
    handed to the recorder. *)
Definition drained_twice : World :=
  play 1000
    [Init None; PopActivity "a";
     Advance 10.2; Create (open_span "a" 10.2); Add (RChild 0);
     Advance 10.3; PopActivity "a";
     Advance 10.5; Fire 2;
     Advance 10.6; Create (open_span "b" 10.6); Add (RChild 1)]
    new_transaction.

(** [_popActivity] finds the activity set empty at second 10 (timer 2, end
    10.5) on the transaction that has no recorder yet. *)
Definition drained_bare : World :=
  play 1000 [PopActivity "a"; Advance 10.5] new_transaction.

(** What follows once timer 2 has fired on [drained_bare]:
    [initSpanRecorder()]; a span ["b"] starts at 10.6 and is handed to the
    recorder; [_popActivity] finds the activity set empty at 10.6 (timer 3,
    end 11.1); the clock reaches 11.1. *)
Definition recorder_comes_late : list event :=
  [Init None; Advance 10.6; Create (open_span "b" 10.6); Add (RChild 0);
   PopActivity "a"; Advance 11.1].

(** After [initSpanRecorder()], [_popActivity] finds the activity set empty
    at second 10 (timer 2, end 10.5); the clock reaches 10.5. *)
Definition drained : World :=
  play 1000 [Init None; PopActivity "a"; Advance 10.5] new_transaction.

(** On the transaction without a recorder the activity ["a"] is pushed, and
    the heartbeat has seen it at the seconds 15, 20 and 25 (timers 1, 2 and
    3); timer 4 is pending and the clock reads 30. *)
Definition stalled_bare : World :=
  play 1000
    [PushActivity "a"; Advance 15; Fire 1; Advance 20; Fire 2;
     Advance 25; Fire 3; Advance 30]
    new_transaction.

(** The same on the transaction that went through [initSpanRecorder()]. *)
Definition stalled_recording : World :=
  play 1000
    [Init None; PushActivity "a"; Advance 15; Fire 1; Advance 20; Fire 2;
     Advance 25; Fire 3; Advance 30]
    new_transaction.

(** * [BrowserTracing]: the event processor ([browsertracing.ts], lines 140-171)

    The event type comes from [@sentry/types]; of an event the processor
    reads [timestamp], [start_timestamp], [type] and [contexts.trace] and
    writes [contexts.trace] and [tags]. A context is an object; its
    [status] is kept apart from its other fields. *)
Record Context := mkContext {
  context_status : option SpanStatus;
  context_fields : gmap string string
}.

Module Event.
Record t := mk {
  timestamp : option Q;
  start_timestamp : option Q;
  type : option string;
  contexts : option (gmap string Context);
  tags : option (gmap string string)
}.
End Event.

(** A number as a condition: [undefined] and [0] are false. *)
Definition truthy (x : option Q) : bool :=
  match x with
  | None => false
  | Some q => negb (Qeq_bool q 0)
  end.

(** [event.timestamp && event.start_timestamp && (event.timestamp -
    event.start_timestamp > maxTransactionDuration || event.timestamp -
    event.start_timestamp < 0)], as a condition. *)
Definition isOutdatedTransaction (maxTransactionDuration : Q) (event : Event.t) : bool :=
  truthy (Event.timestamp event)
  && truthy (Event.start_timestamp event)
  && match Event.timestamp event, Event.start_timestamp event with
     | Some t, Some s =>
         Qlt_bool maxTransactionDuration (t - s) || Qlt_bool (t - s) 0
     | _, _ => false
     end.

(** [{ ...event.contexts.trace, status: SpanStatus.DeadlineExceeded }]. *)
Definition exceeded (trace : Context) : Context :=
  mkContext (Some DeadlineExceeded) (context_fields trace).

(** The body of the [if] at lines 158-167 of [browsertracing.ts]. *)
Definition mark_exceeded (event : Event.t) : Event.t :=
  match Event.contexts event with
  | Some contexts =>
      match contexts !! "trace" with
      | Some trace =>
          Event.mk (Event.timestamp event) (Event.start_timestamp event) (Event.type event)
            (Some (<["trace" := exceeded trace]> contexts))
            (Some (<["maxTransactionDurationExceeded" := "true"]>
                     (default ∅ (Event.tags event))))
      | None => event
      end
  | None => event
  end.

(** The processor: [installed] tells whether
    [getCurrentHub().getIntegration(BrowserTracing)] finds the integration,
    [maxTransactionDuration] is the option of that name (seconds). It
    returns the event, and whether it logged that the transaction maxed
    out. *)
Definition eventProcessor (installed : bool) (maxTransactionDuration : Q)
    (event : Event.t) : Event.t * bool :=
  if negb installed then (event, false)
  else if negb (Qeq_bool maxTransactionDuration 0)
          && bool_decide (Event.type event = Some "transaction")
          && isOutdatedTransaction maxTransactionDuration event
       then (mark_exceeded event, true)
       else (event, false).

(** A property of an event's [contexts] and a tag, [undefined] included. *)
Definition context_of (event : Event.t) (key : string) : option Context :=
  Event.contexts event ≫= (λ contexts, contexts !! key).

Definition tag_of (event : Event.t) (key : string) : option string :=
  Event.tags event ≫= (λ tags, tags !! key).

(** A transaction event of 700 seconds with a trace context and one tag. *)
Definition long_event : Event.t :=
  Event.mk (Some 1700%Q) (Some 1000%Q) (Some "transaction")
    (Some {["trace" := mkContext (Some Ok) {["op" := "pageload"]}]})
    (Some {["release" := "1.0"]}).

(** * [TracingRouter] ([router.ts], lines 58-125)

    The router starts idle transactions through the hub and finishes the
    running one when the location changes. The hub is outside the sources:
    the model keeps the calls made to it, and a transaction it returns is a
    new handle. *)
Inductive hub_call :=
  | StartTransaction (name op : string) (trimEnd : bool) (idleTimeout : Q) (handle : nat)
  | SetSpan (handle : nat)
  | FinishTransaction (handle : nat) (endTimestamp : Q).

Module TracingRouter.
(** [options: Partial<TracingRouterOptions>]: a field may be missing. *)
Record Options := mkOptions {
  startTransactionOnLocationChange : option bool;
  startTransactionOnPageLoad : option bool;
  beforeNavigate : option (string → option string)
}.

(** The router, and what it sees of the page: [global.location] (its
    pathname, when there is a location), whether a hub was given, the
    clock, the calls made so far and the next handle of the hub. *)
Record t := mk {
  options : Options;
  _activeTransaction : option nat;
  location : option string;
  hub : bool;
  now : Q;
  calls : list hub_call;
  next_handle : nat
}.
End TracingRouter.

Definition with_activeTransaction (x : option nat) (r : TracingRouter.t) : TracingRouter.t :=
  TracingRouter.mk (TracingRouter.options r) x (TracingRouter.location r)
    (TracingRouter.hub r) (TracingRouter.now r) (TracingRouter.calls r)
    (TracingRouter.next_handle r).

Definition with_calls (more : list hub_call) (r : TracingRouter.t) : TracingRouter.t :=
  TracingRouter.mk (TracingRouter.options r) (TracingRouter._activeTransaction r)
    (TracingRouter.location r) (TracingRouter.hub r) (TracingRouter.now r)
    (TracingRouter.calls r ++ more)%list (TracingRouter.next_handle r).

(** A boolean option as a condition. *)
Definition enabled (x : option bool) : bool := default false x.

(** [_startIdleTransaction(hub, op, idleTimeout)] (lines 71-100): the
    transaction it returns, and the router after the call. *)
Definition _startIdleTransaction (op : string) (idleTimeout : Q) (r : TracingRouter.t)
    : option nat * TracingRouter.t :=
  match TracingRouter.location r, TracingRouter.hub r with
  | Some pathname, true =>
      let name :=
        match TracingRouter.beforeNavigate (TracingRouter.options r) with
        | Some f => f pathname
        | None => Some pathname
        end in
      match name with
      | None => (None, r)
      | Some name =>
          let handle := TracingRouter.next_handle r in
          (Some handle,
           TracingRouter.mk (TracingRouter.options r) (Some handle)
             (TracingRouter.location r) (TracingRouter.hub r) (TracingRouter.now r)
             (TracingRouter.calls r ++
              [StartTransaction name op true idleTimeout handle; SetSpan handle])%list
             (S handle))
      end
  | _, _ => (None, r)
  end.

(** The callback that [init] registers for history changes (lines 112-121). *)
Definition on_history (idleTimeout : Q) (r : TracingRouter.t) : TracingRouter.t :=
  if enabled (TracingRouter.startTransactionOnLocationChange (TracingRouter.options r))
  then
    let r1 :=
      match TracingRouter._activeTransaction r with
      | Some handle => with_calls [FinishTransaction handle (TracingRouter.now r)] r
      | None => r
      end in
    let '(started, r2) := _startIdleTransaction "navigation" idleTimeout r1 in
    with_activeTransaction started r2
  else r.

(** [init(hub, idleTimeout)] (lines 107-123), up to the registration of the
    callback. *)
Definition init (idleTimeout : Q) (r : TracingRouter.t) : TracingRouter.t :=
  if enabled (TracingRouter.startTransactionOnPageLoad (TracingRouter.options r))
  then
    let '(started, r1) := _startIdleTransaction "pageload" idleTimeout r in
    with_activeTransaction started r1
  else r.

(** The page moves to another location at some time, and the callback
    runs. *)
Definition navigate (idleTimeout : Q) (r : TracingRouter.t) (to : option string * Q)
    : TracingRouter.t :=
  on_history idleTimeout
    (TracingRouter.mk (TracingRouter.options r) (TracingRouter._activeTransaction r)
       (fst to) (TracingRouter.hub r) (snd to) (TracingRouter.calls r)
       (TracingRouter.next_handle r)).

(** A router just constructed, on a page. *)
Definition new_TracingRouter (options : TracingRouter.Options)
    (location : option string) (hub : bool) (now : Q) : TracingRouter.t :=
  TracingRouter.mk options None location hub now [] 0.

Definition started (calls : list hub_call) : list nat :=
  omap (λ c, match c with StartTransaction _ _ _ _ h => Some h | _ => None end) calls.

Definition finished (calls : list hub_call) : list nat :=
  omap (λ c, match c with FinishTransaction h _ => Some h | _ => None end) calls.

(** Every transaction the hub has handed out is the running one or was
    finished, once, and never both. *)
Definition router_inv (r : TracingRouter.t) : Prop :=
  NoDup (finished (TracingRouter.calls r))
  ∧ (∀ h, h ∈ finished (TracingRouter.calls r) → (h < TracingRouter.next_handle r)%nat)
  ∧ (∀ h, h ∈ started (TracingRouter.calls r) ↔ (h < TracingRouter.next_handle r)%nat)
  ∧ (∀ h, (h < TracingRouter.next_handle r)%nat →
       (h ∈ finished (TracingRouter.calls r) ↔ TracingRouter._activeTransaction r ≠ Some h))
  ∧ (∀ h, TracingRouter._activeTransaction r = Some h →
       (h < TracingRouter.next_handle r)%nat).

(** * Properties *)

Ltac run := unfold bind, ret, gets, modify, when, throw; simpl.

(** Closed statements about concrete worlds: open the conjunctions and the
    existentials and evaluate both sides of each equation, one after the
    other, so that a world is known before the next equation reads it. *)
Ltac evaluate :=
  lazymatch goal with
  | |- _ ∧ _ => split; [evaluate|evaluate]
  | |- ∃ _, _ => eexists; evaluate
  | |- _ => vm_compute; reflexivity
  end.

Local Arguments activities_delete : simpl never.
Local Arguments is_active : simpl never.
Local Arguments same_string : simpl never.
Local Arguments reduce_concat : simpl never.

(** ** The activity tracker *)

Lemma activities_delete_absent (spanId : string) (activities : list string) :
  is_active spanId activities = false →
  activities_delete spanId activities = activities.
Proof.
  unfold is_active, activities_delete. intros Hno.
  apply bool_decide_eq_false in Hno.
  induction activities as [|k ks IH]; [reflexivity|].
  rewrite filter_cons. destruct (decide (k ≠ spanId)) as [Hne|Heq].
  - f_equal. apply IH. intros Hin. apply Hno. now right.
  - exfalso. apply Hno. apply dec_stable in Heq. subst. left.
Qed.

Lemma popActivity_spec (spanId : string) (w : World) :
  ∃ w', _popActivity ThisTransaction spanId w = Done tt w'
    ∧ _activities w' = activities_delete spanId (_activities w)
    ∧ timers w' =
        (timers w ++
         if bool_decide (activities_delete spanId (_activities w) = [])
         then [mkTimer (next_timer w) (_idleTimeout w)
                 (CbFinishIdle (clock w + _idleTimeout w / 1000)%Q)]
         else [])%list
    ∧ _idleTimeout w' = _idleTimeout w.
Proof.
  unfold _popActivity. run.
  destruct (is_active spanId (_activities w)) eqn:Hact; simpl.
  - destruct (activities_delete spanId (_activities w)) as [|k ks] eqn:Hdel; simpl.
    + unfold setTimeout. simpl. eexists. split; [reflexivity|]. simpl. auto.
    + eexists. split; [reflexivity|]. simpl. rewrite app_nil_r. auto.
  - rewrite (activities_delete_absent _ _ Hact).
    destruct (_activities w) as [|k ks] eqn:Hw; simpl.
    + unfold setTimeout. simpl. eexists. split; [reflexivity|]. simpl. auto.
    + eexists. split; [reflexivity|]. simpl. rewrite app_nil_r. auto.
Qed.

(** C10. Every [_popActivity(spanId)] on the transaction returns, leaves the
    activity set without [spanId], and schedules a deferred finish exactly
    when the set is empty after the call, whether or not an id was removed:
    the new timer has delay [_idleTimeout] and carries
    [timestampWithMs() + _idleTimeout / 1000]. Hence [n] pops against an
    empty set leave [n] more pending deferred finishes. *)
Theorem popActivity_schedules_on_empty :
  (∀ (spanId : string) (w : World),
     ∃ w', _popActivity ThisTransaction spanId w = Done tt w'
       ∧ _activities w' = activities_delete spanId (_activities w)
       ∧ timers w' =
           (timers w ++
            if bool_decide (_activities w' = [])
            then [mkTimer (next_timer w) (_idleTimeout w)
                    (CbFinishIdle (clock w + _idleTimeout w / 1000)%Q)]
            else [])%list)
  ∧ (∀ (n : nat) (spanId : string) (w : World),
       _activities w = [] →
       ∃ w' added, repeat_pop n spanId w = Done tt w'
         ∧ _activities w' = []
         ∧ timers w' = (timers w ++ added)%list
         ∧ length added = n
         ∧ Forall (is_idle_finish (_idleTimeout w)) added).
Proof.
  split.
  - intros spanId w.
    destruct (popActivity_spec spanId w) as (w' & Hrun & Hact & Htim & _).
    exists w'. rewrite Hact. auto.
  - induction n as [|n IH]; intros spanId w Hempty.
    + exists w, []. simpl. rewrite app_nil_r. repeat split; auto.
    + destruct (popActivity_spec spanId w) as (w1 & Hrun & Hact & Htim & Hto).
      rewrite Hempty in Hact, Htim. simpl in Hact, Htim.
      destruct (IH spanId w1 Hact) as (w' & added & Hrun' & Hact' & Htim' & Hlen & Hall).
      exists w'. eexists (_ :: added).
      cbn [repeat_pop]. unfold bind at 1. rewrite Hrun. split; [exact Hrun'|].
      split; [exact Hact'|]. split.
      * rewrite Htim', Htim, <- app_assoc. reflexivity.
      * split; [simpl; now rewrite Hlen|].
        constructor.
        -- split; [reflexivity|]. eexists. reflexivity.
        -- now rewrite <- Hto.
Qed.

(** Two pops of an id that was never active, on a new transaction. *)
Lemma popActivity_schedules_on_empty_witness :
  _activities new_transaction = []
  ∧ ∃ w' added, repeat_pop 2 "a" new_transaction = Done tt w'
      ∧ _activities w' = []
      ∧ timers w' = (timers new_transaction ++ added)%list
      ∧ length added = 2%nat
      ∧ Forall (is_idle_finish (_idleTimeout new_transaction)) added.
Proof.
  split; [reflexivity|].
  apply (proj2 popActivity_schedules_on_empty 2%nat "a" new_transaction). reflexivity.
Defined.

(** ** Calling a patched [finish] *)

Lemma deref_read (r : ref) (w : World) (sp : Span.t) :
  read w r = Some sp → deref r w = Done sp w.
Proof. unfold deref. now intros ->. Qed.

Lemma read_store_same (r : ref) (sp sp0 : Span.t) (w : World) :
  read w r = Some sp0 → read (store r sp w) r = Some sp.
Proof.
  destruct r as [|n]; simpl; [reflexivity|].
  intros Hsome. apply list_lookup_insert_eq. now apply lookup_lt_Some in Hsome.
Qed.

(** Whatever the stack admits, a call through a patched [finish] ends in
    [RangeError], and nothing has changed when it does. *)
Lemma Span_finish_patched (fuel : nat) (span : ref) (endTimestamp : option Q)
    (w : World) (sp : Span.t) (pop : option callback) :
  read w span = Some sp →
  Span.finish sp = PatchedFinish pop →
  Span_finish fuel span endTimestamp w = Thrown RangeError w.
Proof.
  intros Hread Hpatched.
  induction fuel as [|fuel IH]; [reflexivity|].
  cbn [Span_finish]. unfold bind at 1. rewrite (deref_read _ _ _ Hread), Hpatched.
  unfold bind. now rewrite IH.
Qed.

(** With the prototype's method in place one frame is enough. *)
Lemma Span_finish_prototype_this (fuel : nat) (endTimestamp : option Q) (w : World) :
  Span.finish (self w) = PrototypeFinish →
  Span_finish (S fuel) RThis endTimestamp w = Transaction_prototype_finish endTimestamp w.
Proof.
  intros Hproto. cbn [Span_finish]. unfold bind at 1, deref. simpl.
  now rewrite Hproto.
Qed.

(** The callbacks of the recorder are the unbound methods: called on the
    recorder they throw before touching anything. *)
Lemma invoke_on_recorder (cb : callback) (id : string) (w : World) :
  invoke cb ThisRecorder id w = Thrown TypeError w.
Proof. now destruct cb. Qed.

(** The world [add] leaves behind, whether or not its callback throws. *)
Lemma add_world (span : ref) (w : World) (rec : Recorder) (sp : Span.t) :
  spanRecorder w = Some rec →
  read w span = Some sp →
  world_of (add span w) =
    set_spanRecorder (Some (SpanRecorder_add span rec))
      (store span
         (Span.with_finish (PatchedFinish (IdleTransactionSpanRecorder._popActivity rec)) sp)
         w).
Proof.
  intros Hrec Hread. unfold add, update. run. rewrite Hrec. simpl.
  rewrite (deref_read _ _ _ Hread). simpl.
  destruct (IdleTransactionSpanRecorder._pushActivity rec) as [cb|]; [|reflexivity].
  unfold deref.
  match goal with
  | |- context [match read ?w' span with _ => _ end] => destruct (read w' span)
  end; [|reflexivity].
  now rewrite invoke_on_recorder.
Qed.

Lemma add_activities (span : ref) (w : World) :
  _activities (world_of (add span w)) = _activities w.
Proof.
  unfold add, update. run.
  destruct (spanRecorder w) as [rec|]; [|reflexivity]. simpl.
  unfold deref at 1. destruct (read w span) as [sp|] eqn:Hread; [|reflexivity]. simpl.
  destruct (IdleTransactionSpanRecorder._pushActivity rec) as [cb|];
    [|destruct span; reflexivity].
  unfold deref.
  match goal with
  | |- context [match read ?w' span with _ => _ end] => destruct (read w' span)
  end.
  - rewrite invoke_on_recorder. destruct span; reflexivity.
  - destruct span; reflexivity.
Qed.

(** C3. Code defect: the arrow function that [add] stores in [span.finish]
    calls [span.finish], that is, itself. For every span handed to [add] and
    every stack bound, a later [span.finish(endTimestamp)] ends in
    [RangeError] with the world exactly as it was: the prototype's [finish]
    is never reached (the span stays open) and the activity callback never
    runs. *)
Theorem finish_of_added_span_reenters
    (fuel : nat) (span : ref) (endTimestamp : option Q)
    (w : World) (rec : Recorder) (sp : Span.t) :
  spanRecorder w = Some rec →
  read w span = Some sp →
  Span_finish fuel span endTimestamp (world_of (add span w))
  = Thrown RangeError (world_of (add span w)).
Proof.
  intros Hrec Hread. rewrite (add_world _ _ _ _ Hrec Hread).
  eapply Span_finish_patched.
  - change (read (set_spanRecorder ?r ?w') span) with (read w' span).
    eapply read_store_same, Hread.
  - reflexivity.
Qed.

Lemma finish_of_added_span_reenters_witness :
  Span_finish 1000 (RChild 0) (Some 12%Q) (world_of (add (RChild 0) recording_transaction))
  = Thrown RangeError (world_of (add (RChild 0) recording_transaction))
  ∧ (Span.endTimestamp <$> read (world_of (add (RChild 0) recording_transaction)) (RChild 0))
    = Some None.
Proof.
  split.
  - apply (finish_of_added_span_reenters 1000 (RChild 0) (Some 12%Q) recording_transaction
             (IdleTransactionSpanRecorder.mk None [RThis]
                (Some IdleTransaction_popActivity) (Some IdleTransaction_pushActivity))
             (open_span "c" 11)); vm_compute; reflexivity.
  - vm_compute. reflexivity.
Defined.

(** C2. Code defect: [initSpanRecorder] passes [this._popActivity] where the
    recorder's constructor expects [pushActivity] and [this._pushActivity]
    where it expects [popActivity], both unbound. So [add] never inserts
    into the activity set, whatever the span and the world; on the recording
    transaction the callback slots are crossed, [add] of the child ["c"]
    throws [TypeError] from the callback with ["c"] not active, and the
    child's [finish] never reaches its callback. *)
Theorem add_does_not_push :
  (∀ (span : ref) (w : World), _activities (world_of (add span w)) = _activities w)
  ∧ (IdleTransactionSpanRecorder._pushActivity <$> spanRecorder recording_transaction)
    = Some (Some IdleTransaction_popActivity)
  ∧ (IdleTransactionSpanRecorder._popActivity <$> spanRecorder recording_transaction)
    = Some (Some IdleTransaction_pushActivity)
  ∧ (∃ w', add (RChild 0) recording_transaction = Thrown TypeError w'
        ∧ (IdleTransactionSpanRecorder.spans <$> spanRecorder w') = Some [RThis; RChild 0]
        ∧ is_active "c" (_activities w') = false
        ∧ Span_finish 1000 (RChild 0) None w' = Thrown RangeError w').
Proof.
  split; [exact add_activities|].
  split; [vm_compute; reflexivity|]. split; [vm_compute; reflexivity|].
  eexists. split; [vm_compute; reflexivity|].
  split; [vm_compute; reflexivity|]. split; [vm_compute; reflexivity|].
  eapply Span_finish_patched; vm_compute; reflexivity.
Qed.

(** ** One heartbeat tick, case by case *)

Lemma pingHeartbeat_run (w : World) : _pingHeartbeat w = Done tt (pinged w).
Proof. reflexivity. Qed.

Lemma beat_empty (fuel : nat) (w : World) :
  _activities w = [] → _beat fuel w = Done tt (pinged (cleared w)).
Proof. intros Hempty. unfold _beat. run. now rewrite Hempty. Qed.

Lemma beat_changed (fuel : nat) (w : World) (first : string) (rest : list string) :
  _activities w = first :: rest →
  same_string (reduce_concat first rest) (_prevHeartbeatString w) = false →
  _beat fuel w =
    Done tt (pinged (set_prevHeartbeatString (Some (reduce_concat first rest))
                       (set_heartbeatCounter 0 (cleared w)))).
Proof.
  intros Hkeys Hdiff. unfold _beat. run. rewrite Hkeys. simpl. now rewrite Hdiff.
Qed.

Lemma beat_same_below (fuel : nat) (w : World) (first : string) (rest : list string) :
  _activities w = first :: rest →
  same_string (reduce_concat first rest) (_prevHeartbeatString w) = true →
  (S (_heartbeatCounter w) < 3)%nat →
  _beat fuel w =
    Done tt (pinged (set_prevHeartbeatString (Some (reduce_concat first rest))
                       (set_heartbeatCounter (S (_heartbeatCounter w)) (cleared w)))).
Proof.
  intros Hkeys Hsame Hlow. unfold _beat. run. rewrite Hkeys. simpl.
  rewrite Hsame. simpl.
  destruct (_heartbeatCounter w) as [|[|c]]; [reflexivity|reflexivity|lia].
Qed.

Lemma beat_same_alarm (fuel : nat) (w : World) (first : string) (rest : list string) :
  _activities w = first :: rest →
  same_string (reduce_concat first rest) (_prevHeartbeatString w) = true →
  (2 ≤ _heartbeatCounter w)%nat →
  _beat fuel w =
    (_finishIdleTransaction fuel (clock w) ;;;
     modify (set_prevHeartbeatString (Some (reduce_concat first rest))) ;;;
     _pingHeartbeat) (alarmed w).
Proof.
  intros Hkeys Hsame Hhigh. unfold _beat. run. rewrite Hkeys. simpl.
  rewrite Hsame. simpl.
  destruct (_heartbeatCounter w) as [|[|c]] eqn:Hc; [lia|lia|].
  unfold setStatus, setTag, update, deref, logger_log, timestampWithMs. run.
  rewrite <- Hc.
  match goal with
  | |- context [_finishIdleTransaction fuel (clock w) ?w'] =>
      change w' with (alarmed w)
  end.
  destruct (_finishIdleTransaction fuel (clock w) (alarmed w)); reflexivity.
Qed.

(** C8. A heartbeat tick that finds the activity set empty returns, leaves
    the stale counter and the stored signature as they were, and finishes
    nothing: the transaction, its recorder, the spans, the log and the sink
    are untouched; the tick only re-arms itself. *)
Theorem beat_on_empty_set_is_idle (fuel : nat) (w : World) :
  _activities w = [] →
  ∃ w', _beat fuel w = Done tt w'
    ∧ _heartbeatCounter w' = _heartbeatCounter w
    ∧ _prevHeartbeatString w' = _prevHeartbeatString w
    ∧ self w' = self w
    ∧ spanRecorder w' = spanRecorder w
    ∧ heap w' = heap w
    ∧ logged w' = logged w
    ∧ sink w' = sink w
    ∧ _activities w' = []
    ∧ Forall (λ t, timer_callback_of t = CbBeat ∨ t ∈ timers w) (timers w').
Proof.
  intros Hempty. exists (pinged (cleared w)).
  split; [now apply beat_empty|]. simpl. repeat (split; [reflexivity|]).
  split; [exact Hempty|].
  apply Forall_app. split.
  - apply Forall_forall. intros t Hin. right.
    now apply list_elem_of_filter in Hin as [_ Hin].
  - constructor; [now left|constructor].
Qed.

Lemma beat_on_empty_set_is_idle_witness :
  ∃ w', _beat 1 new_transaction = Done tt w'
    ∧ _heartbeatCounter w' = _heartbeatCounter new_transaction
    ∧ _prevHeartbeatString w' = _prevHeartbeatString new_transaction
    ∧ self w' = self new_transaction
    ∧ spanRecorder w' = spanRecorder new_transaction
    ∧ heap w' = heap new_transaction
    ∧ logged w' = logged new_transaction
    ∧ sink w' = sink new_transaction
    ∧ _activities w' = []
    ∧ Forall (λ t, timer_callback_of t = CbBeat ∨ t ∈ timers new_transaction) (timers w').
Proof. apply (beat_on_empty_set_is_idle 1 new_transaction). reflexivity. Defined.

(** ** Finishing without a span recorder *)

Lemma finishIdleTransaction_no_recorder (fuel : nat) (e : Q) (w : World) :
  spanRecorder w = None →
  _finishIdleTransaction fuel e w = Done tt (set_logged (logged w ++ [LogNoActive])%list w).
Proof. intros Hnone. unfold _finishIdleTransaction. run. now rewrite Hnone. Qed.

(** C9, as the code has it. When no span recorder was ever initialised,
    [_finishIdleTransaction] returns without throwing and without calling
    the underlying finish: its whole effect is the log entry
    ['[Tracing] No active IdleTransaction']. *)
Theorem finish_without_recorder_only_logs (fuel : nat) (endTimestamp : Q) (w : World) :
  spanRecorder w = None →
  _finishIdleTransaction fuel endTimestamp w
  = Done tt (set_logged (logged w ++ [LogNoActive])%list w).
Proof.
  intros Hnone. unfold _finishIdleTransaction, bind, gets, logger_log, modify.
  now rewrite Hnone.
Qed.

Lemma finish_without_recorder_only_logs_witness :
  spanRecorder new_transaction = None
  ∧ _finishIdleTransaction 1 10.5%Q new_transaction
    = Done tt (set_logged (logged new_transaction ++ [LogNoActive])%list new_transaction).
Proof.
  split; [reflexivity|].
  apply (finish_without_recorder_only_logs 1 10.5%Q new_transaction). reflexivity.
Defined.

(** C9 as stated fails: on a transaction whose recorder was never
    initialised the finish returns, and nothing was handed to the sink nor
    was the transaction's end set. *)
Lemma finish_without_recorder_counterexample :
  spanRecorder new_transaction = None
  ∧ ∃ w', _finishIdleTransaction 1 10.5%Q new_transaction = Done tt w'
      ∧ sink w' = []
      ∧ Span.endTimestamp (self w') = None
      ∧ logged w' = [LogNoActive].
Proof. evaluate. Qed.

(** ** Reconciliation of the recorded spans *)

Lemma read_store_other (r r' : ref) (sp : Span.t) (w : World) :
  r' ≠ r → read (store r sp w) r' = read w r'.
Proof.
  destruct r as [|n], r' as [|m]; simpl; intros Hne; try congruence.
  apply list_lookup_insert_ne. congruence.
Qed.

Lemma read_set_logged (l : list log_entry) (w : World) (r : ref) :
  read (set_logged l w) r = read w r.
Proof. now destruct r. Qed.

Lemma is_own_self (w : World) : is_own w (self w) = true.
Proof. apply String.eqb_refl. Qed.

Lemma cancel_idempotent (e : Q) (sp : Span.t) : cancel e (cancel e sp) = cancel e sp.
Proof.
  unfold cancel. destruct (not_endTimestamp (Span.endTimestamp sp)) eqn:Hopen; simpl.
  - destruct (Qeq_bool e 0); reflexivity.
  - now rewrite Hopen.
Qed.

Lemma cancel_spanId (e : Q) (sp : Span.t) : Span.spanId (cancel e sp) = Span.spanId sp.
Proof. unfold cancel. now destruct (not_endTimestamp _). Qed.

Lemma cancel_startTimestamp (e : Q) (sp : Span.t) :
  Span.startTimestamp (cancel e sp) = Span.startTimestamp sp.
Proof. unfold cancel. now destruct (not_endTimestamp _). Qed.

Lemma cancel_open (e : Q) (sp : Span.t) :
  Span.endTimestamp sp = None →
  Span.endTimestamp (cancel e sp) = Some e ∧ Span.status (cancel e sp) = Some Cancelled.
Proof. unfold cancel. intros ->. simpl. auto. Qed.

(** One visit of the filter's callback. *)
Lemma keep_span_run (e : Q) (r : ref) (w : World) (sp : Span.t) :
  read w r = Some sp →
  ∃ w', keep_span e r w = Done (is_own w sp || Qlt_bool (Span.startTimestamp sp) e) w'
    ∧ frame w' = frame w
    ∧ read w' r = Some (if is_own w sp then sp else cancel e sp)
    ∧ ∀ r', r' ≠ r → read w' r' = read w r'.
Proof.
  intros Hread. unfold keep_span. unfold bind at 1.
  rewrite (deref_read _ _ _ Hread). run. fold (is_own w sp).
  destruct (is_own w sp) eqn:Hown; simpl.
  { exists w. auto. }
  destruct r as [|n].
  { simpl in Hread. injection Hread as <-. now rewrite is_own_self in Hown. }
  simpl in Hread.
  assert (Hlt : (n < length (heap w))%nat) by now apply lookup_lt_Some in Hread.
  unfold cancel.
  destruct (not_endTimestamp (Span.endTimestamp sp)) eqn:Hopen; simpl.
  - unfold update, setStatus, update, logger_log, deref. run.
    rewrite Hread. simpl. rewrite list_lookup_insert_eq by exact Hlt. simpl.
    rewrite list_lookup_insert_eq by (now rewrite length_insert). simpl.
    rewrite list_insert_insert_eq.
    destruct (Qlt_bool (Span.startTimestamp sp) e); simpl;
      (eexists; split; [reflexivity|]; split; [reflexivity|]; simpl; split;
       [now apply list_lookup_insert_eq
       |intros [|m] Hne; simpl; [reflexivity|apply list_lookup_insert_ne; congruence]]).
  - unfold deref. simpl. rewrite Hread. simpl.
    destruct (Qlt_bool (Span.startTimestamp sp) e); simpl;
      (eexists; split; [reflexivity|]; split; [reflexivity|]; simpl; split;
       [exact Hread|intros [|m] Hne; reflexivity]).
Qed.

Lemma frame_self (w w' : World) : frame w' = frame w → self w' = self w.
Proof. unfold frame. congruence. Qed.

Lemma frame_spanRecorder (w w' : World) :
  frame w' = frame w → spanRecorder w' = spanRecorder w.
Proof. unfold frame. congruence. Qed.

Lemma frame_sink (w w' : World) : frame w' = frame w → sink w' = sink w.
Proof. unfold frame. congruence. Qed.

Lemma frame_clock (w w' : World) : frame w' = frame w → clock w' = clock w.
Proof. unfold frame. congruence. Qed.

Lemma is_own_frame (w w' : World) (sp : Span.t) :
  frame w' = frame w → is_own w' sp = is_own w sp.
Proof. intros Hframe. unfold is_own. now rewrite (frame_self _ _ Hframe). Qed.

Lemma is_own_cancel (w : World) (e : Q) (sp : Span.t) :
  is_own w (cancel e sp) = is_own w sp.
Proof. unfold is_own. now rewrite cancel_spanId. Qed.

Lemma reconciled_refl (e : Q) (w : World) : reconciled e w w.
Proof. split; auto. Qed.

Lemma reconciled_trans (e : Q) (w1 w2 w3 : World) :
  reconciled e w1 w2 → reconciled e w2 w3 → reconciled e w1 w3.
Proof.
  intros [Hf12 H12] [Hf23 H23]. split; [congruence|].
  intros r sp Hread. destruct (H12 r sp Hread) as [Hsame|[Hown Hcan]].
  - destruct (H23 r sp Hsame) as [Hsame'|[Hown' Hcan']]; [now left|].
    right. split; [|exact Hcan']. now rewrite <- (is_own_frame _ _ _ Hf12).
  - right. split; [exact Hown|].
    destruct (H23 r _ Hcan) as [Hsame'|[_ Hcan']]; [exact Hsame'|].
    now rewrite cancel_idempotent in Hcan'.
Qed.

Lemma kept_reconciled (e : Q) (w w' : World) (r : ref) :
  reconciled e w w' → is_Some (read w r) → kept w' e r = kept w e r.
Proof.
  intros [Hframe Hreads] [sp Hread]. unfold kept. rewrite Hread.
  destruct (Hreads r sp Hread) as [->|[_ ->]].
  - now rewrite (is_own_frame _ _ _ Hframe).
  - now rewrite (is_own_frame _ _ _ Hframe), is_own_cancel, cancel_startTimestamp.
Qed.

Lemma filter_ext_in {A} (P Q : A → Prop) `{∀ x, Decision (P x)} `{∀ x, Decision (Q x)}
    (l : list A) :
  (∀ x, x ∈ l → P x ↔ Q x) → filter P l = filter Q l.
Proof.
  induction l as [|x l IH]; intros Hext; [reflexivity|].
  rewrite !filter_cons.
  assert (Hx : P x ↔ Q x) by (apply Hext; left).
  rewrite IH by (intros y Hy; apply Hext; now right).
  destruct (decide (P x)), (decide (Q x)); tauto.
Qed.

(** The whole filter: it returns the references the verdict keeps, in
    order, and has cancelled every visited span that is not the
    transaction's and was not closed. *)
Lemma filterM_keep_span (e : Q) (l : list ref) (w : World) :
  (∀ r, r ∈ l → is_Some (read w r)) →
  ∃ w', filterM (keep_span e) l w = Done (filter (λ r, kept w e r) l) w'
    ∧ reconciled e w w'
    ∧ ∀ r sp, r ∈ l → read w r = Some sp →
        read w' r = Some (if is_own w sp then sp else cancel e sp).
Proof.
  revert w. induction l as [|x l IH]; intros w Hall.
  { exists w. split; [reflexivity|]. split; [apply reconciled_refl|].
    intros r sp Hin. inversion Hin. }
  destruct (Hall x) as [spx Hx]; [left|].
  destruct (keep_span_run e x w spx Hx) as (w1 & Hrun & Hframe & Hrx & Hothers).
  assert (Hstep : reconciled e w w1).
  { split; [exact Hframe|]. intros r sp Hread.
    destruct (decide (r = x)) as [->|Hne].
    - rewrite Hx in Hread. injection Hread as <-. rewrite Hrx.
      destruct (is_own w spx); auto.
    - left. now rewrite Hothers. }
  destruct (IH w1) as (w' & Hrest & Hrec & Hreads).
  { intros r Hin. destruct (Hall r) as [sp Hread]; [now right|].
    destruct (proj2 Hstep r sp Hread) as [->|[_ ->]]; eauto. }
  exists w'. split; [|split].
  - cbn [filterM]. unfold bind at 1. rewrite Hrun. unfold bind at 1. rewrite Hrest.
    unfold ret. f_equal. rewrite filter_cons.
    rewrite (filter_ext_in (λ r, kept w e r) (λ r, kept w1 e r) l).
    2:{ intros r Hin. rewrite (kept_reconciled e w w1 r Hstep); [reflexivity|].
        apply Hall. now right. }
    assert (Hk : kept w e x = is_own w spx || Qlt_bool (Span.startTimestamp spx) e)
      by (unfold kept; now rewrite Hx).
    rewrite Hk.
    destruct (is_own w spx || Qlt_bool (Span.startTimestamp spx) e); reflexivity.
  - eapply reconciled_trans; eassumption.
  - intros r sp Hin Hread. apply elem_of_cons in Hin as [->|Hin].
    + rewrite Hx in Hread. injection Hread as <-.
      destruct (proj2 Hrec x _ Hrx) as [Hsame|[Hown Hcan]]; [exact Hsame|].
      rewrite (is_own_frame _ _ _ Hframe) in Hown.
      destruct (is_own w spx) eqn:Hownx; [congruence|].
      now rewrite cancel_idempotent in Hcan.
    + destruct (proj2 Hstep r sp Hread) as [Hsame|[Hown Hcan]].
      * rewrite (Hreads r sp Hin Hsame). now rewrite (is_own_frame _ _ _ Hframe).
      * rewrite (Hreads r _ Hin Hcan).
        rewrite (is_own_frame _ _ _ Hframe), is_own_cancel, Hown.
        now rewrite cancel_idempotent.
Qed.

Lemma Qlt_bool_true (x y : Q) : Qlt_bool x y = true ↔ (x < y)%Q.
Proof.
  unfold Qlt_bool. rewrite negb_true_iff. split.
  - intros Hle. apply Qnot_le_lt. intros Hyx.
    apply Qle_bool_iff in Hyx. congruence.
  - intros Hlt. destruct (Qle_bool y x) eqn:Hle; [|reflexivity].
    apply Qle_bool_iff in Hle. now apply Qlt_not_le in Hlt.
Qed.

Lemma Qlt_bool_false (x y : Q) : Qlt_bool x y = false ↔ (y <= x)%Q.
Proof.
  unfold Qlt_bool. rewrite negb_false_iff. apply Qle_bool_iff.
Qed.

Lemma finishIdleTransaction_run (fuel : nat) (e : Q) (w : World) (rec : Recorder) :
  spanRecorder w = Some rec →
  well_formed w →
  ∃ w1, reconciled e w w1
    ∧ (∀ r sp, r ∈ IdleTransactionSpanRecorder.spans rec → read w r = Some sp →
         read w1 r = Some (if is_own w sp then sp else cancel e sp))
    ∧ _finishIdleTransaction fuel e w
      = Span_finish fuel RThis None
          (flushing (filter (λ r, kept w e r) (IdleTransactionSpanRecorder.spans rec)) w1).
Proof.
  intros Hrec Hwf.
  destruct (filterM_keep_span e (IdleTransactionSpanRecorder.spans rec) w)
    as (w1 & Hrun & Hreconciled & Hreads).
  { unfold well_formed, recorded in Hwf. rewrite Hrec, Forall_forall in Hwf.
    exact Hwf. }
  exists w1. split; [exact Hreconciled|]. split; [exact Hreads|].
  unfold _finishIdleTransaction. unfold bind at 1, gets. rewrite Hrec.
  unfold bind at 1. rewrite Hrun. reflexivity.
Qed.

(** The prototype's [finish] on a span: it closes an open span and leaves
    any other as it is. *)
Lemma Span_prototype_finish_run (r : ref) (arg : option Q) (w : World) (sp : Span.t) :
  read w r = Some sp →
  Span_prototype_finish r arg w =
    Done tt
      match Span.endTimestamp sp with
      | Some _ => w
      | None => store r (Span.with_endTimestamp (Some (default (clock w) arg)) sp) w
      end.
Proof.
  intros Hread. unfold Span_prototype_finish, bind at 1.
  rewrite (deref_read _ _ _ Hread).
  destruct (Span.endTimestamp sp); [reflexivity|].
  unfold update, timestampWithMs. run. now rewrite (deref_read _ _ _ Hread).
Qed.

(** The underlying finish returns, whatever the transaction's state. *)
Lemma Transaction_prototype_finish_run (arg : option Q) (w : World) :
  Transaction_prototype_finish arg w = Done tt (flushed arg w).
Proof.
  unfold Transaction_prototype_finish, flushed, bind at 1, gets.
  destruct (Span.endTimestamp (self w)) as [q|] eqn:Hend; [reflexivity|].
  unfold Span_prototype_finish, update, timestampWithMs, deref. run.
  now rewrite Hend.
Qed.

(** What [this.finish()] leaves of the world, for either content of the
    property [finish] and any stack bound. *)
Lemma Span_finish_this (fuel : nat) (arg : option Q) (w : World) :
  (Span_finish fuel RThis arg w = Thrown RangeError w)
  ∨ (Span.finish (self w) = PrototypeFinish
     ∧ Span_finish fuel RThis arg w = Done tt (flushed arg w)).
Proof.
  destruct fuel as [|fuel]; [now left|].
  destruct (Span.finish (self w)) as [|pop] eqn:Himpl.
  - right. split; [reflexivity|].
    rewrite Span_finish_prototype_this by exact Himpl.
    apply Transaction_prototype_finish_run.
  - left. eapply Span_finish_patched; [reflexivity|exact Himpl].
Qed.

Lemma flushed_frame (arg : option Q) (w : World) :
  spanRecorder (flushed arg w) = spanRecorder w
  ∧ heap (flushed arg w) = heap w
  ∧ Span.finish (self (flushed arg w)) = Span.finish (self w)
  ∧ logged (flushed arg w) = logged w.
Proof. unfold flushed. destruct (Span.endTimestamp (self w)); simpl; auto. Qed.

Lemma Span_finish_this_frame (fuel : nat) (arg : option Q) (w : World) :
  let w' := world_of (Span_finish fuel RThis arg w) in
  spanRecorder w' = spanRecorder w ∧ heap w' = heap w
  ∧ Span.finish (self w') = Span.finish (self w).
Proof.
  destruct (Span_finish_this fuel arg w) as [->|[_ ->]]; simpl; auto.
  destruct (flushed_frame arg w) as (? & ? & ? & _). auto.
Qed.

Lemma not_own_is_child (w : World) (r : ref) (sp : Span.t) :
  read w r = Some sp → is_own w sp = false → ∃ n, r = RChild n.
Proof.
  destruct r as [|n]; [|eauto]. simpl. intros [= <-] Hown.
  now rewrite is_own_self in Hown.
Qed.

(** C4. [_finishIdleTransaction(endTimestamp)] on a transaction with a span
    recorder: the recorder afterwards holds, in order, the references the
    verdict keeps. Every entry with the transaction's span id stays. Every
    other span that was open has [endTimestamp] as its end and status
    [Cancelled]. Every other span is dropped when it started at or after
    [endTimestamp] and stays when it started strictly before. This holds
    for the world the call leaves, whether [this.finish()] returned or
    not. *)
Theorem finish_reconciles_spans (fuel : nat) (endTimestamp : Q) (w : World) (rec : Recorder) :
  spanRecorder w = Some rec →
  well_formed w →
  let w' := world_of (_finishIdleTransaction fuel endTimestamp w) in
  ∃ rec', spanRecorder w' = Some rec'
    ∧ IdleTransactionSpanRecorder.spans rec'
      = filter (λ r, kept w endTimestamp r) (IdleTransactionSpanRecorder.spans rec)
    ∧ (∀ r sp, r ∈ IdleTransactionSpanRecorder.spans rec → read w r = Some sp →
         is_own w sp = true → r ∈ IdleTransactionSpanRecorder.spans rec')
    ∧ (∀ r sp, r ∈ IdleTransactionSpanRecorder.spans rec → read w r = Some sp →
         is_own w sp = false → Span.endTimestamp sp = None →
         ∃ sp', read w' r = Some sp'
           ∧ Span.endTimestamp sp' = Some endTimestamp
           ∧ Span.status sp' = Some Cancelled)
    ∧ (∀ r sp, r ∈ IdleTransactionSpanRecorder.spans rec → read w r = Some sp →
         is_own w sp = false →
         ((endTimestamp <= Span.startTimestamp sp)%Q →
            r ∉ IdleTransactionSpanRecorder.spans rec')
         ∧ ((Span.startTimestamp sp < endTimestamp)%Q →
            r ∈ IdleTransactionSpanRecorder.spans rec')).
Proof.
  intros Hrec Hwf w'.
  destruct (finishIdleTransaction_run fuel endTimestamp w rec Hrec Hwf)
    as (w1 & [Hframe Hany] & Hreads & Hrun).
  subst w'. rewrite Hrun.
  set (l' := filter (λ r, kept w endTimestamp r) (IdleTransactionSpanRecorder.spans rec)).
  destruct (Span_finish_this_frame fuel None (flushing l' w1)) as (Hsr & Hheap & _).
  simpl in Hsr, Hheap. rewrite (frame_spanRecorder _ _ Hframe), Hrec in Hsr.
  simpl in Hsr.
  exists (with_spans l' rec). split; [exact Hsr|]. split; [reflexivity|]. simpl.
  split; [|split].
  - intros r sp Hin Hread Hown. apply list_elem_of_filter. split; [|exact Hin].
    unfold kept. rewrite Hread, Hown. exact I.
  - intros r sp Hin Hread Hown Hopen.
    destruct (not_own_is_child _ _ _ Hread Hown) as [n ->].
    exists (cancel endTimestamp sp). split; [|now apply cancel_open].
    simpl. rewrite Hheap.
    specialize (Hreads _ _ Hin Hread). rewrite Hown in Hreads. exact Hreads.
  - intros r sp Hin Hread Hown. split.
    + intros Hlate Hkept. apply list_elem_of_filter in Hkept as [Hkept _].
      unfold kept in Hkept. rewrite Hread, Hown in Hkept. simpl in Hkept.
      apply Qlt_bool_false in Hlate. rewrite Hlate in Hkept. exact Hkept.
    + intros Hearly. apply list_elem_of_filter. split; [|exact Hin].
      unfold kept. rewrite Hread, Hown. simpl.
      apply Qlt_bool_true in Hearly. now rewrite Hearly.
Qed.

Lemma finish_reconciles_spans_witness :
  well_formed three_children
  ∧ ∃ rec', spanRecorder (world_of (_finishIdleTransaction 1 12 three_children)) = Some rec'
      ∧ IdleTransactionSpanRecorder.spans rec' = [RThis; RChild 0; RChild 1]
      ∧ (Span.status <$> read (world_of (_finishIdleTransaction 1 12 three_children)) (RChild 0))
        = Some (Some Cancelled).
Proof.
  assert (Hwf : well_formed three_children).
  { apply (bool_decide_unpack _). vm_compute. exact I. }
  split; [exact Hwf|].
  destruct (finish_reconciles_spans 1 12 three_children _ eq_refl Hwf)
    as (rec' & Hrec & Hspans & _).
  exists rec'. split; [exact Hrec|]. split; [exact Hspans|]. vm_compute. reflexivity.
Defined.

(** ** Finishing with the prototype's [finish] *)

(** With the prototype's [finish] on the transaction the call returns and
    leaves a world on which it can be called again. *)
Lemma finishIdleTransaction_prototype (fuel : nat) (e : Q) (w : World) (rec : Recorder) :
  spanRecorder w = Some rec →
  well_formed w →
  Span.finish (self w) = PrototypeFinish →
  ∃ w', _finishIdleTransaction (S fuel) e w = Done tt w'
    ∧ is_Some (spanRecorder w')
    ∧ well_formed w'
    ∧ Span.finish (self w') = PrototypeFinish.
Proof.
  intros Hrec Hwf Hproto.
  destruct (finishIdleTransaction_run (S fuel) e w rec Hrec Hwf)
    as (w1 & [Hframe Hany] & Hreads & Hrun).
  rewrite Hrun. clear Hrun.
  set (l' := filter (λ r, kept w e r) (IdleTransactionSpanRecorder.spans rec)).
  assert (Hself : self (flushing l' w1) = self w) by (simpl; now apply frame_self).
  rewrite Span_finish_prototype_this by now rewrite Hself.
  rewrite Transaction_prototype_finish_run.
  destruct (flushed_frame None (flushing l' w1)) as (Hsr & Hheap & Himpl & _).
  simpl in Hsr, Hheap. rewrite (frame_spanRecorder _ _ Hframe), Hrec in Hsr.
  eexists. split; [reflexivity|]. split; [rewrite Hsr; eauto|]. split.
  - unfold well_formed, recorded. rewrite Hsr. simpl.
    apply Forall_forall. intros r Hin.
    apply list_elem_of_filter in Hin as [_ Hin].
    unfold well_formed, recorded in Hwf. rewrite Hrec, Forall_forall in Hwf.
    destruct (Hwf r Hin) as [sp Hread].
    destruct r as [|n]; [simpl; eauto|].
    simpl. rewrite Hheap. change (heap w1 !! n) with (read w1 (RChild n)).
    rewrite (Hreads _ _ Hin Hread). eauto.
  - rewrite Himpl, Hself. exact Hproto.
Qed.

(** ** The end of the transaction *)

Lemma Span_finish_this_self (fuel : nat) (arg : option Q) (w : World) :
  self (world_of (Span_finish fuel RThis arg w))
  = match fuel, Span.finish (self w) with
    | S _, PrototypeFinish => self (flushed arg w)
    | _, _ => self w
    end.
Proof.
  destruct fuel as [|fuel]; [reflexivity|].
  destruct (Span.finish (self w)) as [|pop] eqn:Himpl.
  - rewrite Span_finish_prototype_this by exact Himpl.
    now rewrite Transaction_prototype_finish_run.
  - now rewrite (Span_finish_patched (S fuel) RThis arg w (self w) pop).
Qed.

(** The underlying finish writes the end of the transaction, and nothing
    else of it. *)
Lemma flushed_self (arg : option Q) (w : World) :
  ∃ x, self (flushed arg w) = Span.with_endTimestamp x (self w).
Proof.
  unfold flushed. destruct (Span.endTimestamp (self w)) as [q|] eqn:Hend; simpl.
  - exists (Some q). rewrite <- Hend. now destruct (self w).
  - eauto.
Qed.

Lemma flushed_self_eq (arg : option Q) (w1 w2 : World) :
  self w1 = self w2 → clock w1 = clock w2 →
  self (flushed arg w1) = self (flushed arg w2).
Proof.
  intros Hself Hclock. unfold flushed. rewrite Hself, Hclock.
  now destruct (Span.endTimestamp (self w2)).
Qed.

(** The timestamp handed to [_finishIdleTransaction] never reaches the
    transaction: line 133 calls [this.finish()] without it, so the
    transaction's own fields after the call are the same for any two
    timestamps. *)
Lemma finish_end_ignores_argument (fuel : nat) (e1 e2 : Q) (w : World) :
  is_Some (spanRecorder w) →
  well_formed w →
  self (world_of (_finishIdleTransaction fuel e1 w))
  = self (world_of (_finishIdleTransaction fuel e2 w)).
Proof.
  intros [rec Hrec] Hwf.
  destruct (finishIdleTransaction_run fuel e1 w rec Hrec Hwf) as (w1 & [Hf1 _] & _ & ->).
  destruct (finishIdleTransaction_run fuel e2 w rec Hrec Hwf) as (w2 & [Hf2 _] & _ & ->).
  rewrite !Span_finish_this_self.
  set (f1 := flushing _ w1). set (f2 := flushing _ w2).
  assert (Hself : self f1 = self f2)
    by (simpl; now rewrite (frame_self _ _ Hf1), (frame_self _ _ Hf2)).
  assert (Hclock : clock f1 = clock f2)
    by (simpl; now rewrite (frame_clock _ _ Hf1), (frame_clock _ _ Hf2)).
  rewrite (flushed_self_eq None f1 f2 Hself Hclock), Hself. reflexivity.
Qed.

(** C5. Code defect: [_finishIdleTransaction(endTimestamp)] ends with
    [this.finish()], dropping [endTimestamp]. The last activity of
    [draining] is popped at second 12, which schedules the finish for
    [12 + 500 / 1000]; the timer fires at 12.6; the transaction is delivered
    with end 12.6, not with the scheduled end. On the transaction that went
    through [initSpanRecorder] the same finish ends in [RangeError] with no
    end set and nothing delivered. *)
Theorem finish_drops_its_timestamp :
  (∃ w1 w2, _popActivity ThisTransaction "a" draining = Done tt w1
     ∧ timers w1 = [mkTimer 1 5000 CbBeat;
                    mkTimer 2 500 (CbFinishIdle (12 + 500 / 1000)%Q)]
     ∧ (advance 12.6 ;;; fire 1 2) w1 = Done tt w2
     ∧ Span.endTimestamp (self w2) = Some 12.6%Q
     ∧ (emitted_end <$> sink w2) = [Some 12.6%Q]
     ∧ ¬ (12.6 == 12 + 500 / 1000)%Q)
  ∧ (∃ w', _finishIdleTransaction 1000 (12 + 500 / 1000)%Q recording_transaction
             = Thrown RangeError w'
       ∧ Span.endTimestamp (self w') = None
       ∧ sink w' = []).
Proof.
  split.
  - do 2 eexists. do 5 (split; [vm_compute; reflexivity|]).
    intros Heq. discriminate Heq.
  - destruct (finishIdleTransaction_run 1000 (12 + 500 / 1000)%Q recording_transaction
                _ eq_refl) as (w1 & [Hframe _] & _ & Hrun).
    { apply (bool_decide_unpack _). vm_compute. exact I. }
    rewrite Hrun.
    erewrite Span_finish_patched;
      [|reflexivity|simpl; rewrite (frame_self _ _ Hframe); reflexivity].
    eexists. split; [reflexivity|]. simpl.
    rewrite (frame_self _ _ Hframe), (frame_sink _ _ Hframe). split; reflexivity.
Qed.

(** ** The world of the alarm *)

Lemma bind_done {A B} (m : M A) (k : A → M B) (w w' : World) (b : B) :
  bind m k w = Done b w' → ∃ a w1, m w = Done a w1 ∧ k a w1 = Done b w'.
Proof.
  unfold bind. destruct (m w) as [a w1|err w1]; [eauto|discriminate].
Qed.

Lemma alarmed_facts (w : World) :
  spanRecorder (alarmed w) = spanRecorder w
  ∧ heap (alarmed w) = heap w
  ∧ Span.finish (self (alarmed w)) = Span.finish (self w)
  ∧ Span.status (self (alarmed w)) = Some DeadlineExceeded
  ∧ Span.tags (self (alarmed w)) !! "heartbeat" = Some "failed"
  ∧ _activities (alarmed w) = _activities w.
Proof.
  unfold alarmed. simpl. repeat split. apply lookup_insert_eq.
Qed.

Lemma well_formed_alarmed (w : World) : well_formed w → well_formed (alarmed w).
Proof.
  unfold well_formed, recorded. simpl. intros Hwf.
  eapply Forall_impl; [exact Hwf|]. intros [|n] Hsome; simpl in *; eauto.
Qed.

(** ** Stall detection *)

(** The filter never writes to the transaction object. *)
Lemma keep_span_self (e : Q) (r : ref) (w : World) :
  self (world_of (keep_span e r w)) = self w.
Proof.
  destruct (read w r) as [sp|] eqn:Hread.
  - destruct (keep_span_run e r w sp Hread) as (w' & -> & Hframe & _).
    simpl. now apply frame_self.
  - unfold keep_span, bind at 1, deref. now rewrite Hread.
Qed.

Lemma filterM_keep_span_self (e : Q) (l : list ref) (w : World) :
  self (world_of (filterM (keep_span e) l w)) = self w.
Proof.
  revert w. induction l as [|x l IH]; intros w; [reflexivity|].
  cbn [filterM]. unfold bind at 1.
  pose proof (keep_span_self e x w) as Hx.
  destruct (keep_span e x w) as [b w1|err w1]; simpl in Hx; [|exact Hx].
  unfold bind at 1. specialize (IH w1).
  destruct (filterM (keep_span e) l w1) as [rest w2|err w2]; simpl in *; congruence.
Qed.

(** [_finishIdleTransaction] leaves status and tags of the transaction as
    they are. *)
Lemma finishIdleTransaction_self (fuel : nat) (e : Q) (w : World) :
  ∃ x, self (world_of (_finishIdleTransaction fuel e w)) = Span.with_endTimestamp x (self w).
Proof.
  unfold _finishIdleTransaction, bind at 1, gets.
  destruct (spanRecorder w) as [rec|];
    [|exists (Span.endTimestamp (self w)); simpl; now destruct (self w)].
  unfold bind at 1.
  pose proof (filterM_keep_span_self e (IdleTransactionSpanRecorder.spans rec) w) as Hself.
  destruct (filterM (keep_span e) (IdleTransactionSpanRecorder.spans rec) w)
    as [l' w1|err w1]; simpl in Hself.
  2:{ exists (Span.endTimestamp (self w)). simpl. rewrite Hself. now destruct (self w). }
  run. rewrite Span_finish_this_self.
  match goal with
  | |- context [flushed None ?w2] => destruct (flushed_self None w2) as [x Hx]
  end.
  simpl in Hx |- *. rewrite Hx, Hself.
  destruct fuel as [|fuel];
    [exists (Span.endTimestamp (self w)); now destruct (self w)|].
  destruct (Span.finish (self w)).
  - eexists. reflexivity.
  - exists (Span.endTimestamp (self w)). now destruct (self w).
Qed.

(** [_finishIdleTransaction] leaves status and tags of the transaction as
    they are. *)
Lemma finishIdleTransaction_status_tags (fuel : nat) (e : Q) (w : World) :
  Span.status (self (world_of (_finishIdleTransaction fuel e w))) = Span.status (self w)
  ∧ Span.tags (self (world_of (_finishIdleTransaction fuel e w))) = Span.tags (self w).
Proof.
  destruct (finishIdleTransaction_self fuel e w) as [x ->]. split; reflexivity.
Qed.

Lemma unfinished_trans (w1 w2 w3 : World) :
  unfinished w1 w2 → unfinished w2 w3 → unfinished w1 w3.
Proof. unfold unfinished. intuition congruence. Qed.

Lemma apply_ops_run (ops : list activity_op) (w : World) :
  ∃ w', apply_ops ops w = Done tt w' ∧ unfinished w w'.
Proof.
  revert w. induction ops as [|op ops IH]; intros w.
  { exists w. repeat split. }
  assert (Hop : ∃ w1, apply_op op w = Done tt w1 ∧ unfinished w w1).
  { destruct op as [id|id]; simpl.
    - eexists. split; [reflexivity|]. repeat split.
    - unfold _popActivity. run.
      destruct (is_active id (_activities w)); simpl.
      + destruct (activities_delete id (_activities w)); simpl;
          eexists; (split; [reflexivity|]); repeat split.
      + destruct (_activities w) eqn:Hkeys; simpl;
          eexists; (split; [reflexivity|]); repeat split. }
  destruct Hop as (w1 & Hop & Hun1). destruct (IH w1) as (w' & Hrest & Hun').
  exists w'. split; [|eapply unfinished_trans; eassumption].
  cbn [apply_ops]. unfold bind at 1. now rewrite Hop.
Qed.

Lemma ticks_unfinished (fuel : nat) (rounds : list (list activity_op)) (w : World) :
  changes_every_tick fuel rounds w →
  ∃ w', ticks fuel rounds w = Done tt w' ∧ unfinished w w'.
Proof.
  revert w. induction rounds as [|ops rounds IH]; intros w Hchanges.
  { exists w. repeat split. }
  cbn [changes_every_tick] in Hchanges.
  destruct (apply_ops_run ops w) as (w1 & Hops & Hun1).
  rewrite Hops in Hchanges. simpl in Hchanges. destruct Hchanges as [Hnow Hlater].
  assert (Hbeat : ∃ w2, _beat fuel w1 = Done tt w2 ∧ unfinished w1 w2).
  { destruct (_activities w1) as [|first rest] eqn:Hkeys.
    - rewrite beat_empty by exact Hkeys. eexists. split; [reflexivity|]. repeat split.
    - erewrite beat_changed by eassumption.
      eexists. split; [reflexivity|]. repeat split. }
  destruct Hbeat as (w2 & Hbeat & Hun2). rewrite Hbeat in Hlater. simpl in Hlater.
  destruct (IH w2 Hlater) as (w' & Hrest & Hun').
  exists w'. split.
  - cbn [ticks]. unfold bind at 1. rewrite Hops. unfold bind at 1. now rewrite Hbeat.
  - eapply unfinished_trans; [exact Hun1|]. eapply unfinished_trans; eassumption.
Qed.

(** C6, as the code has it. The stale counter counts the ticks that found
    the signature of the tick before; a first sight of a signature resets it
    to 0. On a tick that finds a non-empty activity set with the stored
    signature and brings the counter to 3 or more, [_beat] logs the
    safeguard, sets status [DeadlineExceeded] and tag [heartbeat = failed]
    on the transaction and calls [_finishIdleTransaction] with the time of
    the tick. A tick that finds the stored signature with the counter still
    below 3 only counts. A run in which every tick finds a signature other
    than the stored one never enters that path, however long it is. *)
Theorem heartbeat_stall_detection :
  (∀ (fuel : nat) (w : World) (first : string) (rest : list string),
     _activities w = first :: rest →
     same_string (reduce_concat first rest) (_prevHeartbeatString w) = true →
     (2 ≤ _heartbeatCounter w)%nat →
     _beat fuel w =
       (_finishIdleTransaction fuel (clock w) ;;;
        modify (set_prevHeartbeatString (Some (reduce_concat first rest))) ;;;
        _pingHeartbeat) (alarmed w)
     ∧ _heartbeatCounter (alarmed w) = S (_heartbeatCounter w)
     ∧ Span.status (self (world_of (_beat fuel w))) = Some DeadlineExceeded
     ∧ Span.tags (self (world_of (_beat fuel w))) !! "heartbeat" = Some "failed")
  ∧ (∀ (fuel : nat) (w : World) (first : string) (rest : list string),
       _activities w = first :: rest →
       same_string (reduce_concat first rest) (_prevHeartbeatString w) = true →
       (_heartbeatCounter w < 2)%nat →
       ∃ w', _beat fuel w = Done tt w'
         ∧ _heartbeatCounter w' = S (_heartbeatCounter w)
         ∧ unfinished w w')
  ∧ (∀ (fuel : nat) (rounds : list (list activity_op)) (w : World),
       changes_every_tick fuel rounds w →
       ∃ w', ticks fuel rounds w = Done tt w' ∧ unfinished w w').
Proof.
  split; [|split].
  - intros fuel w first rest Hkeys Hsame Hhigh.
    rewrite (beat_same_alarm fuel w first rest Hkeys Hsame Hhigh).
    split; [reflexivity|]. split; [reflexivity|].
    destruct (finishIdleTransaction_status_tags fuel (clock w) (alarmed w))
      as [Hstatus Htags].
    destruct (alarmed_facts w) as (_ & _ & _ & Hst & Htg & _).
    unfold bind at 1 3.
    destruct (_finishIdleTransaction fuel (clock w) (alarmed w)) as [[] w1|err w1];
      simpl in Hstatus, Htags |- *; rewrite Hstatus, Htags; auto.
  - intros fuel w first rest Hkeys Hsame Hlow.
    rewrite (beat_same_below fuel w first rest Hkeys Hsame) by lia.
    eexists. split; [reflexivity|]. split; [reflexivity|]. repeat split.
  - exact ticks_unfinished.
Qed.

(** The alarm on [stalled]; and a run on a new transaction in which the
    signature reads ["a"], ["ab"], ["b"], ["bc"] at the four ticks. *)
Lemma heartbeat_stall_detection_witness :
  (_activities stalled = ["a"]
   ∧ same_string (reduce_concat "a" []) (_prevHeartbeatString stalled) = true
   ∧ (2 ≤ _heartbeatCounter stalled)%nat
   ∧ Span.status (self (world_of (_beat 1 stalled))) = Some DeadlineExceeded)
  ∧ (_activities watching = ["a"]
     ∧ ∃ w1 w', _beat 1 watching = Done tt w1
         ∧ same_string (reduce_concat "a" []) (_prevHeartbeatString w1) = true
         ∧ (_heartbeatCounter w1 < 2)%nat
         ∧ _beat 1 w1 = Done tt w'
         ∧ _heartbeatCounter w' = S (_heartbeatCounter w1))
  ∧ (changes_every_tick 1 [[Push "a"]; [Push "b"]; [Pop "a"]; [Push "c"]] new_transaction
     ∧ ∃ w', ticks 1 [[Push "a"]; [Push "b"]; [Pop "a"]; [Push "c"]] new_transaction
               = Done tt w'
         ∧ unfinished new_transaction w').
Proof.
  split; [|split].
  - split; [reflexivity|]. split; [reflexivity|]. split; [simpl; lia|].
    apply (proj1 heartbeat_stall_detection 1%nat stalled "a" []);
      [reflexivity|reflexivity|simpl; lia].
  - split; [reflexivity|]. eexists.
    destruct (proj1 (proj2 heartbeat_stall_detection) 1%nat
                (world_of (_beat 1 watching)) "a" [])
      as (w' & Hrun & Hcount & _); [reflexivity|reflexivity|simpl; lia|].
    exists w'. split; [reflexivity|]. split; [reflexivity|].
    split; [simpl; lia|]. split; [exact Hrun|exact Hcount].
  - assert (Hchanges : changes_every_tick 1
              [[Push "a"]; [Push "b"]; [Pop "a"]; [Push "c"]] new_transaction).
    { simpl. repeat split. }
    split; [exact Hchanges|].
    apply (proj2 (proj2 heartbeat_stall_detection) 1%nat _ _ Hchanges).
Defined.

(** C6 as stated fails: the heartbeat of [watching] sees the signature ["a"]
    on three consecutive ticks and finishes nothing; the counter stands at 2.
    It is the fourth such tick that finishes the transaction. *)
Lemma three_identical_ticks_counterexample :
  ∃ w3 w4, (fire 1 1 ;;; fire 1 2 ;;; fire 1 3) watching = Done tt w3
    ∧ _activities w3 = ["a"]
    ∧ _prevHeartbeatString w3 = Some "a"
    ∧ _heartbeatCounter w3 = 2%nat
    ∧ Span.status (self w3) = None
    ∧ logged w3 = []
    ∧ sink w3 = []
    ∧ fire 1 4 w3 = Done tt w4
    ∧ _heartbeatCounter w4 = 3%nat
    ∧ Span.status (self w4) = Some DeadlineExceeded
    ∧ length (sink w4) = 1%nat.
Proof. evaluate. Qed.

(** * Further properties of the engine *)

(** ** The activity set *)

Lemma is_active_set (spanId : string) (activities : list string) :
  is_active spanId (activities_set spanId activities) = true.
Proof.
  unfold activities_set. destruct (is_active spanId activities) eqn:Hact; [exact Hact|].
  unfold is_active. apply bool_decide_eq_true. apply elem_of_app. right. left.
Qed.

Lemma activities_delete_set (spanId : string) (activities : list string) :
  is_active spanId activities = false →
  activities_delete spanId (activities_set spanId activities) = activities.
Proof.
  intros Hfresh. unfold activities_set. rewrite Hfresh.
  unfold activities_delete. rewrite filter_app.
  fold (activities_delete spanId activities).
  rewrite (activities_delete_absent _ _ Hfresh).
  rewrite filter_cons. destruct (decide (spanId ≠ spanId)); [congruence|].
  apply app_nil_r.
Qed.

Lemma activities_set_twice (spanId : string) (activities : list string) :
  activities_set spanId (activities_set spanId activities)
  = activities_set spanId activities.
Proof. unfold activities_set at 1. now rewrite is_active_set. Qed.

(** X1. [_pushActivity] is idempotent; and a push of an id that was not
    active followed by the pop of that id gives back the activity set as it
    was, keys in the same order. *)
Theorem pushActivity_idempotent_undone_by_pop :
  (∀ (spanId : string) (w : World),
     (_pushActivity ThisTransaction spanId ;;; _pushActivity ThisTransaction spanId) w
     = _pushActivity ThisTransaction spanId w)
  ∧ (∀ (spanId : string) (w : World),
       is_active spanId (_activities w) = false →
       ∃ w', (_pushActivity ThisTransaction spanId ;;;
              _popActivity ThisTransaction spanId) w = Done tt w'
         ∧ _activities w' = _activities w).
Proof.
  split.
  - intros spanId w. unfold _pushActivity, bind, modify. simpl.
    now rewrite activities_set_twice.
  - intros spanId w Hfresh. unfold bind at 1. unfold _pushActivity at 1, modify.
    destruct (popActivity_spec spanId
                (set_activities (activities_set spanId (_activities w)) w))
      as (w' & Hrun & Hact & _).
    exists w'. split; [exact Hrun|]. rewrite Hact. simpl.
    now apply activities_delete_set.
Qed.

Lemma pushActivity_idempotent_undone_by_pop_witness :
  is_active "a" (_activities new_transaction) = false
  ∧ ∃ w', (_pushActivity ThisTransaction "a" ;;;
           _popActivity ThisTransaction "a") new_transaction = Done tt w'
      ∧ _activities w' = _activities new_transaction.
Proof.
  split; [vm_compute; reflexivity|].
  apply (proj2 pushActivity_idempotent_undone_by_pop "a" new_transaction).
  vm_compute. reflexivity.
Defined.

(** X2. A pop of an id that is not active, while other activities are, does
    nothing at all: no key leaves, no timer is set. *)
Theorem popActivity_of_inactive_id (spanId : string) (w : World) :
  is_active spanId (_activities w) = false →
  _activities w ≠ [] →
  _popActivity ThisTransaction spanId w = Done tt w.
Proof.
  intros Hfresh Hsome. unfold _popActivity. run. rewrite Hfresh. simpl.
  destruct (_activities w) as [|k ks]; [congruence|]. simpl.
  now destruct w.
Qed.

Lemma popActivity_of_inactive_id_witness :
  is_active "b" (_activities watching) = false
  ∧ _activities watching ≠ []
  ∧ _popActivity ThisTransaction "b" watching = Done tt watching.
Proof.
  assert (Hfresh : is_active "b" (_activities watching) = false)
    by (vm_compute; reflexivity).
  assert (Hsome : _activities watching ≠ []) by discriminate.
  split; [exact Hfresh|]. split; [exact Hsome|].
  exact (popActivity_of_inactive_id "b" watching Hfresh Hsome).
Defined.

(** ** What a finish leaves alone *)

Lemma keep_span_frame (e : Q) (r : ref) (w : World) :
  frame (world_of (keep_span e r w)) = frame w.
Proof.
  destruct (read w r) as [sp|] eqn:Hread.
  - now destruct (keep_span_run e r w sp Hread) as (w' & -> & Hframe & _).
  - unfold keep_span, bind at 1, deref. now rewrite Hread.
Qed.

Lemma filterM_keep_span_frame (e : Q) (l : list ref) (w : World) :
  frame (world_of (filterM (keep_span e) l w)) = frame w.
Proof.
  revert w. induction l as [|x l IH]; intros w; [reflexivity|].
  cbn [filterM]. unfold bind at 1.
  pose proof (keep_span_frame e x w) as Hx.
  destruct (keep_span e x w) as [b w1|err w1]; simpl in Hx; [|exact Hx].
  unfold bind at 1. specialize (IH w1).
  destruct (filterM (keep_span e) l w1) as [rest w2|err w2]; simpl in *; congruence.
Qed.

Lemma frame_bookkeeping (w w' : World) :
  frame w' = frame w → bookkeeping w' = bookkeeping w.
Proof. unfold frame, bookkeeping. congruence. Qed.

Lemma Span_finish_this_bookkeeping (fuel : nat) (arg : option Q) (w : World) :
  bookkeeping (world_of (Span_finish fuel RThis arg w)) = bookkeeping w.
Proof.
  destruct (Span_finish_this fuel arg w) as [->|[_ ->]]; [reflexivity|].
  unfold flushed. now destruct (Span.endTimestamp (self w)).
Qed.

Lemma finishIdleTransaction_bookkeeping (fuel : nat) (e : Q) (w : World) :
  bookkeeping (world_of (_finishIdleTransaction fuel e w)) = bookkeeping w.
Proof.
  unfold _finishIdleTransaction, bind at 1, gets.
  destruct (spanRecorder w) as [rec|]; [|reflexivity].
  unfold bind at 1.
  pose proof (filterM_keep_span_frame e (IdleTransactionSpanRecorder.spans rec) w) as Hf.
  destruct (filterM (keep_span e) (IdleTransactionSpanRecorder.spans rec) w)
    as [l' w1|err w1]; simpl in Hf; [|now apply frame_bookkeeping].
  run. rewrite Span_finish_this_bookkeeping.
  rewrite <- (frame_bookkeeping _ _ Hf). reflexivity.
Qed.

(** X3. [_finishIdleTransaction] cancels nothing and clears nothing: in
    whatever way the call ends, the pending timers (the heartbeat's and every
    deferred finish), the activity set and the heartbeat's counter and
    stored signature are as before. *)
Theorem finish_leaves_timers_and_activities (fuel : nat) (endTimestamp : Q) (w : World) :
  let w' := world_of (_finishIdleTransaction fuel endTimestamp w) in
  timers w' = timers w
  ∧ next_timer w' = next_timer w
  ∧ _activities w' = _activities w
  ∧ _heartbeatTimer w' = _heartbeatTimer w
  ∧ _heartbeatCounter w' = _heartbeatCounter w
  ∧ _prevHeartbeatString w' = _prevHeartbeatString w
  ∧ _idleTimeout w' = _idleTimeout w.
Proof.
  intros w'. pose proof (finishIdleTransaction_bookkeeping fuel endTimestamp w) as Hb.
  fold w' in Hb. unfold bookkeeping in Hb. injection Hb as -> -> -> -> -> _ -> ->.
  repeat split.
Qed.

Lemma keep_span_reconciled (e : Q) (r : ref) (w : World) :
  reconciled e w (world_of (keep_span e r w)).
Proof.
  destruct (read w r) as [spx|] eqn:Hx.
  - destruct (keep_span_run e r w spx Hx) as (w1 & -> & Hframe & Hrx & Hothers).
    simpl. split; [exact Hframe|]. intros r' sp Hread.
    destruct (decide (r' = r)) as [->|Hne].
    + rewrite Hx in Hread. injection Hread as <-. rewrite Hrx.
      destruct (is_own w spx); auto.
    + left. now rewrite Hothers.
  - unfold keep_span, bind at 1, deref. rewrite Hx. apply reconciled_refl.
Qed.

Lemma filterM_keep_span_reconciled (e : Q) (l : list ref) (w : World) :
  reconciled e w (world_of (filterM (keep_span e) l w)).
Proof.
  revert w. induction l as [|x l IH]; intros w; [apply reconciled_refl|].
  cbn [filterM]. unfold bind at 1.
  pose proof (keep_span_reconciled e x w) as Hx.
  destruct (keep_span e x w) as [b w1|err w1]; simpl in Hx; [|exact Hx].
  unfold bind at 1. specialize (IH w1).
  destruct (filterM (keep_span e) l w1) as [rest w2|err w2]; simpl in *;
    eapply reconciled_trans; eassumption.
Qed.

Lemma finishIdleTransaction_reconciled (fuel : nat) (e : Q) (w : World) :
  ∃ w1, reconciled e w w1
    ∧ heap (world_of (_finishIdleTransaction fuel e w)) = heap w1.
Proof.
  unfold _finishIdleTransaction, bind at 1, gets.
  destruct (spanRecorder w) as [rec|].
  2:{ exists w. split; [apply reconciled_refl|reflexivity]. }
  unfold bind at 1.
  pose proof (filterM_keep_span_reconciled e (IdleTransactionSpanRecorder.spans rec) w)
    as Hrec.
  destruct (filterM (keep_span e) (IdleTransactionSpanRecorder.spans rec) w)
    as [l' w1|err w1]; simpl in Hrec; exists w1; (split; [exact Hrec|]);
    [|reflexivity].
  run.
  match goal with
  | |- context [Span_finish fuel RThis None ?w2] =>
      destruct (Span_finish_this_frame fuel None w2) as (_ & Hheap & _)
  end.
  exact Hheap.
Qed.

(** The heap after [_finishIdleTransaction], however the call ends: every
    span is as it was, or cancelled if it is not the transaction's. *)
Lemma finishIdleTransaction_heap (fuel : nat) (e : Q) (w : World) (n : nat) (sp : Span.t) :
  heap w !! n = Some sp →
  heap (world_of (_finishIdleTransaction fuel e w)) !! n = Some sp
  ∨ (is_own w sp = false
     ∧ heap (world_of (_finishIdleTransaction fuel e w)) !! n = Some (cancel e sp)).
Proof.
  intros Hread.
  destruct (finishIdleTransaction_reconciled fuel e w) as (w1 & [_ Hany] & ->).
  exact (Hany (RChild n) sp Hread).
Qed.

Lemma cancel_ended (e : Q) (sp : Span.t) : ended sp → cancel e sp = sp.
Proof.
  intros (q & Hend & Hnz). unfold cancel. rewrite Hend. simpl.
  destruct (Qeq_bool q 0) eqn:Hz; [|reflexivity].
  apply Qeq_bool_iff in Hz. contradiction.
Qed.

(** X4. [_finishIdleTransaction] never rewrites a finished span: a span
    whose end is set (and is not the number 0), or which carries the span id
    of the transaction, has all its fields unchanged after the call, whether
    the recorder keeps it or drops it and however the call ends. *)
Theorem finish_leaves_finished_spans
    (fuel : nat) (endTimestamp : Q) (w : World) (n : nat) (sp : Span.t) :
  heap w !! n = Some sp →
  ended sp ∨ is_own w sp = true →
  heap (world_of (_finishIdleTransaction fuel endTimestamp w)) !! n = Some sp.
Proof.
  intros Hread Hdone.
  destruct (finishIdleTransaction_heap fuel endTimestamp w n sp Hread)
    as [Hsame|[Hown Hcancelled]]; [exact Hsame|].
  destruct Hdone as [Hended|Hmine]; [|congruence].
  now rewrite (cancel_ended _ _ Hended) in Hcancelled.
Qed.

Lemma finish_leaves_finished_spans_witness :
  heap odd_children !! 1%nat = Some (closed_span "b" 11 11.5)
  ∧ heap odd_children !! 4%nat = Some (open_span "t" 14)
  ∧ heap (world_of (_finishIdleTransaction 1 12 odd_children)) !! 1%nat
    = Some (closed_span "b" 11 11.5)
  ∧ heap (world_of (_finishIdleTransaction 1 12 odd_children)) !! 4%nat
    = Some (open_span "t" 14).
Proof.
  split; [reflexivity|]. split; [reflexivity|]. split.
  - apply (finish_leaves_finished_spans 1 12 odd_children 1 _ eq_refl).
    left. exists 11.5%Q. split; [reflexivity|]. intros Hz. discriminate Hz.
  - apply (finish_leaves_finished_spans 1 12 odd_children 4 _ eq_refl).
    right. vm_compute. reflexivity.
Defined.

(** X5. The test for an open span is [!span.endTimestamp], which also holds
    for an end recorded as 0: such a span in the recorder, not the
    transaction's, is overwritten like an open one, with [endTimestamp] as
    its end and status [Cancelled]. *)
Theorem finish_overwrites_end_zero
    (fuel : nat) (endTimestamp : Q) (w : World) (rec : Recorder)
    (n : nat) (sp : Span.t) (q : Q) :
  spanRecorder w = Some rec →
  well_formed w →
  RChild n ∈ IdleTransactionSpanRecorder.spans rec →
  heap w !! n = Some sp →
  is_own w sp = false →
  Span.endTimestamp sp = Some q →
  (q == 0)%Q →
  ∃ sp', heap (world_of (_finishIdleTransaction fuel endTimestamp w)) !! n = Some sp'
    ∧ Span.endTimestamp sp' = Some endTimestamp
    ∧ Span.status sp' = Some Cancelled
    ∧ Span.startTimestamp sp' = Span.startTimestamp sp.
Proof.
  intros Hrec Hwf Hin Hread Hown Hend Hzero.
  destruct (finishIdleTransaction_run fuel endTimestamp w rec Hrec Hwf)
    as (w1 & _ & Hreads & ->).
  match goal with
  | |- context [Span_finish fuel RThis None ?w2] =>
      destruct (Span_finish_this_frame fuel None w2) as (_ & Hheap & _);
      simpl in Hheap; rewrite Hheap
  end.
  specialize (Hreads (RChild n) sp Hin Hread). rewrite Hown in Hreads.
  simpl in Hreads. rewrite Hreads. eexists. split; [reflexivity|].
  unfold cancel. rewrite Hend. simpl.
  apply Qeq_bool_iff in Hzero. rewrite Hzero. simpl. auto.
Qed.

Lemma finish_overwrites_end_zero_witness :
  well_formed odd_children
  ∧ ∃ sp', heap (world_of (_finishIdleTransaction 1 12 odd_children)) !! 3%nat = Some sp'
      ∧ Span.endTimestamp sp' = Some 12%Q
      ∧ Span.status sp' = Some Cancelled
      ∧ Span.startTimestamp sp' = 11%Q.
Proof.
  assert (Hwf : well_formed odd_children).
  { apply (bool_decide_unpack _). vm_compute. exact I. }
  split; [exact Hwf|].
  apply (finish_overwrites_end_zero 1 12 odd_children _ 3 (closed_span "z" 11 0) 0
           eq_refl Hwf).
  - vm_compute. do 4 right. left.
  - reflexivity.
  - vm_compute. reflexivity.
  - reflexivity.
  - reflexivity.
Defined.

(** ** Finishing twice with the same end *)

Lemma keep_span_others (e : Q) (r r' : ref) (w : World) :
  r' ≠ r → read (world_of (keep_span e r w)) r' = read w r'.
Proof.
  intros Hne. destruct (read w r) as [sp|] eqn:Hread.
  - destruct (keep_span_run e r w sp Hread) as (w' & -> & _ & _ & Hothers).
    now apply Hothers.
  - unfold keep_span, bind at 1, deref. now rewrite Hread.
Qed.

(** The filter writes only to the spans it visits. *)
Lemma filterM_keep_span_others (e : Q) (l : list ref) (w : World) (r' : ref) :
  r' ∉ l → read (world_of (filterM (keep_span e) l w)) r' = read w r'.
Proof.
  revert w. induction l as [|x l IH]; intros w Hnot; [reflexivity|].
  apply not_elem_of_cons in Hnot as [Hne Hnot].
  cbn [filterM]. unfold bind at 1.
  pose proof (keep_span_others e x r' w Hne) as Hx.
  destruct (keep_span e x w) as [b w1|err w1]; simpl in Hx; [|exact Hx].
  unfold bind at 1. specialize (IH w1 Hnot).
  destruct (filterM (keep_span e) l w1) as [rest w2|err w2]; simpl in *; congruence.
Qed.

Lemma filter_all {A} (P : A → Prop) `{∀ x, Decision (P x)} (l : list A) :
  Forall P l → filter P l = l.
Proof.
  induction 1 as [|x l Hx _ IH]; [reflexivity|].
  rewrite filter_cons, IH. now destruct (decide (P x)).
Qed.

Lemma Span_finish_this_spanId (fuel : nat) (arg : option Q) (w : World) :
  Span.spanId (self (world_of (Span_finish fuel RThis arg w))) = Span.spanId (self w).
Proof.
  destruct (Span_finish_this fuel arg w) as [->|[_ ->]]; [reflexivity|].
  simpl. now destruct (flushed_self arg w) as [x ->].
Qed.

(** Everything the proofs below need to know about the world a finish
    leaves, on a transaction with a span recorder. *)
Lemma finishIdleTransaction_after (fuel : nat) (e : Q) (w : World) (rec : Recorder) :
  spanRecorder w = Some rec →
  well_formed w →
  let w' := world_of (_finishIdleTransaction fuel e w) in
  spanRecorder w' =
    Some (with_spans (filter (λ r, kept w e r) (IdleTransactionSpanRecorder.spans rec)) rec)
  ∧ Span.spanId (self w') = Span.spanId (self w)
  ∧ (∀ n sp, RChild n ∈ IdleTransactionSpanRecorder.spans rec → heap w !! n = Some sp →
       heap w' !! n = Some (if is_own w sp then sp else cancel e sp))
  ∧ (∀ n, RChild n ∉ IdleTransactionSpanRecorder.spans rec → heap w' !! n = heap w !! n).
Proof.
  intros Hrec Hwf w'.
  assert (Hall : ∀ r, r ∈ IdleTransactionSpanRecorder.spans rec → is_Some (read w r)).
  { unfold well_formed, recorded in Hwf. rewrite Hrec, Forall_forall in Hwf. exact Hwf. }
  destruct (filterM_keep_span e (IdleTransactionSpanRecorder.spans rec) w Hall)
    as (w1 & Hrun & [Hframe _] & Hreads).
  assert (Hothers : ∀ n, RChild n ∉ IdleTransactionSpanRecorder.spans rec →
            heap w1 !! n = heap w !! n).
  { intros n Hnot.
    pose proof (filterM_keep_span_others e _ w (RChild n) Hnot) as Ho.
    now rewrite Hrun in Ho. }
  assert (Hw' : w' = world_of (Span_finish fuel RThis None
            (flushing (filter (λ r, kept w e r) (IdleTransactionSpanRecorder.spans rec)) w1))).
  { subst w'. unfold _finishIdleTransaction. unfold bind at 1, gets. rewrite Hrec.
    unfold bind at 1. now rewrite Hrun. }
  rewrite Hw'. clear Hw' w'.
  match goal with
  | |- context [Span_finish fuel RThis None ?w2] =>
      destruct (Span_finish_this_frame fuel None w2) as (Hsr & Hheap & _);
      pose proof (Span_finish_this_spanId fuel None w2) as Hself
  end.
  simpl in Hsr, Hheap, Hself. rewrite Hsr, Hheap, Hself.
  rewrite (frame_spanRecorder _ _ Hframe), Hrec, (frame_self _ _ Hframe). simpl.
  split; [reflexivity|]. split; [reflexivity|].
  split; [|exact Hothers].
  intros n sp Hin Hread. exact (Hreads (RChild n) sp Hin Hread).
Qed.

(** X6. A second [_finishIdleTransaction] with the same [endTimestamp]
    finds nothing left to reconcile: the recorder keeps exactly the spans
    the first call kept and no span changes any more. (Only the log grows,
    and the underlying finish is called again.) *)
Theorem finish_twice_same_end_reconciles_once
    (fuel : nat) (endTimestamp : Q) (w : World) :
  is_Some (spanRecorder w) →
  well_formed w →
  let w1 := world_of (_finishIdleTransaction fuel endTimestamp w) in
  let w2 := world_of (_finishIdleTransaction fuel endTimestamp w1) in
  recorded w2 = recorded w1 ∧ heap w2 = heap w1.
Proof.
  intros [rec Hrec] Hwf w1 w2.
  destruct (finishIdleTransaction_after fuel endTimestamp w rec Hrec Hwf)
    as (Hrec1 & Hid1 & Hreads1 & Hothers1).
  fold w1 in Hrec1, Hid1, Hreads1, Hothers1.
  set (l1 := filter (λ r, kept w endTimestamp r) (IdleTransactionSpanRecorder.spans rec))
    in *.
  assert (Hsub : ∀ r, r ∈ l1 →
            r ∈ IdleTransactionSpanRecorder.spans rec ∧ kept w endTimestamp r).
  { intros r Hin. apply list_elem_of_filter in Hin. tauto. }
  assert (Hall : ∀ r, r ∈ IdleTransactionSpanRecorder.spans rec → is_Some (read w r)).
  { unfold well_formed, recorded in Hwf. rewrite Hrec, Forall_forall in Hwf. exact Hwf. }
  assert (Hown1 : ∀ sp, is_own w1 sp = is_own w sp).
  { intros sp. unfold is_own. now rewrite Hid1. }
  assert (Hwf1 : well_formed w1).
  { unfold well_formed, recorded. rewrite Hrec1. simpl. apply Forall_forall.
    intros [|n] Hin; [simpl; eauto|]. destruct (Hsub _ Hin) as [Hin0 _].
    destruct (Hall _ Hin0) as [sp Hread]. simpl in Hread |- *.
    rewrite (Hreads1 n sp Hin0 Hread). eauto. }
  destruct (finishIdleTransaction_after fuel endTimestamp w1 _ Hrec1 Hwf1)
    as (Hrec2 & _ & Hreads2 & Hothers2).
  fold w2 in Hrec2, Hreads2, Hothers2. simpl in Hrec2, Hreads2, Hothers2.
  split.
  - unfold recorded. rewrite Hrec2, Hrec1. simpl. apply filter_all.
    apply Forall_forall. intros [|n] Hin.
    + unfold kept. simpl. now rewrite is_own_self.
    + destruct (Hsub _ Hin) as [Hin0 Hkept]. destruct (Hall _ Hin0) as [sp Hread].
      simpl in Hread. unfold kept in Hkept |- *. simpl in Hkept |- *.
      rewrite Hread in Hkept. rewrite (Hreads1 n sp Hin0 Hread), Hown1.
      destruct (is_own w sp) eqn:Hown; [now rewrite Hown|].
      now rewrite is_own_cancel, Hown, cancel_startTimestamp.
  - apply list_eq. intros n.
    destruct (decide (RChild n ∈ l1)) as [Hin|Hnot]; [|now apply Hothers2].
    destruct (Hsub _ Hin) as [Hin0 _]. destruct (Hall _ Hin0) as [sp Hread].
    simpl in Hread. pose proof (Hreads1 n sp Hin0 Hread) as Hn1.
    rewrite (Hreads2 n _ Hin Hn1), Hn1, Hown1. f_equal.
    destruct (is_own w sp) eqn:Hown; [now rewrite Hown|].
    now rewrite is_own_cancel, Hown, cancel_idempotent.
Qed.

Lemma finish_twice_same_end_reconciles_once_witness :
  is_Some (spanRecorder odd_children)
  ∧ well_formed odd_children
  ∧ recorded (world_of (_finishIdleTransaction 1 12
                (world_of (_finishIdleTransaction 1 12 odd_children))))
    = recorded (world_of (_finishIdleTransaction 1 12 odd_children))
  ∧ heap (world_of (_finishIdleTransaction 1 12
                (world_of (_finishIdleTransaction 1 12 odd_children))))
    = heap (world_of (_finishIdleTransaction 1 12 odd_children)).
Proof.
  assert (Hwf : well_formed odd_children).
  { apply (bool_decide_unpack _). vm_compute. exact I. }
  assert (Hrec : is_Some (spanRecorder odd_children)) by (eexists; reflexivity).
  split; [exact Hrec|]. split; [exact Hwf|].
  exact (finish_twice_same_end_reconciles_once 1 12 odd_children Hrec Hwf).
Defined.

(** ** More on the heartbeat *)

Lemma append_assoc (s1 s2 s3 : string) : (s1 ++ s2) ++ s3 = s1 ++ (s2 ++ s3).
Proof.
  induction s1 as [|c s1 IH]; [reflexivity|].
  change (String c ((s1 ++ s2) ++ s3) = String c (s1 ++ (s2 ++ s3))). now f_equal.
Qed.

(** The tick of the alarm, seen from outside. *)
Lemma beat_alarm_status (fuel : nat) (w : World) (first : string) (rest : list string) :
  _activities w = first :: rest →
  same_string (reduce_concat first rest) (_prevHeartbeatString w) = true →
  (2 ≤ _heartbeatCounter w)%nat →
  Span.status (self (world_of (_beat fuel w))) = Some DeadlineExceeded
  ∧ Span.tags (self (world_of (_beat fuel w))) !! "heartbeat" = Some "failed".
Proof.
  intros Hkeys Hsame Hhigh.
  rewrite (beat_same_alarm fuel w first rest Hkeys Hsame Hhigh).
  destruct (finishIdleTransaction_status_tags fuel (clock w) (alarmed w))
    as [Hstatus Htags].
  destruct (alarmed_facts w) as (_ & _ & _ & Hst & Htg & _).
  unfold bind at 1 3.
  destruct (_finishIdleTransaction fuel (clock w) (alarmed w)) as [[] w1|err w1];
    simpl in Hstatus, Htags |- *; rewrite Hstatus, Htags; auto.
Qed.

(** X7. The signature is the plain concatenation of the ids, so it cannot
    tell the activity set [a; b ++ c] from the set [a ++ b; c]: a tick that
    finds the one after the other was stored counts it as unchanged, and at
    a counter of 2 or more finishes the transaction as stalled. *)
Theorem heartbeat_signature_confuses_regrouped_ids
    (fuel : nat) (w : World) (a b c : string) :
  _activities w = [a; b ++ c] →
  _prevHeartbeatString w = Some (reduce_concat (a ++ b) [c]) →
  ((_heartbeatCounter w < 2)%nat →
     ∃ w', _beat fuel w = Done tt w'
       ∧ _heartbeatCounter w' = S (_heartbeatCounter w))
  ∧ ((2 ≤ _heartbeatCounter w)%nat →
     Span.status (self (world_of (_beat fuel w))) = Some DeadlineExceeded).
Proof.
  intros Hkeys Hprev.
  assert (Hsame : same_string (reduce_concat a [b ++ c]) (_prevHeartbeatString w) = true).
  { rewrite Hprev. unfold same_string, reduce_concat. simpl.
    rewrite append_assoc. apply String.eqb_refl. }
  split.
  - intros Hlow. rewrite (beat_same_below fuel w a [b ++ c] Hkeys Hsame) by lia.
    eexists. split; reflexivity.
  - intros Hhigh. now apply (beat_alarm_status fuel w a [b ++ c]).
Qed.

Lemma heartbeat_signature_confuses_regrouped_ids_witness :
  let w := set_prevHeartbeatString (Some (reduce_concat "ab" ["c"]))
             (set_activities ["a"; "bc"] stalled) in
  _activities w = ["a"; "b" ++ "c"]
  ∧ _prevHeartbeatString w = Some (reduce_concat ("a" ++ "b") ["c"])
  ∧ (2 ≤ _heartbeatCounter w)%nat
  ∧ Span.status (self (world_of (_beat 1 w))) = Some DeadlineExceeded.
Proof.
  intros w. split; [reflexivity|]. split; [reflexivity|].
  split; [simpl; lia|].
  apply (proj2 (heartbeat_signature_confuses_regrouped_ids 1 w "a" "b" "c"
                  eq_refl eq_refl)).
  simpl. lia.
Defined.

Lemma well_formed_same (w w' : World) :
  recorded w' = recorded w → heap w' = heap w → well_formed w → well_formed w'.
Proof.
  unfold well_formed. intros -> Hheap Hwf.
  eapply Forall_impl; [exact Hwf|]. intros [|n]; simpl; [eauto|]. now rewrite Hheap.
Qed.

(** A finish on a transaction with the prototype's [finish] returns, with
    or without a recorder, and can be repeated. *)
Lemma finishIdleTransaction_returns (fuel : nat) (e : Q) (w : World) :
  well_formed w →
  Span.finish (self w) = PrototypeFinish →
  ∃ w1, _finishIdleTransaction (S fuel) e w = Done tt w1
    ∧ well_formed w1
    ∧ Span.finish (self w1) = PrototypeFinish.
Proof.
  intros Hwf Hproto. destruct (spanRecorder w) as [rec|] eqn:Hrec.
  - destruct (finishIdleTransaction_prototype fuel e w rec Hrec Hwf Hproto)
      as (w1 & Hrun & _ & Hwf1 & Hproto1). eauto.
  - rewrite finishIdleTransaction_no_recorder by exact Hrec.
    eexists. split; [reflexivity|]. split; [|exact Hproto].
    eapply well_formed_same; [| |exact Hwf]; reflexivity.
Qed.

(** One tick on a non-empty activity set, with the prototype's [finish]. *)
Lemma beat_step (fuel : nat) (w : World) (first : string) (rest : list string) :
  _activities w = first :: rest →
  well_formed w →
  Span.finish (self w) = PrototypeFinish →
  ∃ w', _beat (S fuel) w = Done tt w'
    ∧ _activities w' = first :: rest
    ∧ well_formed w'
    ∧ Span.finish (self w') = PrototypeFinish
    ∧ _prevHeartbeatString w' = Some (reduce_concat first rest)
    ∧ (same_string (reduce_concat first rest) (_prevHeartbeatString w) = true →
       _heartbeatCounter w' = S (_heartbeatCounter w)).
Proof.
  intros Hkeys Hwf Hproto.
  destruct (same_string (reduce_concat first rest) (_prevHeartbeatString w)) eqn:Hsame.
  2:{ rewrite (beat_changed (S fuel) w first rest Hkeys Hsame).
      eexists. split; [reflexivity|]. simpl. split; [exact Hkeys|].
      split; [eapply well_formed_same; [| |exact Hwf]; reflexivity|].
      split; [exact Hproto|]. split; [reflexivity|]. discriminate. }
  destruct (le_lt_dec 2 (_heartbeatCounter w)) as [Hhigh|Hlow].
  2:{ rewrite (beat_same_below (S fuel) w first rest Hkeys Hsame) by lia.
      eexists. split; [reflexivity|]. simpl. split; [exact Hkeys|].
      split; [eapply well_formed_same; [| |exact Hwf]; reflexivity|].
      split; [exact Hproto|]. split; reflexivity. }
  rewrite (beat_same_alarm (S fuel) w first rest Hkeys Hsame Hhigh).
  destruct (alarmed_facts w) as (_ & _ & Himpl & _ & _ & Hact).
  destruct (finishIdleTransaction_returns fuel (clock w) (alarmed w))
    as (w1 & Hrun & Hwf1 & Hproto1);
    [now apply well_formed_alarmed|congruence|].
  pose proof (finishIdleTransaction_bookkeeping (S fuel) (clock w) (alarmed w)) as Hb.
  rewrite Hrun in Hb. simpl in Hb. unfold bookkeeping in Hb.
  injection Hb as _ Hact1 _ _ Hcount1 _ _ _.
  unfold bind at 1. rewrite Hrun. run.
  eexists. split; [reflexivity|]. simpl.
  split; [now rewrite Hact1|].
  split; [eapply well_formed_same; [| |exact Hwf1]; reflexivity|].
  split; [exact Hproto1|]. split; [reflexivity|].
  intros _. exact Hcount1.
Qed.

(** X9. The safeguard is live: whatever the heartbeat has stored, if the
    activity set is not empty and stays as it is, the fourth tick at the
    latest finds the counter at 2 or more and marks the transaction
    [DeadlineExceeded] with the tag [heartbeat = failed]. (On a transaction
    whose [finish] is the prototype's, so that the ticks return.) *)
Theorem stall_detected_within_four_ticks (fuel : nat) (w : World) :
  _activities w ≠ [] →
  well_formed w →
  Span.finish (self w) = PrototypeFinish →
  ∃ w', beats (S fuel) 4 w = Done tt w'
    ∧ Span.status (self w') = Some DeadlineExceeded
    ∧ Span.tags (self w') !! "heartbeat" = Some "failed"
    ∧ _activities w' = _activities w.
Proof.
  intros Hsome Hwf Hproto.
  destruct (_activities w) as [|first rest] eqn:Hkeys; [congruence|].
  set (sig := reduce_concat first rest).
  assert (Hrefl : ∀ x, _prevHeartbeatString x = Some sig →
            same_string sig (_prevHeartbeatString x) = true).
  { intros x ->. apply String.eqb_refl. }
  destruct (beat_step fuel w first rest Hkeys Hwf Hproto)
    as (w1 & Hrun1 & Hkeys1 & Hwf1 & Hproto1 & Hprev1 & _).
  destruct (beat_step fuel w1 first rest Hkeys1 Hwf1 Hproto1)
    as (w2 & Hrun2 & Hkeys2 & Hwf2 & Hproto2 & Hprev2 & Hcount2).
  destruct (beat_step fuel w2 first rest Hkeys2 Hwf2 Hproto2)
    as (w3 & Hrun3 & Hkeys3 & Hwf3 & Hproto3 & Hprev3 & Hcount3).
  destruct (beat_step fuel w3 first rest Hkeys3 Hwf3 Hproto3)
    as (w4 & Hrun4 & Hkeys4 & _).
  specialize (Hcount2 (Hrefl w1 Hprev1)). specialize (Hcount3 (Hrefl w2 Hprev2)).
  destruct (beat_alarm_status (S fuel) w3 first rest Hkeys3 (Hrefl w3 Hprev3))
    as [Hstatus Htag]; [lia|].
  rewrite Hrun4 in Hstatus, Htag. simpl in Hstatus, Htag.
  exists w4. split.
  - cbn [beats]. unfold bind at 1. rewrite Hrun1. unfold bind at 1. rewrite Hrun2.
    unfold bind at 1. rewrite Hrun3. unfold bind at 1. now rewrite Hrun4.
  - auto.
Qed.

Lemma stall_detected_within_four_ticks_witness :
  _activities watching ≠ []
  ∧ well_formed watching
  ∧ Span.finish (self watching) = PrototypeFinish
  ∧ ∃ w', beats 1 4 watching = Done tt w'
      ∧ Span.status (self w') = Some DeadlineExceeded
      ∧ Span.tags (self w') !! "heartbeat" = Some "failed"
      ∧ _activities w' = _activities watching.
Proof.
  assert (Hwf : well_formed watching).
  { apply (bool_decide_unpack _). vm_compute. exact I. }
  assert (Hsome : _activities watching ≠ []) by discriminate.
  split; [exact Hsome|]. split; [exact Hwf|]. split; [reflexivity|].
  exact (stall_detected_within_four_ticks 0 watching Hsome Hwf eq_refl).
Defined.

(** ** At most one heartbeat *)

Lemma NoDup_fmap_filter {A B} (f : A → B) (P : A → Prop) `{∀ x, Decision (P x)}
    (l : list A) :
  NoDup (f <$> l) → NoDup (f <$> filter P l).
Proof.
  induction l as [|x l IH]; [trivial|]. rewrite fmap_cons, NoDup_cons.
  intros [Hx Hl]. rewrite filter_cons. destruct (decide (P x)); [|auto].
  rewrite fmap_cons. apply NoDup_cons. split; [|auto].
  intros Hin. apply Hx. apply list_elem_of_fmap in Hin as (y & -> & Hy).
  apply list_elem_of_fmap. exists y. split; [reflexivity|].
  now apply list_elem_of_filter in Hy as [_ Hy].
Qed.

Lemma one_heartbeat_bookkeeping (w w' : World) :
  bookkeeping w' = bookkeeping w → one_heartbeat w → one_heartbeat w'.
Proof.
  unfold bookkeeping, one_heartbeat. intros Hb. injection Hb as _ _ -> _ _ _ -> ->.
  trivial.
Qed.

(** Dropping a timer keeps the invariant; dropping the heartbeat's leaves
    no heartbeat timer pending. *)
Lemma one_heartbeat_clear (id : nat) (w : World) :
  one_heartbeat w →
  one_heartbeat (set_timers (filter (λ t, timer_id t ≠ id) (timers w)) w).
Proof.
  intros (Hnd & Hlt & Hhb). unfold one_heartbeat. simpl.
  split; [now apply NoDup_fmap_filter|].
  split; apply Forall_forall; intros t Hin;
    apply list_elem_of_filter in Hin as [_ Hin].
  - rewrite Forall_forall in Hlt. auto.
  - rewrite Forall_forall in Hhb. auto.
Qed.

Lemma cleared_no_beat (w : World) (t : Timer) :
  one_heartbeat w → t ∈ timers (cleared w) → is_beat t = false.
Proof.
  intros (_ & _ & Hhb) Hin. unfold cleared in Hin. simpl in Hin.
  apply list_elem_of_filter in Hin as [Hne Hin].
  rewrite Forall_forall in Hhb. specialize (Hhb t Hin).
  destruct (is_beat t); [|reflexivity]. now specialize (Hhb eq_refl).
Qed.

(** A new timer under the next handle. *)
Lemma one_heartbeat_arm (w' : World) (old : list Timer) (t : Timer) :
  NoDup (timer_id <$> old) →
  Forall (λ t0, (timer_id t0 < timer_id t)%nat) old →
  Forall (λ t0, is_beat t0 = true → timer_id t0 = _heartbeatTimer w') old →
  (is_beat t = true → timer_id t = _heartbeatTimer w') →
  timers w' = (old ++ [t])%list →
  next_timer w' = S (timer_id t) →
  one_heartbeat w'.
Proof.
  intros Hnd Hlt Hhb Ht Htimers Hnext. unfold one_heartbeat.
  rewrite Htimers, Hnext. split; [|split].
  - rewrite fmap_app. apply NoDup_app. split; [exact Hnd|]. split.
    + intros x Hin Hx. apply list_elem_of_fmap in Hin as (t0 & -> & Hin0).
      simpl in Hx. apply list_elem_of_singleton in Hx.
      rewrite Forall_forall in Hlt. specialize (Hlt t0 Hin0). lia.
    + simpl. apply NoDup_singleton.
  - apply Forall_app. split.
    + eapply Forall_impl; [exact Hlt|]. simpl. intros; lia.
    + constructor; [lia|constructor].
  - apply Forall_app. split; [exact Hhb|]. constructor; [exact Ht|constructor].
Qed.

(** The timers after a tick, however it ends: the heartbeat's old timer is
    gone, and either the tick threw out of the finish and armed nothing, or
    it armed the next tick under the next handle. *)
Lemma beat_timers (fuel : nat) (w : World) :
  let w' := world_of (_beat fuel w) in
  (timers w' = timers (cleared w)
   ∧ next_timer w' = next_timer w
   ∧ _heartbeatTimer w' = _heartbeatTimer w)
  ∨ (timers w' = (timers (cleared w) ++ [mkTimer (next_timer w) 5000 CbBeat])%list
     ∧ next_timer w' = S (next_timer w)
     ∧ _heartbeatTimer w' = next_timer w).
Proof.
  intros w'. subst w'.
  destruct (_activities w) as [|first rest] eqn:Hkeys.
  { rewrite beat_empty by exact Hkeys. right. repeat split. }
  destruct (same_string (reduce_concat first rest) (_prevHeartbeatString w)) eqn:Hsame.
  2:{ rewrite (beat_changed fuel w first rest Hkeys Hsame). right. repeat split. }
  destruct (le_lt_dec 2 (_heartbeatCounter w)) as [Hhigh|Hlow].
  2:{ rewrite (beat_same_below fuel w first rest Hkeys Hsame) by lia.
      right. repeat split. }
  rewrite (beat_same_alarm fuel w first rest Hkeys Hsame Hhigh).
  pose proof (finishIdleTransaction_bookkeeping fuel (clock w) (alarmed w)) as Hb.
  unfold bookkeeping in Hb. injection Hb as _ _ Hhb _ _ _ Htimers Hnext.
  match goal with
  | |- context [world_of ?o] => set (w' := world_of o)
  end.
  assert (Hw' : w' =
            match _finishIdleTransaction fuel (clock w) (alarmed w) with
            | Done _ w1 =>
                pinged (set_prevHeartbeatString (Some (reduce_concat first rest)) w1)
            | Thrown _ w1 => w1
            end).
  { subst w'. unfold bind.
    destruct (_finishIdleTransaction fuel (clock w) (alarmed w)); reflexivity. }
  clearbody w'.
  destruct (_finishIdleTransaction fuel (clock w) (alarmed w)) as [[] w1|err w1];
    simpl in Hhb, Htimers, Hnext; subst w'; simpl.
  - right. rewrite Htimers, Hnext. repeat split.
  - left. rewrite Htimers, Hnext, Hhb. repeat split.
Qed.

Lemma one_heartbeat_beat (fuel : nat) (w : World) :
  one_heartbeat w → one_heartbeat (world_of (_beat fuel w)).
Proof.
  intros Hinv.
  pose proof (one_heartbeat_clear (_heartbeatTimer w) w Hinv) as (Hnd & Hlt & _).
  simpl in Hnd, Hlt.
  assert (Hnone : Forall (λ t, is_beat t = false) (timers (cleared w))).
  { apply Forall_forall. intros t. now apply cleared_no_beat. }
  destruct (beat_timers fuel w) as [(Ht & Hn & Hh)|(Ht & Hn & Hh)].
  - unfold one_heartbeat. rewrite Ht, Hn. split; [exact Hnd|]. split; [exact Hlt|].
    eapply Forall_impl; [exact Hnone|]. simpl. intros t ->. discriminate.
  - eapply (one_heartbeat_arm _ (timers (cleared w)) (mkTimer (next_timer w) 5000 CbBeat));
      [exact Hnd|exact Hlt| | |exact Ht|exact Hn].
    + eapply Forall_impl; [exact Hnone|]. simpl. intros t ->. discriminate.
    + intros _. simpl. now rewrite Hh.
Qed.

(** The world a pop leaves. *)
Lemma popActivity_world (spanId : string) (w : World) :
  let w0 := set_activities (activities_delete spanId (_activities w)) w in
  _popActivity ThisTransaction spanId w =
    Done tt
      (if bool_decide (activities_delete spanId (_activities w) = [])
       then set_next_timer (S (next_timer w))
              (set_timers
                 (timers w ++ [mkTimer (next_timer w) (_idleTimeout w)
                                 (CbFinishIdle (clock w + _idleTimeout w / 1000)%Q)])%list
                 w0)
       else w0).
Proof.
  intros w0. subst w0. unfold _popActivity. run.
  destruct (is_active spanId (_activities w)) eqn:Hact; simpl.
  - destruct (activities_delete spanId (_activities w)); reflexivity.
  - rewrite (activities_delete_absent _ _ Hact).
    destruct (_activities w) eqn:Hkeys; simpl; f_equal; destruct w; simpl in *;
      now subst.
Qed.

Lemma one_heartbeat_pop (spanId : string) (w : World) :
  one_heartbeat w → one_heartbeat (world_of (_popActivity ThisTransaction spanId w)).
Proof.
  intros Hinv. rewrite popActivity_world. simpl.
  destruct (bool_decide _); [|exact Hinv].
  destruct Hinv as (Hnd & Hlt & Hhb).
  eapply (one_heartbeat_arm _ (timers w)
            (mkTimer (next_timer w) (_idleTimeout w)
               (CbFinishIdle (clock w + _idleTimeout w / 1000)%Q)));
    [exact Hnd|exact Hlt|exact Hhb|discriminate|reflexivity|reflexivity].
Qed.

Lemma deref_bookkeeping (r : ref) (w : World) :
  bookkeeping (world_of (deref r w)) = bookkeeping w.
Proof. unfold deref. now destruct (read w r). Qed.

Lemma store_bookkeeping (r : ref) (sp : Span.t) (w : World) :
  bookkeeping (store r sp w) = bookkeeping w.
Proof. now destruct r. Qed.

Lemma add_bookkeeping (span : ref) (w : World) :
  bookkeeping (world_of (add span w)) = bookkeeping w.
Proof.
  destruct (spanRecorder w) as [rec|] eqn:Hrec.
  2:{ unfold add, bind at 1, gets. now rewrite Hrec. }
  destruct (read w span) as [sp|] eqn:Hread.
  - rewrite (add_world span w rec sp Hrec Hread). simpl. apply store_bookkeeping.
  - unfold add, bind at 1, gets. rewrite Hrec. unfold update, bind at 1 2, deref.
    now rewrite Hread.
Qed.

(** [initSpanRecorder] is [add(this)] on the recorder the transaction has,
    or on the one that is created when it has none. *)
Lemma initSpanRecorder_run (maxlen : option nat) (w : World) :
  initSpanRecorder maxlen w =
    add RThis
      match spanRecorder w with
      | Some _ => w
      | None =>
          set_spanRecorder
            (Some (new_IdleTransactionSpanRecorder maxlen
                     (Some IdleTransaction_popActivity)
                     (Some IdleTransaction_pushActivity))) w
      end.
Proof.
  unfold initSpanRecorder, bind, gets. cbv beta.
  destruct (spanRecorder w) as [rec|]; reflexivity.
Qed.

Lemma initSpanRecorder_bookkeeping (maxlen : option nat) (w : World) :
  bookkeeping (world_of (initSpanRecorder maxlen w)) = bookkeeping w.
Proof.
  rewrite initSpanRecorder_run, add_bookkeeping.
  now destruct (spanRecorder w).
Qed.

Lemma Span_finish_bookkeeping (fuel : nat) (span : ref) (arg : option Q) (w : World) :
  bookkeeping (world_of (Span_finish fuel span arg w)) = bookkeeping w.
Proof.
  destruct span as [|n]; [apply Span_finish_this_bookkeeping|].
  destruct fuel as [|fuel]; [reflexivity|].
  cbn [Span_finish]. unfold bind at 1, deref.
  destruct (read w (RChild n)) as [sp|] eqn:Hread; [|reflexivity].
  destruct (Span.finish sp) as [|pop] eqn:Himpl.
  - rewrite (Span_prototype_finish_run _ arg w sp Hread).
    now destruct (Span.endTimestamp sp).
  - unfold bind at 1.
    now rewrite (Span_finish_patched fuel (RChild n) arg w sp pop Hread Himpl).
Qed.

Lemma one_heartbeat_fire (fuel id : nat) (w : World) :
  one_heartbeat w → one_heartbeat (world_of (fire fuel id w)).
Proof.
  intros Hinv. unfold fire, bind at 1, gets.
  destruct (list_find _ (timers w)) as [[i t]|]; [|exact Hinv].
  unfold bind, clearTimeout, modify.
  pose proof (one_heartbeat_clear id w Hinv) as Hinv0.
  destruct (timer_callback_of t) as [|e]; simpl.
  - now apply one_heartbeat_beat.
  - eapply one_heartbeat_bookkeeping; [|exact Hinv0].
    apply finishIdleTransaction_bookkeeping.
Qed.

Lemma one_heartbeat_happen (fuel : nat) (ev : event) (w : World) :
  one_heartbeat w → one_heartbeat (world_of (happen fuel ev w)).
Proof.
  intros Hinv. destruct ev; simpl.
  - now apply one_heartbeat_fire.
  - exact Hinv.
  - exact Hinv.
  - eapply one_heartbeat_bookkeeping; [apply add_bookkeeping|exact Hinv].
  - eapply one_heartbeat_bookkeeping; [apply Span_finish_bookkeeping|exact Hinv].
  - eapply one_heartbeat_bookkeeping; [apply initSpanRecorder_bookkeeping|exact Hinv].
  - exact Hinv.
  - now apply one_heartbeat_pop.
Qed.

Lemma one_heartbeat_play (fuel : nat) (history : list event) (w : World) :
  one_heartbeat w → one_heartbeat (play fuel history w).
Proof.
  revert w. induction history as [|ev history IH]; intros w Hinv; [exact Hinv|].
  simpl. apply IH. now apply one_heartbeat_happen.
Qed.

Lemma one_heartbeat_at_most_one (w : World) :
  one_heartbeat w → (length (filter (λ t, is_beat t = true) (timers w)) ≤ 1)%nat.
Proof.
  intros (Hnd & _ & Hhb).
  assert (Hids : Forall (λ t, timer_id t = _heartbeatTimer w)
                   (filter (λ t, is_beat t = true) (timers w))).
  { apply Forall_forall. intros t Hin. apply list_elem_of_filter in Hin as [Hb Hin].
    rewrite Forall_forall in Hhb. auto. }
  pose proof (NoDup_fmap_filter timer_id (λ t, is_beat t = true) _ Hnd) as Hnd'.
  destruct (filter _ (timers w)) as [|t1 [|t2 l]]; simpl; [lia|lia|].
  exfalso. inversion Hids as [|? ? H1 Hrest]; subst.
  inversion Hrest as [|? ? H2 _]; subst.
  simpl in Hnd'. apply NoDup_cons in Hnd' as [Hnot _]. apply Hnot.
  rewrite H1, <- H2. left.
Qed.

(** X8. Whatever happens to a transaction after its construction (timers
    firing in any order, pushes and pops, spans created, added and
    finished, calls that throw), at most one heartbeat timer is pending:
    [_beat] clears the handle it holds before it arms the next. *)
Theorem at_most_one_heartbeat_timer
    (fuel : nat) (history : list event) (spanId : string) (now : Q)
    (idleTimeout : option Q) :
  (length (filter (λ t, is_beat t = true)
             (timers (play fuel history
                        (world_of (new_IdleTransaction spanId now idleTimeout)))))
   ≤ 1)%nat.
Proof.
  apply one_heartbeat_at_most_one, one_heartbeat_play.
  unfold one_heartbeat. simpl. split; [|split].
  - apply NoDup_singleton.
  - constructor; [simpl; lia|constructor].
  - constructor; [reflexivity|constructor].
Qed.

(** ** A transaction that went through [initSpanRecorder] *)

Lemma undelivered_refl (w : World) : patched w → undelivered w w.
Proof. intros Hp. now split. Qed.

Lemma undelivered_trans (w1 w2 w3 : World) :
  undelivered w1 w2 → undelivered w2 w3 → undelivered w1 w3.
Proof. unfold undelivered. intuition congruence. Qed.

Lemma undelivered_same (w w' : World) :
  self w' = self w → sink w' = sink w → patched w → undelivered w w'.
Proof.
  intros Hself Hsink Hp. unfold undelivered, patched. rewrite Hself. auto.
Qed.

Lemma finishIdleTransaction_patched (fuel : nat) (e : Q) (w : World) :
  patched w → undelivered w (world_of (_finishIdleTransaction fuel e w)).
Proof.
  intros Hp. apply undelivered_same; [| |exact Hp];
    unfold _finishIdleTransaction, bind at 1, gets;
    (destruct (spanRecorder w) as [rec|]; [|reflexivity]);
    unfold bind at 1;
    pose proof (filterM_keep_span_frame e (IdleTransactionSpanRecorder.spans rec) w) as Hf;
    (destruct (filterM (keep_span e) (IdleTransactionSpanRecorder.spans rec) w)
       as [l' w1|err w1]; simpl in Hf;
     [|simpl; first [now apply frame_self|now apply frame_sink]]);
    run; destruct Hp as [pop Hp];
    (erewrite Span_finish_patched;
       [|reflexivity|simpl; rewrite (frame_self _ _ Hf); exact Hp]);
    simpl; first [now apply frame_self|now apply frame_sink].
Qed.

Lemma patched_alarmed (w : World) : patched w → undelivered w (alarmed w).
Proof.
  intros [pop Hp]. unfold undelivered, patched, alarmed. simpl. eauto.
Qed.

Lemma beat_patched (fuel : nat) (w : World) :
  patched w → undelivered w (world_of (_beat fuel w)).
Proof.
  intros Hp.
  destruct (_activities w) as [|first rest] eqn:Hkeys.
  { rewrite beat_empty by exact Hkeys. now apply undelivered_same. }
  destruct (same_string (reduce_concat first rest) (_prevHeartbeatString w)) eqn:Hsame.
  2:{ rewrite (beat_changed fuel w first rest Hkeys Hsame). now apply undelivered_same. }
  destruct (le_lt_dec 2 (_heartbeatCounter w)) as [Hhigh|Hlow].
  2:{ rewrite (beat_same_below fuel w first rest Hkeys Hsame) by lia.
      now apply undelivered_same. }
  rewrite (beat_same_alarm fuel w first rest Hkeys Hsame Hhigh).
  pose proof (patched_alarmed w Hp) as Ha.
  pose proof (finishIdleTransaction_patched fuel (clock w) (alarmed w) (proj1 Ha)) as Hfin.
  eapply undelivered_trans; [exact Ha|].
  unfold bind at 1.
  destruct (_finishIdleTransaction fuel (clock w) (alarmed w)) as [[] w1|err w1];
    simpl in Hfin |- *; [|exact Hfin].
  eapply undelivered_trans; [exact Hfin|].
  apply undelivered_same; [reflexivity|reflexivity|exact (proj1 Hfin)].
Qed.

Lemma fire_patched (fuel id : nat) (w : World) :
  patched w → undelivered w (world_of (fire fuel id w)).
Proof.
  intros Hp. unfold fire, bind at 1, gets.
  destruct (list_find _ (timers w)) as [[i t]|]; [|now apply undelivered_refl].
  unfold bind, clearTimeout, modify.
  set (w0 := set_timers (filter (λ t0, timer_id t0 ≠ id) (timers w)) w).
  assert (H0 : undelivered w w0) by now apply undelivered_same.
  eapply undelivered_trans; [exact H0|].
  destruct (timer_callback_of t) as [|e]; simpl.
  - exact (beat_patched fuel w0 (proj1 H0)).
  - exact (finishIdleTransaction_patched fuel e w0 (proj1 H0)).
Qed.

Lemma add_patched (span : ref) (w : World) :
  patched w → undelivered w (world_of (add span w)).
Proof.
  intros Hp.
  destruct (spanRecorder w) as [rec|] eqn:Hrec.
  2:{ unfold add, bind at 1, gets. rewrite Hrec. now apply undelivered_refl. }
  destruct (read w span) as [sp|] eqn:Hread.
  - rewrite (add_world span w rec sp Hrec Hread).
    destruct span as [|n]; simpl in *.
    + injection Hread as <-. unfold undelivered, patched. simpl. eauto.
    + now apply undelivered_same.
  - unfold add, bind at 1, gets. rewrite Hrec. unfold update, bind at 1 2, deref.
    rewrite Hread. now apply undelivered_refl.
Qed.

Lemma Span_finish_patched_world (fuel : nat) (span : ref) (arg : option Q) (w : World) :
  patched w → undelivered w (world_of (Span_finish fuel span arg w)).
Proof.
  intros Hp. destruct span as [|n].
  { destruct Hp as [pop Hpop].
    rewrite (Span_finish_patched fuel RThis arg w (self w) pop eq_refl Hpop).
    apply undelivered_refl. now exists pop. }
  destruct fuel as [|fuel]; [now apply undelivered_refl|].
  cbn [Span_finish]. unfold bind at 1, deref.
  destruct (read w (RChild n)) as [sp|] eqn:Hread; [|now apply undelivered_refl].
  destruct (Span.finish sp) as [|pop] eqn:Himpl.
  - rewrite (Span_prototype_finish_run _ arg w sp Hread).
    destruct (Span.endTimestamp sp); now apply undelivered_same.
  - unfold bind at 1.
    rewrite (Span_finish_patched fuel (RChild n) arg w sp pop Hread Himpl).
    now apply undelivered_refl.
Qed.

Lemma happen_patched (fuel : nat) (ev : event) (w : World) :
  patched w → undelivered w (world_of (happen fuel ev w)).
Proof.
  intros Hp. destruct ev; cbn [happen].
  - now apply fire_patched.
  - now apply undelivered_same.
  - now apply undelivered_same.
  - now apply add_patched.
  - now apply Span_finish_patched_world.
  - rewrite initSpanRecorder_run.
    eapply undelivered_trans; [|apply add_patched].
    + destruct (spanRecorder w); now apply undelivered_same.
    + destruct Hp as [pop Hp]. exists pop. now destruct (spanRecorder w).
  - now apply undelivered_same.
  - rewrite popActivity_world. simpl.
    destruct (bool_decide _); now apply undelivered_same.
Qed.

Lemma play_patched (fuel : nat) (history : list event) (w : World) :
  patched w → undelivered w (play fuel history w).
Proof.
  revert w. induction history as [|ev history IH]; intros w Hp;
    [now apply undelivered_refl|].
  simpl. pose proof (happen_patched fuel ev w Hp) as Hstep.
  eapply undelivered_trans; [exact Hstep|]. apply IH. exact (proj1 Hstep).
Qed.

(** X10. [initSpanRecorder] hands the transaction itself to [add], which
    replaces the transaction's own [finish] by the self-calling arrow
    function. From then on, whatever happens (timers firing, a stall
    detected, a deferred finish, a direct [finish()] on the transaction),
    nothing is ever handed to the sink and the transaction never gets an
    end: every path to the underlying finish goes through that property. *)
Theorem never_delivered_after_initSpanRecorder
    (fuel : nat) (maxlen : option nat) (history : list event) (w : World) :
  let w' := play fuel history (world_of (initSpanRecorder maxlen w)) in
  sink w' = sink w
  ∧ Span.endTimestamp (self w') = Span.endTimestamp (self w).
Proof.
  intros w'. subst w'.
  assert (Hinit : patched (world_of (initSpanRecorder maxlen w))
                  ∧ sink (world_of (initSpanRecorder maxlen w)) = sink w
                  ∧ Span.endTimestamp (self (world_of (initSpanRecorder maxlen w)))
                    = Span.endTimestamp (self w)).
  { rewrite initSpanRecorder_run.
    destruct (spanRecorder w) as [rec|] eqn:Hrec.
    - rewrite (add_world RThis w rec (self w) Hrec eq_refl).
      unfold patched. simpl. eauto.
    - erewrite add_world; [|reflexivity|reflexivity].
      unfold patched. simpl. eauto. }
  destruct Hinit as (Hp & Hsink & Hend).
  destruct (play_patched fuel history _ Hp) as (_ & Hsink' & Hend').
  split; congruence.
Qed.

(** ** [initSpanRecorder] *)

(** X11. [initSpanRecorder(maxlen)] on a transaction without a recorder,
    for any capacity but 0: it creates the recorder with the two callbacks
    crossed, the transaction is the one span the recorder holds, the
    transaction's own [finish] is replaced by the recorder's arrow function,
    and the call then throws [TypeError] out of the callback, the activity
    set untouched. On a transaction that has a recorder the argument is
    ignored: the call does the same whatever [maxlen] says, and replaces the
    transaction's [finish] once more, with the callback of the recorder it
    found. *)
Theorem initSpanRecorder_creates_once (maxlen : option nat) (w : World) :
  (spanRecorder w = None →
   maxlen ≠ Some 0%nat →
   ∃ w', initSpanRecorder maxlen w = Thrown TypeError w'
     ∧ recorded w' = [RThis]
     ∧ (IdleTransactionSpanRecorder._pushActivity <$> spanRecorder w')
       = Some (Some IdleTransaction_popActivity)
     ∧ (IdleTransactionSpanRecorder._popActivity <$> spanRecorder w')
       = Some (Some IdleTransaction_pushActivity)
     ∧ Span.finish (self w') = PatchedFinish (Some IdleTransaction_pushActivity)
     ∧ _activities w' = _activities w)
  ∧ (∀ rec, spanRecorder w = Some rec →
     (∀ maxlen', initSpanRecorder maxlen w = initSpanRecorder maxlen' w)
     ∧ Span.finish (self (world_of (initSpanRecorder maxlen w)))
       = PatchedFinish (IdleTransactionSpanRecorder._popActivity rec)).
Proof.
  split.
  - intros Hnone Hroom. rewrite initSpanRecorder_run, Hnone.
    unfold add, update. run. unfold deref. simpl.
    eexists. split; [reflexivity|]. unfold recorded, SpanRecorder_add. simpl.
    split; [|repeat split].
    destruct maxlen as [[|n]|]; [congruence| |reflexivity].
    now replace (1 - S n)%nat with 0%nat by lia.
  - intros rec Hrec. split.
    + intros maxlen'. now rewrite !initSpanRecorder_run, Hrec.
    + rewrite initSpanRecorder_run, Hrec.
      now rewrite (add_world RThis w rec (self w) Hrec eq_refl).
Qed.

Lemma initSpanRecorder_creates_once_witness :
  spanRecorder new_transaction = None
  ∧ (∃ w', initSpanRecorder (Some 1000%nat) new_transaction = Thrown TypeError w'
       ∧ recorded w' = [RThis]
       ∧ Span.finish (self w') = PatchedFinish (Some IdleTransaction_pushActivity))
  ∧ is_Some (spanRecorder recording_transaction)
  ∧ initSpanRecorder (Some 5%nat) recording_transaction
    = initSpanRecorder None recording_transaction.
Proof.
  split; [reflexivity|]. split.
  - destruct (proj1 (initSpanRecorder_creates_once (Some 1000%nat) new_transaction)
                eq_refl) as (w' & Hrun & Hrec & _ & _ & Hfin & _); [discriminate|].
    exists w'. split; [exact Hrun|]. split; [exact Hrec|exact Hfin].
  - split; [eexists; vm_compute; reflexivity|].
    refine (proj1 (proj2 (initSpanRecorder_creates_once (Some 5%nat) recording_transaction)
                     _ _) None).
    vm_compute. reflexivity.
Defined.

(** ** The deferred finish *)

Lemma list_find_fresh (id : nat) (old : list Timer) (t : Timer) :
  Forall (λ t0, (timer_id t0 < id)%nat) old →
  timer_id t = id →
  list_find (λ t0, timer_id t0 = id) (old ++ [t])%list = Some (length old, t).
Proof.
  intros Hlt Hid. induction old as [|x old IH]; simpl.
  - rewrite decide_True by exact Hid. reflexivity.
  - inversion Hlt as [|? ? Hx Hold]; subst.
    rewrite decide_False by lia. rewrite (IH Hold). reflexivity.
Qed.

Lemma filter_fresh (id : nat) (old : list Timer) (t : Timer) :
  Forall (λ t0, (timer_id t0 < id)%nat) old →
  timer_id t = id →
  filter (λ t0, timer_id t0 ≠ id) (old ++ [t])%list = old.
Proof.
  intros Hlt Hid. rewrite filter_app, filter_cons.
  rewrite decide_False by (intros Hne; now apply Hne).
  rewrite filter_nil, app_nil_r. apply filter_all.
  eapply Forall_impl; [exact Hlt|]. simpl. intros; lia.
Qed.

(** X12. The boundary of a deferred finish is fixed when the activity set
    drains, not when the timer fires: after the pop that empties the set at
    clock [t0], the timer it set runs, whenever the host fires it, exactly
    [_finishIdleTransaction(t0 + _idleTimeout / 1000)], on the world the pop
    left with the clock moved and that timer gone. *)
Theorem deferred_finish_uses_drain_time
    (fuel : nat) (spanId : string) (later : Q) (w : World) :
  one_heartbeat w →
  activities_delete spanId (_activities w) = [] →
  (_popActivity ThisTransaction spanId ;;; advance later ;;; fire fuel (next_timer w)) w
  = _finishIdleTransaction fuel (clock w + _idleTimeout w / 1000)%Q
      (set_clock later
         (set_next_timer (S (next_timer w)) (set_activities [] w))).
Proof.
  intros (_ & Hlt & _) Hdrained. unfold bind at 1.
  rewrite popActivity_world. simpl. rewrite Hdrained. simpl.
  unfold bind at 1, advance, modify. unfold fire, bind at 1, gets. simpl.
  rewrite (list_find_fresh (next_timer w) (timers w)) by (exact Hlt || reflexivity).
  unfold bind, clearTimeout, modify. simpl.
  rewrite (filter_fresh (next_timer w) (timers w)) by (exact Hlt || reflexivity).
  reflexivity.
Qed.

Lemma deferred_finish_uses_drain_time_witness :
  one_heartbeat draining
  ∧ activities_delete "a" (_activities draining) = []
  ∧ (_popActivity ThisTransaction "a" ;;; advance 12.6 ;;; fire 1 (next_timer draining))
      draining
    = _finishIdleTransaction 1 (clock draining + _idleTimeout draining / 1000)%Q
        (set_clock 12.6
           (set_next_timer (S (next_timer draining)) (set_activities [] draining))).
Proof.
  assert (Hinv : one_heartbeat draining).
  { unfold one_heartbeat. simpl. split; [apply NoDup_singleton|].
    split; (constructor; [simpl; auto|constructor]). }
  assert (Hdrained : activities_delete "a" (_activities draining) = [])
    by (vm_compute; reflexivity).
  split; [exact Hinv|]. split; [exact Hdrained|].
  exact (deferred_finish_uses_drain_time 1 "a" 12.6 draining Hinv Hdrained).
Defined.

(** ** The boundary and what it keeps *)

Lemma kept_monotone (w : World) (e1 e2 : Q) (r : ref) :
  (e1 <= e2)%Q → kept w e1 r → kept w e2 r.
Proof.
  intros Hle. unfold kept. destruct (read w r) as [sp|]; [|trivial].
  destruct (is_own w sp); [trivial|]. simpl.
  intros Hk. apply Is_true_true in Hk. apply Qlt_bool_true in Hk.
  apply Is_true_true. apply Qlt_bool_true. eapply Qlt_le_trans; eassumption.
Qed.

(** X17. A later boundary never drops what an earlier one keeps: the spans
    the recorder holds after [_finishIdleTransaction(e1)] are among those it
    holds after [_finishIdleTransaction(e2)] on the same transaction, when
    [e1 <= e2]. *)
Theorem later_end_keeps_more (fuel : nat) (e1 e2 : Q) (w : World) :
  is_Some (spanRecorder w) →
  well_formed w →
  (e1 <= e2)%Q →
  ∀ r, r ∈ recorded (world_of (_finishIdleTransaction fuel e1 w)) →
       r ∈ recorded (world_of (_finishIdleTransaction fuel e2 w)).
Proof.
  intros [rec Hrec] Hwf Hle r.
  destruct (finishIdleTransaction_after fuel e1 w rec Hrec Hwf) as (Hrec1 & _).
  destruct (finishIdleTransaction_after fuel e2 w rec Hrec Hwf) as (Hrec2 & _).
  unfold recorded. rewrite Hrec1, Hrec2. simpl.
  rewrite !list_elem_of_filter. intros [Hk Hin]. split; [|exact Hin].
  now apply (kept_monotone w e1 e2).
Qed.

Lemma later_end_keeps_more_witness :
  is_Some (spanRecorder odd_children)
  ∧ well_formed odd_children
  ∧ (12 <= 13.5)%Q
  ∧ ∀ r, r ∈ recorded (world_of (_finishIdleTransaction 1 12 odd_children)) →
         r ∈ recorded (world_of (_finishIdleTransaction 1 13.5 odd_children)).
Proof.
  assert (Hwf : well_formed odd_children).
  { apply (bool_decide_unpack _). vm_compute. exact I. }
  assert (Hrec : is_Some (spanRecorder odd_children)) by (eexists; reflexivity).
  assert (Hle : (12 <= 13.5)%Q) by discriminate.
  split; [exact Hrec|]. split; [exact Hwf|]. split; [exact Hle|].
  exact (later_end_keeps_more 1 12 13.5 odd_children Hrec Hwf Hle).
Defined.

(** * Finishing more than once *)

(** ** The sink *)

Lemma delivered_once_quiet (w w' : World) :
  quiet w w' → delivered_once w → delivered_once w'.
Proof. unfold quiet, delivered_once. intros [-> ->]. trivial. Qed.

Lemma quiet_frame (w w' : World) : frame w' = frame w → quiet w w'.
Proof.
  intros Hframe. split; [now apply frame_sink|now rewrite (frame_self _ _ Hframe)].
Qed.

(** The underlying finish delivers an open transaction and closes it; it
    delivers nothing when the end is set. *)
Lemma delivered_once_flushed (arg : option Q) (w : World) :
  delivered_once w → delivered_once (flushed arg w).
Proof.
  intros [Hlen Hopen]. unfold flushed.
  destruct (Span.endTimestamp (self w)) as [q|] eqn:Hend.
  { split; [exact Hlen|]. intros Hnone. rewrite Hnone in Hend. discriminate. }
  split; simpl.
  - rewrite (Hopen eq_refl). simpl. lia.
  - discriminate.
Qed.

Lemma delivered_once_Span_finish (fuel : nat) (span : ref) (arg : option Q) (w : World) :
  delivered_once w → delivered_once (world_of (Span_finish fuel span arg w)).
Proof.
  intros Honce. destruct span as [|n].
  { destruct (Span_finish_this fuel arg w) as [->|[_ ->]]; [exact Honce|].
    now apply delivered_once_flushed. }
  destruct fuel as [|fuel]; [exact Honce|].
  cbn [Span_finish]. unfold bind at 1, deref.
  destruct (read w (RChild n)) as [sp|] eqn:Hread; [|exact Honce].
  destruct (Span.finish sp) as [|pop] eqn:Himpl.
  - rewrite (Span_prototype_finish_run _ arg w sp Hread).
    destruct (Span.endTimestamp sp); [exact Honce|].
    eapply delivered_once_quiet; [|exact Honce]. now split.
  - unfold bind at 1.
    now rewrite (Span_finish_patched fuel (RChild n) arg w sp pop Hread Himpl).
Qed.

Lemma delivered_once_finishIdleTransaction (fuel : nat) (e : Q) (w : World) :
  delivered_once w → delivered_once (world_of (_finishIdleTransaction fuel e w)).
Proof.
  intros Honce. unfold _finishIdleTransaction, bind at 1, gets.
  destruct (spanRecorder w) as [rec|];
    [|eapply delivered_once_quiet; [|exact Honce]; now split].
  unfold bind at 1.
  pose proof (filterM_keep_span_frame e (IdleTransactionSpanRecorder.spans rec) w) as Hf.
  destruct (filterM (keep_span e) (IdleTransactionSpanRecorder.spans rec) w)
    as [l' w1|err w1]; simpl in Hf.
  2:{ eapply delivered_once_quiet; [|exact Honce]. now apply quiet_frame. }
  run. apply delivered_once_Span_finish.
  eapply delivered_once_quiet; [|exact Honce].
  destruct (quiet_frame _ _ Hf) as [Hsink Hend]. now split.
Qed.

Lemma delivered_once_beat (fuel : nat) (w : World) :
  delivered_once w → delivered_once (world_of (_beat fuel w)).
Proof.
  intros Honce.
  destruct (_activities w) as [|first rest] eqn:Hkeys.
  { rewrite beat_empty by exact Hkeys.
    eapply delivered_once_quiet; [|exact Honce]. now split. }
  destruct (same_string (reduce_concat first rest) (_prevHeartbeatString w)) eqn:Hsame.
  2:{ rewrite (beat_changed fuel w first rest Hkeys Hsame).
      eapply delivered_once_quiet; [|exact Honce]. now split. }
  destruct (le_lt_dec 2 (_heartbeatCounter w)) as [Hhigh|Hlow].
  2:{ rewrite (beat_same_below fuel w first rest Hkeys Hsame) by lia.
      eapply delivered_once_quiet; [|exact Honce]. now split. }
  rewrite (beat_same_alarm fuel w first rest Hkeys Hsame Hhigh).
  assert (Ha : delivered_once (alarmed w))
    by (eapply delivered_once_quiet; [|exact Honce]; now split).
  pose proof (delivered_once_finishIdleTransaction fuel (clock w) (alarmed w) Ha) as Hfin.
  unfold bind at 1.
  destruct (_finishIdleTransaction fuel (clock w) (alarmed w)) as [[] w1|err w1];
    simpl in Hfin |- *; [|exact Hfin].
  eapply delivered_once_quiet; [|exact Hfin]. now split.
Qed.

Lemma delivered_once_fire (fuel id : nat) (w : World) :
  delivered_once w → delivered_once (world_of (fire fuel id w)).
Proof.
  intros Honce. unfold fire, bind at 1, gets.
  destruct (list_find _ (timers w)) as [[i t]|]; [|exact Honce].
  unfold bind, clearTimeout, modify.
  set (w0 := set_timers (filter (λ t0, timer_id t0 ≠ id) (timers w)) w).
  assert (H0 : delivered_once w0)
    by (eapply delivered_once_quiet; [|exact Honce]; now split).
  destruct (timer_callback_of t) as [|e]; simpl.
  - now apply delivered_once_beat.
  - now apply delivered_once_finishIdleTransaction.
Qed.

Lemma quiet_add (span : ref) (w : World) : quiet w (world_of (add span w)).
Proof.
  destruct (spanRecorder w) as [rec|] eqn:Hrec.
  2:{ unfold add, bind at 1, gets. rewrite Hrec. now split. }
  destruct (read w span) as [sp|] eqn:Hread.
  - rewrite (add_world span w rec sp Hrec Hread).
    destruct span as [|n]; simpl in *; [|now split].
    injection Hread as <-. now split.
  - unfold add, bind at 1, gets. rewrite Hrec. unfold update, bind at 1 2, deref.
    rewrite Hread. now split.
Qed.

Lemma quiet_initSpanRecorder (maxlen : option nat) (w : World) :
  quiet w (world_of (initSpanRecorder maxlen w)).
Proof.
  rewrite initSpanRecorder_run.
  match goal with
  | |- quiet _ (world_of (add RThis ?w0)) =>
      destruct (quiet_add RThis w0) as [Hsink Hend]
  end.
  split; [rewrite Hsink|rewrite Hend]; now destruct (spanRecorder w).
Qed.

Lemma delivered_once_happen (fuel : nat) (ev : event) (w : World) :
  delivered_once w → delivered_once (world_of (happen fuel ev w)).
Proof.
  intros Honce. destruct ev; cbn [happen].
  - now apply delivered_once_fire.
  - eapply delivered_once_quiet; [|exact Honce]. now split.
  - eapply delivered_once_quiet; [|exact Honce]. now split.
  - eapply delivered_once_quiet; [apply quiet_add|exact Honce].
  - now apply delivered_once_Span_finish.
  - eapply delivered_once_quiet; [apply quiet_initSpanRecorder|exact Honce].
  - eapply delivered_once_quiet; [|exact Honce]. now split.
  - rewrite popActivity_world. simpl.
    eapply delivered_once_quiet; [|exact Honce]. destruct (bool_decide _); now split.
Qed.

Lemma delivered_once_play (fuel : nat) (history : list event) (w : World) :
  delivered_once w → delivered_once (play fuel history w).
Proof.
  revert w. induction history as [|ev history IH]; intros w Honce; [exact Honce|].
  simpl. apply IH. now apply delivered_once_happen.
Qed.

(** ** The recorder's references *)

Lemma well_formed_store (r : ref) (sp : Span.t) (w : World) (l : list ref) :
  is_Some (read w r) →
  Forall (λ r', is_Some (read w r')) l →
  Forall (λ r', is_Some (read (store r sp w) r')) l.
Proof.
  intros [sp0 Hread] Hall. eapply Forall_impl; [exact Hall|]. simpl.
  intros r' Hsome. destruct (decide (r' = r)) as [->|Hne].
  - rewrite (read_store_same r sp sp0 w Hread). eauto.
  - now rewrite read_store_other.
Qed.

Lemma well_formed_flushed (arg : option Q) (w : World) :
  well_formed w → well_formed (flushed arg w).
Proof.
  destruct (flushed_frame arg w) as (Hsr & Hheap & _). intros Hwf.
  eapply well_formed_same; [| |exact Hwf]; [|exact Hheap].
  unfold recorded. now rewrite Hsr.
Qed.

Lemma well_formed_Span_finish (fuel : nat) (span : ref) (arg : option Q) (w : World) :
  well_formed w → well_formed (world_of (Span_finish fuel span arg w)).
Proof.
  intros Hwf. destruct span as [|n].
  { destruct (Span_finish_this fuel arg w) as [->|[_ ->]]; [exact Hwf|].
    now apply well_formed_flushed. }
  destruct fuel as [|fuel]; [exact Hwf|].
  cbn [Span_finish]. unfold bind at 1, deref.
  destruct (read w (RChild n)) as [sp|] eqn:Hread; [|exact Hwf].
  destruct (Span.finish sp) as [|pop] eqn:Himpl.
  - rewrite (Span_prototype_finish_run _ arg w sp Hread).
    destruct (Span.endTimestamp sp); [exact Hwf|]. simpl.
    apply (well_formed_store (RChild n) _ w (recorded w)); [eauto|exact Hwf].
  - unfold bind at 1.
    now rewrite (Span_finish_patched fuel (RChild n) arg w sp pop Hread Himpl).
Qed.

Lemma well_formed_finishIdleTransaction (fuel : nat) (e : Q) (w : World) :
  well_formed w → well_formed (world_of (_finishIdleTransaction fuel e w)).
Proof.
  intros Hwf. destruct (spanRecorder w) as [rec|] eqn:Hrec.
  2:{ rewrite finishIdleTransaction_no_recorder by exact Hrec.
      eapply well_formed_same; [| |exact Hwf]; reflexivity. }
  destruct (finishIdleTransaction_after fuel e w rec Hrec Hwf) as (Hrec' & _ & Hreads & _).
  unfold well_formed, recorded in Hwf |- *. rewrite Hrec in Hwf. rewrite Hrec'.
  simpl in Hwf |- *. rewrite Forall_forall in Hwf. apply Forall_forall.
  intros [|n] Hin; [simpl; eauto|].
  apply list_elem_of_filter in Hin as [_ Hin].
  destruct (Hwf _ Hin) as [sp Hread]. simpl in Hread |- *.
  rewrite (Hreads n sp Hin Hread). eauto.
Qed.

Lemma well_formed_beat (fuel : nat) (w : World) :
  well_formed w → well_formed (world_of (_beat fuel w)).
Proof.
  intros Hwf.
  destruct (_activities w) as [|first rest] eqn:Hkeys.
  { rewrite beat_empty by exact Hkeys.
    eapply well_formed_same; [| |exact Hwf]; reflexivity. }
  destruct (same_string (reduce_concat first rest) (_prevHeartbeatString w)) eqn:Hsame.
  2:{ rewrite (beat_changed fuel w first rest Hkeys Hsame).
      eapply well_formed_same; [| |exact Hwf]; reflexivity. }
  destruct (le_lt_dec 2 (_heartbeatCounter w)) as [Hhigh|Hlow].
  2:{ rewrite (beat_same_below fuel w first rest Hkeys Hsame) by lia.
      eapply well_formed_same; [| |exact Hwf]; reflexivity. }
  rewrite (beat_same_alarm fuel w first rest Hkeys Hsame Hhigh).
  pose proof (well_formed_finishIdleTransaction fuel (clock w) (alarmed w)
                (well_formed_alarmed w Hwf)) as Hfin.
  unfold bind at 1.
  destruct (_finishIdleTransaction fuel (clock w) (alarmed w)) as [[] w1|err w1];
    simpl in Hfin |- *; [|exact Hfin].
  eapply well_formed_same; [| |exact Hfin]; reflexivity.
Qed.

Lemma well_formed_fire (fuel id : nat) (w : World) :
  well_formed w → well_formed (world_of (fire fuel id w)).
Proof.
  intros Hwf. unfold fire, bind at 1, gets.
  destruct (list_find _ (timers w)) as [[i t]|]; [|exact Hwf].
  unfold bind, clearTimeout, modify.
  set (w0 := set_timers (filter (λ t0, timer_id t0 ≠ id) (timers w)) w).
  assert (H0 : well_formed w0)
    by (eapply well_formed_same; [| |exact Hwf]; reflexivity).
  destruct (timer_callback_of t) as [|e]; simpl.
  - now apply well_formed_beat.
  - now apply well_formed_finishIdleTransaction.
Qed.

(** What the base class makes of the list: a part of the spans it had and
    the one added. *)
Lemma SpanRecorder_add_spans (span : ref) (rec : Recorder) (r : ref) :
  r ∈ IdleTransactionSpanRecorder.spans (SpanRecorder_add span rec) →
  r ∈ IdleTransactionSpanRecorder.spans rec ∨ r = span.
Proof.
  unfold SpanRecorder_add. simpl. intros Hin.
  assert (Hall : r ∈ (IdleTransactionSpanRecorder.spans rec ++ [span])%list).
  { destruct (IdleTransactionSpanRecorder._maxlen rec) as [n|]; [|exact Hin].
    eapply subseteq_drop, Hin. }
  apply elem_of_app in Hall as [Hold|Hnew]; [now left|].
  right. now apply list_elem_of_singleton in Hnew.
Qed.

Lemma well_formed_add (span : ref) (w : World) :
  well_formed w → well_formed (world_of (add span w)).
Proof.
  intros Hwf.
  destruct (spanRecorder w) as [rec|] eqn:Hrec.
  2:{ unfold add, bind at 1, gets. now rewrite Hrec. }
  destruct (read w span) as [sp|] eqn:Hread.
  2:{ unfold add, bind at 1, gets. rewrite Hrec. unfold update, bind at 1 2, deref.
      now rewrite Hread. }
  rewrite (add_world span w rec sp Hrec Hread).
  unfold well_formed, recorded in Hwf |- *. rewrite Hrec in Hwf. simpl in Hwf |- *.
  rewrite Forall_forall in Hwf. apply Forall_forall. intros r Hin.
  change (read (set_spanRecorder ?x ?w') r) with (read w' r).
  destruct (decide (r = span)) as [->|Hne].
  - rewrite (read_store_same span _ sp w Hread). eauto.
  - rewrite read_store_other by exact Hne.
    destruct (SpanRecorder_add_spans _ _ _ Hin) as [Hold|Hnew]; [auto|contradiction].
Qed.

Lemma well_formed_happen (fuel : nat) (ev : event) (w : World) :
  well_formed w → well_formed (world_of (happen fuel ev w)).
Proof.
  intros Hwf. destruct ev; cbn [happen].
  - now apply well_formed_fire.
  - eapply well_formed_same; [| |exact Hwf]; reflexivity.
  - unfold well_formed, recorded in Hwf |- *. simpl.
    eapply Forall_impl; [exact Hwf|]. simpl. intros [|n] [sp0 Hread]; simpl in *; [eauto|].
    exists sp0. now apply lookup_app_l_Some.
  - now apply well_formed_add.
  - now apply well_formed_Span_finish.
  - rewrite initSpanRecorder_run. apply well_formed_add.
    destruct (spanRecorder w); [exact Hwf|]. unfold well_formed, recorded. simpl.
    constructor.
  - eapply well_formed_same; [| |exact Hwf]; reflexivity.
  - rewrite popActivity_world. simpl.
    eapply well_formed_same; [| |exact Hwf]; now destruct (bool_decide _).
Qed.

Lemma well_formed_play (fuel : nat) (history : list event) (w : World) :
  well_formed w → well_formed (play fuel history w).
Proof.
  revert w. induction history as [|ev history IH]; intros w Hwf; [exact Hwf|].
  simpl. apply IH. now apply well_formed_happen.
Qed.

(** ** Every call reconciles *)

(** C1, as the code has it. Take a transaction at any moment of its
    life, whatever timers have fired and whatever finishes have run since
    its construction. A further [_finishIdleTransaction(endTimestamp)] is
    not held back by any guard: the recorder is filtered again with this
    [endTimestamp], every recorded span of another id that is still open is
    closed at [endTimestamp] with status [Cancelled], and with a recorder
    the call ends, the flush logged, in [this.finish()] again. The sink all
    the same has received the transaction at most once. *)
Theorem finish_is_not_guarded
    (fuel : nat) (history : list event) (spanId : string) (now : Q)
    (idleTimeout : option Q) (endTimestamp : Q) :
  let w := play fuel history (world_of (new_IdleTransaction spanId now idleTimeout)) in
  let w' := world_of (_finishIdleTransaction fuel endTimestamp w) in
  (length (sink w') ≤ 1)%nat
  ∧ recorded w' = filter (λ r, kept w endTimestamp r) (recorded w)
  ∧ (∀ n sp, RChild n ∈ recorded w → heap w !! n = Some sp →
       is_own w sp = false → Span.endTimestamp sp = None →
       heap w' !! n =
         Some (Span.with_status (Some Cancelled)
                 (Span.with_endTimestamp (Some endTimestamp) sp)))
  ∧ (is_Some (spanRecorder w) →
     ∃ w1, _finishIdleTransaction fuel endTimestamp w
           = Span_finish fuel RThis None
               (flushing (filter (λ r, kept w endTimestamp r) (recorded w)) w1)).
Proof.
  intros w w'.
  assert (Honce : delivered_once w).
  { apply delivered_once_play. split; simpl; [lia|reflexivity]. }
  assert (Hwf : well_formed w).
  { apply well_formed_play. unfold well_formed, recorded. simpl. constructor. }
  split.
  { exact (proj1 (delivered_once_finishIdleTransaction fuel endTimestamp w Honce)). }
  destruct (spanRecorder w) as [rec|] eqn:Hrec.
  - destruct (finishIdleTransaction_after fuel endTimestamp w rec Hrec Hwf)
      as (Hrec' & _ & Hreads & _).
    fold w' in Hrec', Hreads.
    assert (Hrecorded : recorded w = IdleTransactionSpanRecorder.spans rec)
      by (unfold recorded; now rewrite Hrec).
    split; [|split].
    + rewrite Hrecorded. unfold recorded. now rewrite Hrec'.
    + intros n sp Hin Hread Hown Hopen. rewrite Hrecorded in Hin.
      rewrite (Hreads n sp Hin Hread), Hown. unfold cancel. now rewrite Hopen.
    + intros _. rewrite Hrecorded.
      destruct (finishIdleTransaction_run fuel endTimestamp w rec Hrec Hwf)
        as (w1 & _ & _ & Hrun).
      exists w1. exact Hrun.
  - assert (Hrecorded : recorded w = []) by (unfold recorded; now rewrite Hrec).
    subst w'. rewrite finishIdleTransaction_no_recorder by exact Hrec.
    split; [|split].
    + rewrite Hrecorded. unfold recorded. simpl. now rewrite Hrec.
    + intros n sp Hin. rewrite Hrecorded in Hin. inversion Hin.
    + intros [rec' Hsome]. discriminate.
Qed.

(** The deferred finish of timer 3 on [drained_twice], at its end 10.8:
    the span ["b"], added after timer 2 had fired, is still open and gets
    cancelled. *)
Lemma finish_is_not_guarded_witness :
  let w := play 1000
             [Init None; PopActivity "a";
              Advance 10.2; Create (open_span "a" 10.2); Add (RChild 0);
              Advance 10.3; PopActivity "a";
              Advance 10.5; Fire 2;
              Advance 10.6; Create (open_span "b" 10.6); Add (RChild 1)]
             (world_of (new_IdleTransaction "t" 10 None)) in
  let w' := world_of (_finishIdleTransaction 1000 (10.3 + 500 / 1000)%Q w) in
  (Span.endTimestamp <$> heap w !! 1%nat) = Some None
  ∧ (Span.endTimestamp <$> heap w' !! 1%nat) = Some (Some (10.3 + 500 / 1000)%Q)
  ∧ (Span.status <$> heap w' !! 1%nat) = Some (Some Cancelled)
  ∧ ∃ w1, _finishIdleTransaction 1000 (10.3 + 500 / 1000)%Q w
          = Span_finish 1000 RThis None
              (flushing (filter (λ r, kept w (10.3 + 500 / 1000)%Q r) (recorded w)) w1).
Proof.
  intros w w'.
  destruct (finish_is_not_guarded 1000
              [Init None; PopActivity "a";
               Advance 10.2; Create (open_span "a" 10.2); Add (RChild 0);
               Advance 10.3; PopActivity "a";
               Advance 10.5; Fire 2;
               Advance 10.6; Create (open_span "b" 10.6); Add (RChild 1)]
              "t" 10 None (10.3 + 500 / 1000)%Q)
    as (_ & _ & Hcancel & Hflush).
  fold w in Hcancel, Hflush. fold w' in Hcancel, Hflush.
  assert (Hb : heap w !! 1%nat
               = Some (Span.with_finish (PatchedFinish (Some IdleTransaction_pushActivity))
                         (open_span "b" 10.6)))
    by (vm_compute; reflexivity).
  assert (Hin : RChild 1 ∈ recorded w)
    by (apply (bool_decide_unpack _); vm_compute; exact I).
  specialize (Hcancel 1%nat _ Hin Hb ltac:(vm_compute; reflexivity) eq_refl).
  split; [now rewrite Hb|]. rewrite Hcancel.
  split; [reflexivity|]. split; [reflexivity|].
  apply Hflush. apply (bool_decide_unpack _). vm_compute. exact I.
Defined.

(** C1 as stated fails: a finalize that comes after another is no no-op.
    On [drained_twice] the deferred finish of timer 2 has run (span ["a"]
    cancelled at 10.5, the flush logged); the span ["b"] was added after
    it. When timer 3 fires at 10.8 the call reconciles again: ["b"] is
    closed at 10.8 with status [Cancelled] and the flush is logged a second
    time. Likewise after a finalize that returned, the one of timer 2 on
    the transaction that has no recorder yet: the finalize of timer 3 cancels
    the span added since. In neither run does the sink receive anything. *)
Lemma finish_twice_counterexample :
  (logged drained_twice = [LogCancellingSpan (RChild 0); LogFlushing]
   ∧ (Span.endTimestamp <$> heap drained_twice !! 1%nat) = Some None
   ∧ ∃ w', (advance 10.8 ;;; fire 1000 3) drained_twice = Thrown RangeError w'
       ∧ (Span.endTimestamp <$> heap w' !! 1%nat) = Some (Some (10.3 + 500 / 1000)%Q)
       ∧ (Span.status <$> heap w' !! 1%nat) = Some (Some Cancelled)
       ∧ logged w' = [LogCancellingSpan (RChild 0); LogFlushing;
                      LogCancellingSpan (RChild 1); LogFlushing]
       ∧ sink w' = [])
  ∧ (∃ w1 w', fire 1000 2 drained_bare = Done tt w1
       ∧ logged w1 = [LogNoActive]
       ∧ (Span.endTimestamp <$> heap (play 1000 recorder_comes_late w1) !! 0%nat)
         = Some None
       ∧ fire 1000 3 (play 1000 recorder_comes_late w1) = Thrown RangeError w'
       ∧ (Span.endTimestamp <$> heap w' !! 0%nat) = Some (Some (10.6 + 500 / 1000)%Q)
       ∧ (Span.status <$> heap w' !! 0%nat) = Some (Some Cancelled)
       ∧ sink w' = []).
Proof. evaluate. Qed.

(** * The heartbeat after a finish *)

Lemma beat_armed (fuel : nat) (w w' : World) :
  _beat fuel w = Done tt w' → armed w'.
Proof.
  intros Hrun. unfold _beat in Hrun.
  apply bind_done in Hrun as (_ & w1 & _ & Hrun).
  apply bind_done in Hrun as (_ & w2 & _ & Hping).
  rewrite pingHeartbeat_run in Hping. injection Hping as <-.
  unfold armed. simpl. apply elem_of_app. right. left.
Qed.

(** A tick returns unless it is the tick of the safeguard on a transaction
    that has a span recorder. *)
Lemma beat_returns (fuel : nat) (w : World) :
  (stall_tick w = true → spanRecorder w = None) →
  ∃ w', _beat fuel w = Done tt w'.
Proof.
  intros Hbare. unfold stall_tick in Hbare.
  destruct (_activities w) as [|first rest] eqn:Hkeys.
  { rewrite beat_empty by exact Hkeys. eauto. }
  destruct (same_string (reduce_concat first rest) (_prevHeartbeatString w)) eqn:Hsame.
  2:{ erewrite beat_changed by eassumption. eauto. }
  destruct (le_lt_dec 2 (_heartbeatCounter w)) as [Hhigh|Hlow].
  2:{ erewrite beat_same_below by (eassumption || lia). eauto. }
  erewrite beat_same_alarm by eassumption.
  destruct (alarmed_facts w) as (Hrec & _).
  assert (Hnone : spanRecorder (alarmed w) = None).
  { rewrite Hrec. apply Hbare. cbn [andb]. now apply Nat.leb_le. }
  unfold bind at 1. rewrite finishIdleTransaction_no_recorder by exact Hnone.
  run. eauto.
Qed.

(** C7, as the code has it. A finalize as such does not stop the
    heartbeat. When the host fires a deferred finish, only that timer
    leaves the pending set and the handle of the heartbeat is untouched,
    however the finish ends: the pending tick stays pending. [_beat] ends
    with an unconditional [_pingHeartbeat()]: every tick that returns has
    armed the next one, 5000 ms ahead, under the handle it stored. And a
    tick returns whenever it is not the tick of the safeguard, and on that
    tick too when the transaction has no span recorder. (The tick of the
    safeguard on a transaction with a recorder is taken up apart, below.) *)
Theorem heartbeat_keeps_ticking (fuel : nat) (w : World) :
  (∀ (id i : nat) (t : Timer) (e : Q),
     list_find (λ t0, timer_id t0 = id) (timers w) = Some (i, t) →
     timer_callback_of t = CbFinishIdle e →
     let w' := world_of (fire fuel id w) in
     timers w' = filter (λ t0, timer_id t0 ≠ id) (timers w)
     ∧ _heartbeatTimer w' = _heartbeatTimer w)
  ∧ (∀ w', _beat fuel w = Done tt w' → armed w')
  ∧ ((stall_tick w = true → spanRecorder w = None) →
     ∃ w', _beat fuel w = Done tt w' ∧ armed w').
Proof.
  split; [|split].
  - intros id i t e Hfind Hcb w'.
    assert (Hw' : w' = world_of (_finishIdleTransaction fuel e
                         (set_timers (filter (λ t0, timer_id t0 ≠ id) (timers w)) w))).
    { subst w'. unfold fire, bind at 1, gets. rewrite Hfind.
      unfold bind, clearTimeout, modify. now rewrite Hcb. }
    rewrite Hw'.
    pose proof (finishIdleTransaction_bookkeeping fuel e
                  (set_timers (filter (λ t0, timer_id t0 ≠ id) (timers w)) w)) as Hb.
    unfold bookkeeping in Hb. injection Hb as _ _ Hhb _ _ _ Htimers _.
    split; assumption.
  - intros w'. apply beat_armed.
  - intros Hbare. destruct (beat_returns fuel w Hbare) as [w' Hrun].
    exists w'. split; [exact Hrun|]. exact (beat_armed fuel w w' Hrun).
Qed.

(** The deferred finish of timer 2 on [drained], which throws out of
    [this.finish()]: the heartbeat's timer 1 stays. The tick that follows
    it, and the tick of the safeguard on [stalled_bare]: both return with
    the next tick armed. *)
Lemma heartbeat_keeps_ticking_witness :
  (timers drained = [mkTimer 1 5000 CbBeat; mkTimer 2 500 (CbFinishIdle (10 + 500 / 1000)%Q)]
   ∧ timers (world_of (fire 1000 2 drained)) = [mkTimer 1 5000 CbBeat]
   ∧ _heartbeatTimer (world_of (fire 1000 2 drained)) = 1%nat)
  ∧ (_beat 1000 (world_of (fire 1000 2 drained))
     = Done tt (world_of (_beat 1000 (world_of (fire 1000 2 drained))))
     ∧ armed (world_of (_beat 1000 (world_of (fire 1000 2 drained)))))
  ∧ (stall_tick stalled_bare = true
     ∧ spanRecorder stalled_bare = None
     ∧ ∃ w', _beat 1000 stalled_bare = Done tt w' ∧ armed w').
Proof.
  split; [|split].
  - destruct (proj1 (heartbeat_keeps_ticking 1000 drained) 2%nat 1%nat
                (mkTimer 2 500 (CbFinishIdle (10 + 500 / 1000)%Q)) (10 + 500 / 1000)%Q)
      as [Htimers Hhb]; [vm_compute; reflexivity|reflexivity|].
    split; [vm_compute; reflexivity|]. split.
    + rewrite Htimers. vm_compute. reflexivity.
    + rewrite Hhb. vm_compute. reflexivity.
  - assert (Hrun : _beat 1000 (world_of (fire 1000 2 drained))
                   = Done tt (world_of (_beat 1000 (world_of (fire 1000 2 drained)))))
      by (vm_compute; reflexivity).
    split; [exact Hrun|].
    exact (proj1 (proj2 (heartbeat_keeps_ticking 1000 (world_of (fire 1000 2 drained))))
             _ Hrun).
  - assert (Hnone : spanRecorder stalled_bare = None) by (vm_compute; reflexivity).
    split; [vm_compute; reflexivity|]. split; [exact Hnone|].
    exact (proj2 (proj2 (heartbeat_keeps_ticking 1000 stalled_bare)) (λ _, Hnone)).
Defined.

(** C7 as stated fails. On [drained], a transaction that went through
    [initSpanRecorder], the deferred finish of timer 2 runs at 10.5: the
    finalize reconciles, logs the flush and ends in [RangeError] out of
    [this.finish()]; the heartbeat's timer 1 is still pending, fires at 15,
    and [_beat] runs and arms timer 3. On [stalled_bare], a transaction
    without a recorder, the fourth tick is the safeguard's: the finalize
    logs that there is no active transaction and returns, the tick arms
    timer 5, and when that fires [_beat] runs again, counts to 4 and arms
    timer 6. *)
Lemma heartbeat_after_finish_counterexample :
  (∃ w1 w2, fire 1000 2 drained = Thrown RangeError w1
     ∧ logged w1 = [LogFlushing]
     ∧ timers w1 = [mkTimer 1 5000 CbBeat]
     ∧ (advance 15 ;;; fire 1000 1) w1 = Done tt w2
     ∧ timers w2 = [mkTimer 3 5000 CbBeat]
     ∧ _heartbeatTimer w2 = 3%nat)
  ∧ (∃ w1 w2, fire 1000 4 stalled_bare = Done tt w1
       ∧ Span.status (self w1) = Some DeadlineExceeded
       ∧ logged w1 = [LogHeartbeatSafeguard; LogNoActive]
       ∧ timers w1 = [mkTimer 5 5000 CbBeat]
       ∧ (advance 35 ;;; fire 1000 5) w1 = Done tt w2
       ∧ _heartbeatCounter w2 = 4%nat
       ∧ logged w2 = [LogHeartbeatSafeguard; LogNoActive;
                      LogHeartbeatSafeguard; LogNoActive]
       ∧ timers w2 = [mkTimer 6 5000 CbBeat]).
Proof. evaluate. Qed.

(** ** The tick of the safeguard on a transaction with a recorder *)

(** X18. On a transaction that went through [initSpanRecorder] (it has a
    recorder and its [finish] is the recorder's arrow function) the tick of
    the safeguard never gets to line 90: it marks the transaction, calls
    [_finishIdleTransaction] and ends in [RangeError] out of
    [this.finish()]. The stored signature is as before, nothing was handed
    to the sink, and no heartbeat timer is pending any more: the tick has
    cleared its own and armed none. *)
Theorem stall_tick_ends_the_heartbeat (fuel : nat) (w : World) :
  patched w →
  is_Some (spanRecorder w) →
  well_formed w →
  one_heartbeat w →
  stall_tick w = true →
  ∃ w', _beat fuel w = Thrown RangeError w'
    ∧ Span.status (self w') = Some DeadlineExceeded
    ∧ _heartbeatCounter w' = S (_heartbeatCounter w)
    ∧ _prevHeartbeatString w' = _prevHeartbeatString w
    ∧ sink w' = sink w
    ∧ Forall (λ t, is_beat t = false) (timers w').
Proof.
  intros [pop Hpop] [rec Hrec] Hwf Hinv Hstall. unfold stall_tick in Hstall.
  destruct (_activities w) as [|first rest] eqn:Hkeys; [discriminate|].
  apply andb_true_iff in Hstall as [Hsame Hhigh]. apply Nat.leb_le in Hhigh.
  rewrite (beat_same_alarm fuel w first rest Hkeys Hsame Hhigh).
  destruct (alarmed_facts w) as (Hrec' & _ & Himpl & Hstatus & _).
  rewrite Hrec in Hrec'. rewrite Hpop in Himpl.
  destruct (finishIdleTransaction_run fuel (clock w) (alarmed w) rec Hrec'
              (well_formed_alarmed w Hwf)) as (w1 & [Hframe _] & _ & Hrun).
  unfold bind at 1. rewrite Hrun.
  erewrite Span_finish_patched;
    [|reflexivity|simpl; rewrite (frame_self _ _ Hframe); exact Himpl].
  eexists. split; [reflexivity|]. simpl.
  rewrite (frame_self _ _ Hframe), (frame_sink _ _ Hframe).
  unfold frame in Hframe. injection Hframe as _ _ _ _ _ Hprev Hcount _ Htimers _ _.
  rewrite Hprev, Hcount, Htimers.
  split; [exact Hstatus|]. split; [reflexivity|]. split; [reflexivity|].
  split; [reflexivity|].
  apply Forall_forall. intros t Hin. now apply (cleared_no_beat w).
Qed.

Lemma stall_tick_ends_the_heartbeat_witness :
  patched stalled_recording
  ∧ is_Some (spanRecorder stalled_recording)
  ∧ stall_tick stalled_recording = true
  ∧ timers stalled_recording = [mkTimer 4 5000 CbBeat]
  ∧ ∃ w', _beat 1000 stalled_recording = Thrown RangeError w'
      ∧ Span.status (self w') = Some DeadlineExceeded
      ∧ timers w' = [].
Proof.
  assert (Hp : patched stalled_recording) by (eexists; vm_compute; reflexivity).
  assert (Hrec : is_Some (spanRecorder stalled_recording))
    by (eexists; vm_compute; reflexivity).
  assert (Hwf : well_formed stalled_recording).
  { apply (bool_decide_unpack _). vm_compute. exact I. }
  assert (Hinv : one_heartbeat stalled_recording).
  { apply one_heartbeat_play. unfold one_heartbeat. simpl. split; [|split].
    - apply NoDup_singleton.
    - constructor; [simpl; lia|constructor].
    - constructor; [reflexivity|constructor]. }
  assert (Hstall : stall_tick stalled_recording = true) by (vm_compute; reflexivity).
  split; [exact Hp|]. split; [exact Hrec|]. split; [exact Hstall|].
  split; [vm_compute; reflexivity|].
  destruct (stall_tick_ends_the_heartbeat 1000 stalled_recording Hp Hrec Hwf Hinv Hstall)
    as (w' & Hrun & Hstatus & _).
  exists w'. split; [exact Hrun|]. split; [exact Hstatus|].
  assert (Hw' : w' = world_of (_beat 1000 stalled_recording)) by now rewrite Hrun.
  rewrite Hw'. vm_compute. reflexivity.
Defined.

(** * Properties of the event processor *)

Lemma isOutdatedTransaction_mark (m : Q) (event : Event.t) :
  isOutdatedTransaction m (mark_exceeded event) = isOutdatedTransaction m event.
Proof.
  unfold mark_exceeded. destruct (Event.contexts event) as [contexts|]; [|reflexivity].
  now destruct (contexts !! "trace").
Qed.

Lemma mark_exceeded_twice (event : Event.t) :
  mark_exceeded (mark_exceeded event) = mark_exceeded event.
Proof.
  unfold mark_exceeded at 2.
  destruct (Event.contexts event) as [contexts|] eqn:Hc;
    [|unfold mark_exceeded; now rewrite Hc].
  destruct (contexts !! "trace") as [trace|] eqn:Ht;
    [|unfold mark_exceeded; now rewrite Hc, Ht].
  unfold mark_exceeded. simpl. rewrite lookup_insert_eq. simpl.
  rewrite Hc, Ht, !insert_insert_eq. reflexivity.
Qed.

(** X13. The event processor is idempotent, and conservative: it never
    touches the timestamps or the type of an event, any context but
    [trace], any field of [trace] but its status, or any tag but
    [maxTransactionDurationExceeded]. *)
Theorem eventProcessor_idempotent_and_conservative
    (installed : bool) (maxTransactionDuration : Q) (event : Event.t) :
  let event' := fst (eventProcessor installed maxTransactionDuration event) in
  fst (eventProcessor installed maxTransactionDuration event') = event'
  ∧ Event.timestamp event' = Event.timestamp event
  ∧ Event.start_timestamp event' = Event.start_timestamp event
  ∧ Event.type event' = Event.type event
  ∧ (∀ key, key ≠ "trace" → context_of event' key = context_of event key)
  ∧ (context_fields <$> context_of event' "trace")
    = (context_fields <$> context_of event "trace")
  ∧ (∀ key, key ≠ "maxTransactionDurationExceeded" →
       tag_of event' key = tag_of event key).
Proof.
  intros event'. subst event'. unfold eventProcessor.
  destruct installed; simpl; [|repeat split; intros; reflexivity].
  destruct (negb (Qeq_bool maxTransactionDuration 0)
            && bool_decide (Event.type event = Some "transaction")
            && isOutdatedTransaction maxTransactionDuration event) eqn:Hcond;
    simpl; [|rewrite Hcond; repeat split; intros; reflexivity].
  assert (Htype : Event.type (mark_exceeded event) = Event.type event).
  { unfold mark_exceeded. destruct (Event.contexts event) as [contexts|]; [|reflexivity].
    now destruct (contexts !! "trace"). }
  rewrite Htype, isOutdatedTransaction_mark, Hcond. simpl.
  split; [apply mark_exceeded_twice|].
  unfold mark_exceeded, context_of, tag_of.
  destruct (Event.contexts event) as [contexts|] eqn:Hc;
    [|repeat split; intros; rewrite ?Hc; reflexivity].
  destruct (contexts !! "trace") as [trace|] eqn:Ht;
    [|repeat split; intros; rewrite ?Hc; reflexivity]. simpl.
  split; [reflexivity|]. split; [reflexivity|]. split; [reflexivity|].
  split; [|split].
  - intros key Hne. now rewrite lookup_insert_ne.
  - rewrite lookup_insert_eq, Ht. reflexivity.
  - intros key Hne. rewrite lookup_insert_ne by congruence.
    destruct (Event.tags event); [reflexivity|]. simpl. apply lookup_empty.
Qed.

Lemma truthy_true (x : option Q) : truthy x = true ↔ ∃ q, x = Some q ∧ ¬ (q == 0)%Q.
Proof.
  destruct x as [q|]; simpl.
  - rewrite negb_true_iff. split.
    + intros Hnz. exists q. split; [reflexivity|]. intros Hz.
      apply Qeq_bool_iff in Hz. congruence.
    + intros (q' & [= <-] & Hnz). destruct (Qeq_bool q 0) eqn:Hz; [|reflexivity].
      apply Qeq_bool_iff in Hz. contradiction.
  - split; [discriminate|]. intros (q & Hq & _). discriminate.
Qed.

(** X14. With the integration installed and a duration limit other than 0,
    a transaction event with both timestamps set (and not 0) and a trace
    context is returned unchanged when its duration lies between 0 and the
    limit, both included; when the duration exceeds the limit or is
    negative, its trace status becomes [DeadlineExceeded] and the tag
    [maxTransactionDurationExceeded] becomes ['true']. *)
Theorem eventProcessor_marks_out_of_range
    (maxTransactionDuration : Q) (event : Event.t) (t s : Q) (trace : Context) :
  ¬ (maxTransactionDuration == 0)%Q →
  Event.type event = Some "transaction" →
  Event.timestamp event = Some t → ¬ (t == 0)%Q →
  Event.start_timestamp event = Some s → ¬ (s == 0)%Q →
  context_of event "trace" = Some trace →
  let event' := fst (eventProcessor true maxTransactionDuration event) in
  ((0 <= t - s)%Q ∧ (t - s <= maxTransactionDuration)%Q → event' = event)
  ∧ ((maxTransactionDuration < t - s)%Q ∨ (t - s < 0)%Q →
       (context_status <$> context_of event' "trace") = Some (Some DeadlineExceeded)
       ∧ tag_of event' "maxTransactionDurationExceeded" = Some "true").
Proof.
  intros Hmax Htype Ht Htnz Hs Hsnz Htrace event'. subst event'.
  unfold eventProcessor. simpl.
  assert (Hm : Qeq_bool maxTransactionDuration 0 = false).
  { destruct (Qeq_bool maxTransactionDuration 0) eqn:Hz; [|reflexivity].
    apply Qeq_bool_iff in Hz. contradiction. }
  rewrite Hm, Htype. simpl.
  unfold isOutdatedTransaction. rewrite Ht, Hs.
  rewrite (proj2 (truthy_true (Some t))) by eauto.
  rewrite (proj2 (truthy_true (Some s))) by eauto. simpl.
  split.
  - intros [Hnonneg Hwithin].
    apply Qlt_bool_false in Hnonneg, Hwithin. now rewrite Hnonneg, Hwithin.
  - intros Hout.
    assert (Hcond : Qlt_bool maxTransactionDuration (t - s) || Qlt_bool (t - s) 0 = true).
    { apply orb_true_iff. destruct Hout as [Hlong|Hneg]; [left|right];
        now apply Qlt_bool_true. }
    rewrite Hcond. simpl.
    unfold context_of in Htrace. unfold mark_exceeded, context_of, tag_of.
    destruct (Event.contexts event) as [contexts|]; [|discriminate].
    simpl in Htrace. rewrite Htrace. simpl.
    now rewrite !lookup_insert_eq.
Qed.

Lemma eventProcessor_marks_out_of_range_witness :
  (context_status <$> context_of (fst (eventProcessor true 600 long_event)) "trace")
  = Some (Some DeadlineExceeded)
  ∧ tag_of (fst (eventProcessor true 600 long_event)) "maxTransactionDurationExceeded"
    = Some "true"
  ∧ fst (eventProcessor true 900 long_event) = long_event.
Proof.
  assert (Hnz : ∀ q : Q, Qeq_bool q 0 = false → ¬ (q == 0)%Q).
  { intros q Hq Hz. apply Qeq_bool_iff in Hz. congruence. }
  pose proof (eventProcessor_marks_out_of_range 600 long_event 1700 1000
                (mkContext (Some Ok) {["op" := "pageload"]})
                (Hnz 600%Q eq_refl) eq_refl eq_refl (Hnz 1700%Q eq_refl) eq_refl
                (Hnz 1000%Q eq_refl) eq_refl) as [_ Hout].
  pose proof (eventProcessor_marks_out_of_range 900 long_event 1700 1000
                (mkContext (Some Ok) {["op" := "pageload"]})
                (Hnz 900%Q eq_refl) eq_refl eq_refl (Hnz 1700%Q eq_refl) eq_refl
                (Hnz 1000%Q eq_refl) eq_refl) as [Hin _].
  destruct Hout as [Hstatus Htag].
  { left. reflexivity. }
  split; [exact Hstatus|]. split; [exact Htag|].
  apply Hin. split; discriminate.
Defined.

(** * Properties of the router *)

Lemma started_app (c1 c2 : list hub_call) : started (c1 ++ c2) = (started c1 ++ started c2)%list.
Proof. apply omap_app. Qed.

Lemma finished_app (c1 c2 : list hub_call) :
  finished (c1 ++ c2) = (finished c1 ++ finished c2)%list.
Proof. apply omap_app. Qed.

(** What [_startIdleTransaction] does to a router without a running
    transaction. *)
Lemma startIdleTransaction_inv (op : string) (idleTimeout : Q) (r : TracingRouter.t) :
  router_inv (with_activeTransaction None r) →
  let '(tx, r') := _startIdleTransaction op idleTimeout r in
  router_inv (with_activeTransaction tx r').
Proof.
  intros Hinv. unfold _startIdleTransaction.
  destruct (TracingRouter.location r) as [pathname|]; [|exact Hinv].
  destruct (TracingRouter.hub r); [|exact Hinv].
  destruct (match TracingRouter.beforeNavigate (TracingRouter.options r) with
            | Some f => f pathname
            | None => Some pathname
            end) as [name|]; [|exact Hinv].
  destruct Hinv as (Hnd & Hfin & Hst & Hall & _). simpl in *.
  unfold router_inv. simpl. rewrite finished_app, started_app. simpl.
  rewrite app_nil_r. split; [exact Hnd|]. split; [|split; [|split]].
  - intros h Hin. specialize (Hfin h Hin). lia.
  - intros h. rewrite elem_of_app, Hst, list_elem_of_singleton. lia.
  - intros h Hlt. destruct (decide (h = TracingRouter.next_handle r)) as [->|Hne].
    + split; [|congruence]. intros Hin. specialize (Hfin _ Hin). lia.
    + assert (Hlt' : (h < TracingRouter.next_handle r)%nat) by lia.
      rewrite (Hall h Hlt'). split; [intros _; congruence|discriminate].
  - intros h [= <-]. lia.
Qed.

Lemma on_history_inv (idleTimeout : Q) (r : TracingRouter.t) :
  router_inv r → router_inv (on_history idleTimeout r).
Proof.
  intros Hinv. unfold on_history.
  destruct (enabled _); [|exact Hinv].
  set (r1 := match TracingRouter._activeTransaction r with
             | Some handle => with_calls [FinishTransaction handle (TracingRouter.now r)] r
             | None => r
             end).
  assert (H1 : router_inv (with_activeTransaction None r1)).
  { destruct Hinv as (Hnd & Hfin & Hst & Hall & Hact).
    subst r1. destruct (TracingRouter._activeTransaction r) as [a|] eqn:Ha.
    - specialize (Hact a eq_refl).
      assert (Hnew : a ∉ finished (TracingRouter.calls r)).
      { intros Hin. now apply (Hall a Hact) in Hin. }
      unfold router_inv. simpl. rewrite finished_app, started_app. simpl.
      rewrite app_nil_r. split; [|split; [|split; [|split]]].
      + apply NoDup_app. split; [exact Hnd|]. split; [|apply NoDup_singleton].
        intros x Hin Hx. apply list_elem_of_singleton in Hx. now subst.
      + intros h Hin. apply elem_of_app in Hin as [Hin|Hin]; [auto|].
        apply list_elem_of_singleton in Hin. now subst.
      + exact Hst.
      + intros h Hlt. split; [discriminate|]. intros _.
        rewrite elem_of_app, list_elem_of_singleton.
        destruct (decide (h = a)) as [->|Hne]; [now right|].
        left. apply (Hall h Hlt). congruence.
      + discriminate.
    - unfold router_inv. simpl.
      split; [exact Hnd|]. split; [exact Hfin|]. split; [exact Hst|].
      split; [|discriminate].
      intros h Hlt. rewrite (Hall h Hlt). split; discriminate. }
  pose proof (startIdleTransaction_inv "navigation" idleTimeout r1 H1) as H2.
  destruct (_startIdleTransaction "navigation" idleTimeout r1) as [tx r2]. exact H2.
Qed.

Lemma init_inv (idleTimeout : Q) (options : TracingRouter.Options)
    (location : option string) (hub : bool) (now : Q) :
  router_inv (init idleTimeout (new_TracingRouter options location hub now)).
Proof.
  assert (H0 : router_inv (new_TracingRouter options location hub now)).
  { unfold router_inv, new_TracingRouter. simpl.
    split; [constructor|]. split; [intros h Hin; inversion Hin|].
    split; [intros h; split; [intros Hin; inversion Hin|lia]|].
    split; [intros h Hlt; lia|discriminate]. }
  unfold init. destruct (enabled _); [|exact H0].
  pose proof (startIdleTransaction_inv "pageload" idleTimeout
                (new_TracingRouter options location hub now) H0) as H1.
  destruct (_startIdleTransaction "pageload" idleTimeout _) as [tx r1]. exact H1.
Qed.

(** X15. From the construction of a router on, through [init] and any
    number of location changes (to any location, at any time, with any
    options and any [beforeNavigate]): the router never finishes a
    transaction twice, the running transaction has not been finished, and
    every other transaction the hub has started has been finished. *)
Theorem router_finishes_each_transaction_once
    (idleTimeout : Q) (options : TracingRouter.Options)
    (location : option string) (hub : bool) (now : Q)
    (journey : list (option string * Q)) :
  let r := foldl (navigate idleTimeout)
             (init idleTimeout (new_TracingRouter options location hub now)) journey in
  NoDup (finished (TracingRouter.calls r))
  ∧ (∀ h, h ∈ started (TracingRouter.calls r) →
       (h ∈ finished (TracingRouter.calls r) ↔ TracingRouter._activeTransaction r ≠ Some h))
  ∧ (∀ h, TracingRouter._activeTransaction r = Some h →
       h ∈ started (TracingRouter.calls r)).
Proof.
  intros r.
  assert (Hinv : router_inv r).
  { subst r. generalize (init_inv idleTimeout options location hub now).
    generalize (init idleTimeout (new_TracingRouter options location hub now)).
    induction journey as [|to journey IH]; intros r0 H0; [exact H0|].
    simpl. apply IH. unfold navigate. apply on_history_inv.
    destruct H0 as (Hnd & Hfin & Hst & Hall & Hact). unfold router_inv. simpl. auto. }
  destruct Hinv as (Hnd & _ & Hst & Hall & Hact).
  split; [exact Hnd|]. split.
  - intros h Hin. apply Hall. now apply Hst.
  - intros h Ha. apply Hst. now apply Hact.
Qed.

(** X16. A location change that [beforeNavigate] vetoes (it returns
    [null]) still finishes the running transaction, at the time of the
    change, and leaves the router without a transaction: nothing is started
    in its place. *)
Theorem vetoed_navigation_ends_without_transaction
    (idleTimeout : Q) (r : TracingRouter.t) (f : string → option string)
    (pathname : string) (running : nat) :
  enabled (TracingRouter.startTransactionOnLocationChange (TracingRouter.options r)) = true →
  TracingRouter.beforeNavigate (TracingRouter.options r) = Some f →
  TracingRouter.location r = Some pathname →
  f pathname = None →
  TracingRouter._activeTransaction r = Some running →
  TracingRouter._activeTransaction (on_history idleTimeout r) = None
  ∧ TracingRouter.calls (on_history idleTimeout r)
    = (TracingRouter.calls r ++ [FinishTransaction running (TracingRouter.now r)])%list.
Proof.
  intros Hon Hbefore Hloc Hveto Hrun. unfold on_history. rewrite Hon, Hrun.
  unfold _startIdleTransaction. simpl. rewrite Hloc, Hbefore, Hveto.
  destruct (TracingRouter.hub r); split; reflexivity.
Qed.

Lemma vetoed_navigation_ends_without_transaction_witness :
  let options := TracingRouter.mkOptions (Some true) (Some true)
                   (Some (λ path, if String.eqb path "/private" then None else Some path)) in
  let r := navigate 500
             (init 500 (new_TracingRouter options (Some "/home") true 10))
             (Some "/private", 20%Q) in
  TracingRouter._activeTransaction r = None
  ∧ TracingRouter.calls r =
      [StartTransaction "/home" "pageload" true 500 0; SetSpan 0;
       FinishTransaction 0 20].
Proof.
  intros options r.
  apply (vetoed_navigation_ends_without_transaction 500
           (TracingRouter.mk options (Some 0%nat) (Some "/private") true 20
              [StartTransaction "/home" "pageload" true 500 0; SetSpan 0] 1)
           (λ path, if String.eqb path "/private" then None else Some path)
           "/private" 0); reflexivity.
Defined.
